(** * Harmonic transforms on the sphere and on SO(3): the reference
      MATLAB transforms [forward_for_dft] / [inverse_direct], the Wigner
      transform core [so3_core_mw_inverse_via_ssht] /
      [so3_core_mw_forward_via_ssht], and the coefficient-vector sizes of
      [so3_forward_mex.c].

    Numbers are exact: a MATLAB / C [double] is a real number, a complex
    double is a pair of reals.  Rounding is therefore not part of the model;
    every equation below is an equation between exact values. *)

From Stdlib Require Import String Reals Lra Lia ZArith Bool List.
Import ListNotations.

Set Implicit Arguments.

(** ** Complex numbers over the reals *)

Module Cplx.

Open Scope R_scope.

Record C : Type := mkC { Re : R; Im : R }.

Definition RtoC (x : R) : C := mkC x 0.
Definition C0 : C := RtoC 0.
Definition C1 : C := RtoC 1.
Definition Ci : C := mkC 0 1.

Definition Cadd (a b : C) : C := mkC (Re a + Re b) (Im a + Im b).
Definition Copp (a : C) : C := mkC (- Re a) (- Im a).
Definition Csub (a b : C) : C := Cadd a (Copp b).
Definition Cmul (a b : C) : C :=
  mkC (Re a * Re b - Im a * Im b) (Re a * Im b + Im a * Re b).
Definition Cinv (a : C) : C :=
  mkC (Re a / (Re a * Re a + Im a * Im a))
      (- Im a / (Re a * Re a + Im a * Im a)).
Definition Cdiv (a b : C) : C := Cmul a (Cinv b).
Definition Cconj (a : C) : C := mkC (Re a) (- Im a).

(** [exp] of a complex argument, as MATLAB's [exp]. *)
Definition Cexp (z : C) : C :=
  mkC (exp (Re z) * cos (Im z)) (exp (Re z) * sin (Im z)).

(** Integer powers: [z^m] for an integer-valued exponent, negative
    exponents through the inverse. *)
Fixpoint Cpow_nat (z : C) (n : nat) : C :=
  match n with
  | O => C1
  | S k => Cmul z (Cpow_nat z k)
  end.

Definition CpowZ (z : C) (m : Z) : C :=
  match m with
  | Z0 => C1
  | Zpos p => Cpow_nat z (Pos.to_nat p)
  | Zneg p => Cinv (Cpow_nat z (Pos.to_nat p))
  end.

Declare Scope C_scope.
Delimit Scope C_scope with C.
Bind Scope C_scope with C.
Infix "+" := Cadd : C_scope.
Infix "-" := Csub : C_scope.
Infix "*" := Cmul : C_scope.
Infix "/" := Cdiv : C_scope.
Notation "- x" := (Copp x) : C_scope.

Lemma C_eq (a b : C) : Re a = Re b -> Im a = Im b -> a = b.
Proof. destruct a, b; simpl; intros -> ->; reflexivity. Qed.

Ltac c_ring := intros; apply C_eq; simpl; ring.

Lemma Cadd_comm a b : (a + b = b + a)%C.          Proof. c_ring. Qed.
Lemma Cadd_assoc a b c : (a + (b + c) = a + b + c)%C. Proof. c_ring. Qed.
Lemma Cadd_0_l a : (C0 + a = a)%C.                Proof. c_ring. Qed.
Lemma Cadd_0_r a : (a + C0 = a)%C.                Proof. c_ring. Qed.
Lemma Cmul_comm a b : (a * b = b * a)%C.          Proof. c_ring. Qed.
Lemma Cmul_assoc a b c : (a * (b * c) = a * b * c)%C. Proof. c_ring. Qed.
Lemma Cmul_1_l a : (C1 * a = a)%C.                Proof. c_ring. Qed.
Lemma Cmul_1_r a : (a * C1 = a)%C.                Proof. c_ring. Qed.
Lemma Cmul_0_l a : (C0 * a = C0)%C.               Proof. c_ring. Qed.
Lemma Cmul_0_r a : (a * C0 = C0)%C.               Proof. c_ring. Qed.
Lemma Cmul_add_distr_r a b c : ((a + b) * c = a * c + b * c)%C.
Proof. c_ring. Qed.
Lemma Cmul_add_distr_l a b c : (a * (b + c) = a * b + a * c)%C.
Proof. c_ring. Qed.
Lemma Csub_def a b : (a - b = a + - b)%C.         Proof. reflexivity. Qed.
Lemma Copp_def a : (a + - a = C0)%C.              Proof. c_ring. Qed.

Lemma C_ring_theory :
  ring_theory C0 C1 Cadd Cmul Csub Copp (@eq C).
Proof.
  constructor.
  - exact Cadd_0_l.
  - exact Cadd_comm.
  - exact Cadd_assoc.
  - exact Cmul_1_l.
  - exact Cmul_comm.
  - exact Cmul_assoc.
  - exact Cmul_add_distr_r.
  - exact Csub_def.
  - exact Copp_def.
Qed.

Add Ring C_ring : C_ring_theory.

Lemma RtoC_inj x y : RtoC x = RtoC y -> x = y.
Proof. intros H; apply (f_equal Re) in H; exact H. Qed.

Lemma RtoC_mul x y : (RtoC x * RtoC y)%C = RtoC (x * y).
Proof. c_ring. Qed.

Lemma RtoC_add x y : (RtoC x + RtoC y)%C = RtoC (x + y).
Proof. c_ring. Qed.

Lemma Cinv_RtoC x : x <> 0 -> Cinv (RtoC x) = RtoC (/ x).
Proof. intros Hx; apply C_eq; simpl; field; exact Hx. Qed.

Lemma Cdiv_RtoC_r a x :
  x <> 0 -> (a / RtoC x)%C = mkC (Re a / x) (Im a / x).
Proof. intros Hx; apply C_eq; simpl; field; exact Hx. Qed.

Lemma Cexp_0 : Cexp C0 = C1.
Proof. apply C_eq; simpl; rewrite exp_0, ?cos_0, ?sin_0; ring. Qed.

End Cplx.

(** ** Run-time results, loops and checked arrays *)

Module Rt.

Import Cplx.
Open Scope Z_scope.

(** A run either returns a value or stops: with the message of an explicit
    [error(...)] / [SO3_ERROR_GENERIC(...)], or because an index left its
    array. *)
Inductive failure : Type :=
| Fatal (msg : string)
| IndexOutOfRange.

Inductive result (A : Type) : Type :=
| Ok (a : A)
| Err (e : failure).

Arguments Ok {A} a.
Arguments Err {A} e.

Definition bind {A B} (r : result A) (k : A -> result B) : result B :=
  match r with
  | Ok a => k a
  | Err e => Err e
  end.

Notation "x <- e ;; k" := (bind e (fun x => k))
  (at level 61, e at next level, right associativity).

(** [a:b] of MATLAB: the integers from [a] to [b], none when [b < a]. *)
Definition range (a b : Z) : list Z :=
  map (fun k => a + Z.of_nat k) (seq 0 (Z.to_nat (b - a + 1))).

(** A [for] loop threading the loop state [S] through its body. *)
Fixpoint for_each {S : Type} (l : list Z) (body : Z -> S -> result S)
         (s : S) : result S :=
  match l with
  | [] => Ok s
  | x :: l' => s' <- body x s ;; for_each l' body s'
  end.

(** The number of elements of an array, as an integer. *)
Definition len {A} (v : list A) : Z := Z.of_nat (length v).

(** Replace position [n] (from 0) of a list. *)
Definition upd {A} (n : nat) (x : A) (v : list A) : list A :=
  firstn n v ++ x :: skipn (S n) v.

(** Vectors are indexed from 1.  A read or a write outside [1..length]
    stops the run: for a write MATLAB itself would grow the array, which
    is counted as a fault here, so that a run that returns a value has kept
    every index inside the declared size. *)
Definition vget {A} (v : list A) (i : Z) : result A :=
  if 1 <=? i then
    match nth_error v (Z.to_nat (i - 1)) with
    | Some x => Ok x
    | None => Err IndexOutOfRange
    end
  else Err IndexOutOfRange.

Definition vset {A} (v : list A) (i : Z) (x : A) : result (list A) :=
  if (1 <=? i) && (i <=? Z.of_nat (length v))
  then Ok (upd (Z.to_nat (i - 1)) x v)
  else Err IndexOutOfRange.

(** Total read with a default, for stating values. *)
Definition vat {A} (d : A) (v : list A) (i : Z) : A :=
  nth (Z.to_nat (i - 1)) v d.

(** A matrix in MATLAB's layout: column-major, indexed from 1. *)
Record matrix : Type := mkMat { nrows : Z; ncols : Z; mdata : list C }.

Definition zeros (r c : Z) : matrix :=
  mkMat r c (repeat C0 (Z.to_nat (r * c))).

Definition in_dims (A : matrix) (i j : Z) : bool :=
  (1 <=? i) && (i <=? nrows A) && (1 <=? j) && (j <=? ncols A).

Definition lin (A : matrix) (i j : Z) : Z := (j - 1) * nrows A + i.

Definition mget (A : matrix) (i j : Z) : result C :=
  if in_dims A i j then vget (mdata A) (lin A i j) else Err IndexOutOfRange.

Definition mset (A : matrix) (i j : Z) (x : C) : result matrix :=
  if in_dims A i j then
    d <- vset (mdata A) (lin A i j) x ;;
    Ok (mkMat (nrows A) (ncols A) d)
  else Err IndexOutOfRange.

Definition mat (A : matrix) (i j : Z) : C := vat C0 (mdata A) (lin A i j).

(** A matrix of [r] rows and [c] columns with all its entries. *)
Definition has_dims (A : matrix) (r c : Z) : Prop :=
  nrows A = r /\ ncols A = c /\ Z.of_nat (length (mdata A)) = r * c.

(** *** Facts about ranges and loops *)

Lemma range_nil a b : b < a -> range a b = [].
Proof.
  intros H; unfold range.
  replace (Z.to_nat (b - a + 1)) with 0%nat by lia; reflexivity.
Qed.

Lemma range_cons a b : a <= b -> range a b = a :: range (a + 1) b.
Proof.
  intros H; unfold range.
  replace (Z.to_nat (b - a + 1)) with (S (Z.to_nat (b - (a + 1) + 1))) by lia.
  simpl; f_equal; [lia|].
  rewrite <- seq_shift, map_map.
  apply map_ext; intros k; lia.
Qed.

Lemma range_snoc a b : a <= b -> range a b = range a (b - 1) ++ [b].
Proof.
  intros H; unfold range.
  replace (Z.to_nat (b - a + 1)) with (Z.to_nat (b - 1 - a + 1) + 1)%nat by lia.
  rewrite seq_app, map_app; simpl; do 2 f_equal; lia.
Qed.

Lemma range_In a b x : In x (range a b) <-> a <= x <= b.
Proof.
  unfold range; rewrite in_map_iff; split.
  - intros (k & <- & Hk); apply in_seq in Hk; lia.
  - intros H; exists (Z.to_nat (x - a)); split; [lia|].
    apply in_seq; lia.
Qed.

Lemma range_length a b : length (range a b) = Z.to_nat (b - a + 1).
Proof. unfold range; rewrite length_map, length_seq; reflexivity. Qed.

Lemma range_nth a b k d :
  (k < length (range a b))%nat -> nth k (range a b) d = a + Z.of_nat k.
Proof.
  intros H; unfold range in *.
  rewrite length_map, length_seq in H.
  rewrite (nth_indep _ d (a + Z.of_nat 0)) by
      (rewrite length_map, length_seq; exact H).
  rewrite (map_nth (fun k => a + Z.of_nat k)), seq_nth by exact H.
  reflexivity.
Qed.

(** The loop rule: an invariant indexed by the next value of the loop
    variable. *)
Lemma for_range_inv {S : Type} (I : Z -> S -> Prop)
      (body : Z -> S -> result S) (a b : Z) (s : S) :
  a <= b + 1 ->
  I a s ->
  (forall x s0, a <= x <= b -> I x s0 ->
     exists s1, body x s0 = Ok s1 /\ I (x + 1) s1) ->
  exists s', for_each (range a b) body s = Ok s' /\ I (b + 1) s'.
Proof.
  intros Hab.
  remember (Z.to_nat (b - a + 1)) as n eqn:Hn.
  revert a s Hab Hn; induction n as [|n IH]; intros a s Hab Hn H0 Hstep.
  - rewrite range_nil by lia; simpl.
    exists s; split; [reflexivity|].
    replace (b + 1) with a by lia; exact H0.
  - rewrite range_cons by lia; simpl.
    destruct (Hstep a s) as (s1 & Hb & H1); [lia|exact H0|].
    rewrite Hb; simpl.
    apply IH; [lia|lia|exact H1|].
    intros x s0 Hx; apply Hstep; lia.
Qed.

(** Apply the loop rule to the loop in the goal, with invariant [I]. *)
Tactic Notation "loop_inv" constr(I) "as" simple_intropattern(p) :=
  match goal with
  | |- exists s', for_each (range ?a ?b) ?body ?s = Ok s' /\ _ =>
      destruct (@for_range_inv _ I body a b s) as p
  end.

(** The same for a loop that is followed by more code. *)
Tactic Notation "inner_loop" constr(I) "as" simple_intropattern(p) :=
  match goal with
  | |- context [for_each (range ?a ?b) ?body ?s] =>
      destruct (@for_range_inv _ I body a b s) as p
  end.

(** Sums over a list of indices, the reading of a [sum = sum + ...] loop. *)
Definition Csum (l : list Z) (F : Z -> C) : C :=
  fold_right (fun x acc => (F x + acc)%C) C0 l.

Lemma Csum_app l1 l2 F : Csum (l1 ++ l2) F = (Csum l1 F + Csum l2 F)%C.
Proof.
  induction l1 as [|x l1 IH]; simpl.
  - now rewrite Cadd_0_l.
  - rewrite IH; ring.
Qed.

Lemma Csum_snoc a b F :
  a <= b -> Csum (range a b) F = (Csum (range a (b - 1)) F + F b)%C.
Proof.
  intros H; rewrite (range_snoc H), Csum_app; simpl; ring.
Qed.

Lemma Csum_ext l F G :
  (forall x, In x l -> F x = G x) -> Csum l F = Csum l G.
Proof.
  induction l as [|x l IH]; simpl; intros H; [reflexivity|].
  rewrite (H x), IH; auto.
Qed.

Lemma Csum_scal_r l F c : (Csum l F * c)%C = Csum l (fun x => (F x * c)%C).
Proof.
  induction l as [|x l IH]; simpl; [ring|].
  rewrite <- IH; ring.
Qed.

Lemma Csum_zero l F : (forall x, In x l -> F x = C0) -> Csum l F = C0.
Proof.
  induction l as [|x l IH]; simpl; intros H; [reflexivity|].
  rewrite (H x), IH by auto; ring.
Qed.

(** An accumulating loop computes the sum of its terms. *)
Lemma for_range_sum (body : Z -> C -> result C) (F : Z -> C) a b acc :
  a <= b + 1 ->
  (forall x s, a <= x <= b -> body x s = Ok (s + F x)%C) ->
  for_each (range a b) body acc = Ok (acc + Csum (range a b) F)%C.
Proof.
  intros Hab Hbody.
  destruct (@for_range_inv C
              (fun x s => s = (acc + Csum (range a (x - 1)) F)%C)
              body a b acc Hab) as (s' & Hrun & Hs').
  - rewrite range_nil by lia; simpl; ring.
  - intros x s0 Hx ->; exists (acc + Csum (range a (x - 1)) F + F x)%C.
    split; [apply Hbody; exact Hx|].
    replace (x + 1 - 1) with x by lia.
    rewrite (@Csum_snoc a x) by lia; ring.
  - rewrite Hrun, Hs'; replace (b + 1 - 1) with b by lia; reflexivity.
Qed.

(** *** Facts about checked vectors and matrices *)

Lemma upd_length {A} n (x : A) v :
  (n < length v)%nat -> length (upd n x v) = length v.
Proof.
  intros H; unfold upd.
  rewrite length_app, length_firstn; cbn [length]; rewrite length_skipn; lia.
Qed.

Lemma upd_nth_same {A} n (x d : A) v :
  (n < length v)%nat -> nth n (upd n x v) d = x.
Proof.
  intros H; unfold upd.
  rewrite app_nth2; rewrite length_firstn; [|lia].
  replace (n - Nat.min n (length v))%nat with 0%nat by lia; reflexivity.
Qed.

Lemma upd_nth_other {A} n k (x d : A) v :
  (n < length v)%nat -> k <> n -> nth k (upd n x v) d = nth k v d.
Proof.
  revert n k; induction v as [|y r IH]; intros n k Hn Hk; simpl in Hn; [lia|].
  destruct n as [|n].
  - destruct k as [|k]; [lia|reflexivity].
  - change (upd (S n) x (y :: r)) with (y :: upd n x r).
    destruct k as [|k]; [reflexivity|].
    simpl; apply IH; lia.
Qed.

Lemma vget_ok {A} (d : A) v i :
  1 <= i <= Z.of_nat (length v) -> vget v i = Ok (vat d v i).
Proof.
  intros H; unfold vget, vat.
  destruct (Z.leb_spec 1 i); [|lia].
  destruct (nth_error v (Z.to_nat (i - 1))) as [x|] eqn:E.
  - rewrite (nth_error_nth _ _ d E); reflexivity.
  - apply nth_error_None in E; lia.
Qed.

Lemma vget_Ok_inv {A} (v : list A) i x :
  vget v i = Ok x -> 1 <= i <= Z.of_nat (length v).
Proof.
  unfold vget; destruct (Z.leb_spec 1 i); [|discriminate].
  destruct (nth_error v (Z.to_nat (i - 1))) eqn:E; [|discriminate].
  intros _.
  assert (Z.to_nat (i - 1) < length v)%nat
    by (apply nth_error_Some; congruence).
  lia.
Qed.

Lemma vset_ok {A} (v : list A) i x :
  1 <= i <= Z.of_nat (length v) ->
  vset v i x = Ok (upd (Z.to_nat (i - 1)) x v).
Proof.
  intros H; unfold vset.
  destruct (Z.leb_spec 1 i); [|lia].
  destruct (Z.leb_spec i (Z.of_nat (length v))); [|lia].
  reflexivity.
Qed.

Lemma vat_upd_same {A} (d : A) v i x :
  1 <= i <= Z.of_nat (length v) ->
  vat d (upd (Z.to_nat (i - 1)) x v) i = x.
Proof. intros H; unfold vat; apply upd_nth_same; lia. Qed.

Lemma vat_upd_other {A} (d : A) v i k x :
  1 <= i <= Z.of_nat (length v) -> 1 <= k -> k <> i ->
  vat d (upd (Z.to_nat (i - 1)) x v) k = vat d v k.
Proof. intros Hi Hk Hne; unfold vat; apply upd_nth_other; lia. Qed.

Lemma in_dims_true A r c i j :
  has_dims A r c -> 1 <= i <= r -> 1 <= j <= c -> in_dims A i j = true.
Proof.
  intros (Hr & Hc & _) Hi Hj; unfold in_dims; rewrite Hr, Hc.
  repeat (apply andb_true_intro; split); apply Z.leb_le; lia.
Qed.

Lemma lin_bounds A r c i j :
  has_dims A r c -> 1 <= i <= r -> 1 <= j <= c ->
  1 <= lin A i j <= Z.of_nat (length (mdata A)).
Proof.
  intros (Hr & Hc & Hlen) Hi Hj; unfold lin; rewrite Hr, Hlen; nia.
Qed.

Lemma lin_inj A r c i j i' j' :
  has_dims A r c -> 1 <= i <= r -> 1 <= i' <= r ->
  lin A i j = lin A i' j' -> i = i' /\ j = j'.
Proof.
  intros (Hr & _) Hi Hi'; unfold lin; rewrite Hr; intros H.
  assert (j = j') by nia; subst; lia.
Qed.

Lemma mget_ok A r c i j :
  has_dims A r c -> 1 <= i <= r -> 1 <= j <= c ->
  mget A i j = Ok (mat A i j).
Proof.
  intros HA Hi Hj; unfold mget, mat.
  rewrite (in_dims_true HA Hi Hj).
  apply vget_ok; eapply lin_bounds; eauto.
Qed.

Lemma mset_ok A r c i j x :
  has_dims A r c -> 1 <= i <= r -> 1 <= j <= c ->
  exists A', mset A i j x = Ok A' /\ has_dims A' r c /\
    mat A' i j = x /\
    (forall i' j', 1 <= i' <= r -> 1 <= j' <= c ->
                   (i' <> i \/ j' <> j) -> mat A' i' j' = mat A i' j').
Proof.
  intros HA Hi Hj.
  pose proof (lin_bounds HA Hi Hj) as Hl.
  unfold mset; rewrite (in_dims_true HA Hi Hj), (vset_ok _ _ Hl); simpl.
  eexists; split; [reflexivity|].
  destruct HA as (Hr & Hc & Hlen).
  split; [|split].
  - unfold has_dims; simpl; rewrite upd_length by lia; auto.
  - unfold mat, lin; simpl; apply (vat_upd_same C0 _ x Hl).
  - intros i' j' Hi' Hj' Hne; unfold mat; simpl.
    change ((j' - 1) * nrows A + i') with (lin A i' j').
    apply vat_upd_other; [exact Hl| |].
    + unfold lin; rewrite Hr; nia.
    + intros E.
      destruct (@lin_inj A r c i' j' i j) as [? ?];
        [unfold has_dims; auto|lia|lia|exact E|]; lia.
Qed.

Lemma zeros_dims r c : 0 <= r -> 0 <= c -> has_dims (zeros r c) r c.
Proof.
  intros Hr Hc; unfold has_dims, zeros; simpl.
  rewrite repeat_length; repeat split; nia.
Qed.

Lemma mat_zeros r c i j : mat (zeros r c) i j = C0.
Proof.
  unfold mat, zeros, vat; simpl; apply nth_repeat.
Qed.

End Rt.

(** ** The reference transforms on the sphere (MATLAB):
       [forward_for_dft] and [inverse_direct] *)

Module Sht.

Import Cplx Rt.
Open Scope Z_scope.

(** [zeros(n,1)]. *)
Definition zeros_vec (n : Z) : list C := repeat C0 (Z.to_nat n).

(** [[thetas; 2*pi - thetas(end-1:-1:1)]]. *)
Definition extend_thetas (thetas : list R) : list R :=
  thetas ++ map (fun x => (2 * PI - x)%R) (rev (removelast thetas)).

(** The weight [w] chosen by the [if abs(dm) == 1 ... elseif mod(dm,2) == 0
    ... else ...] chain of step 4. *)
Definition w (dm : Z) : C :=
  if Z.abs dm =? 1 then (Ci * RtoC (IZR dm) * RtoC PI / RtoC 2)%C
  else if dm mod 2 =? 0 then RtoC (2 / (1 - IZR dm ^ 2))
  else C0.

Section Transforms.

(** The two collaborators of the SSHT package: [ssht_sampling(L)], which
    returns the colatitudes and the longitudes of the grid, and
    [ssht_dl(dl, L, l, theta)], which advances a Wigner plane to degree
    [l].  The plane is kept in a [matrix], its real entries as complex
    numbers with no imaginary part. *)
Variable ssht_sampling : Z -> list R * list R.
Variable ssht_dl : matrix -> Z -> Z -> R -> matrix.

(** Steps 1 and 2 of [forward_for_dft]: the [sum] of one [(m, t)]. *)
Definition azimuthal_sum (L : Z) (f : matrix) (phis : list R) (m t : Z)
  : result C :=
  sum <- for_each (range 1 (len phis))
           (fun p sum =>
              phi <- vget phis p ;;
              x <- mget f (t + 1) p ;;
              Ok (sum + x * Cexp (- Ci * RtoC (IZR m) * RtoC phi))%C)
           C0 ;;
  Ok (sum / RtoC (IZR (2 * L - 1)))%C.

Definition steps_1_2 (L : Z) (f : matrix) (thetas phis : list R)
           (fm : matrix) : result matrix :=
  for_each (range (- L + 1) (L - 1))
    (fun m fm =>
       for_each (range 0 (len thetas - 1))
         (fun t fm =>
            sum <- azimuthal_sum L f phis m t ;;
            fm <- mset fm (L + m) (L + t) sum ;;
            if 0 <? t
            then mset fm (L + m) (L - t) (RtoC (powerRZ (-1) m) * sum)%C
            else Ok fm)
         fm)
    fm.

Definition step_3 (L : Z) (thetasExt : list R) (fm fmm : matrix)
  : result matrix :=
  for_each (range (- L + 1) (L - 1))
    (fun m fmm =>
       for_each (range (- L + 1) (L - 1))
         (fun mp fmm =>
            sum <- for_each (range 0 (len thetasExt - 1))
                     (fun t sum =>
                        theta <- vget thetasExt (t + 1) ;;
                        x <- mget fm (L + m) (t + 1) ;;
                        Ok (sum + x * Cexp (- Ci * RtoC (IZR mp)
                                              * RtoC theta))%C)
                     C0 ;;
            mset fmm (L + m) (L + mp) (sum / RtoC (IZR (2 * L - 1)))%C)
         fmm)
    fmm.

Definition step_4 (L : Z) (fmm gmm : matrix) : result matrix :=
  for_each (range (- L + 1) (L - 1))
    (fun m gmm =>
       for_each (range (- L + 1) (L - 1))
         (fun mp gmm =>
            sum <- for_each (range (- L + 1) (L - 1))
                     (fun mpp sum =>
                        let dm := mpp - mp in
                        x <- mget fmm (L + m) (L + mpp) ;;
                        Ok (sum + x * w dm)%C)
                     C0 ;;
            mset gmm (L + m) (L + mp) (sum * RtoC 2 * RtoC PI)%C)
         gmm)
    gmm.

(** The loop state of step 5: the coefficients, the running plane [dl] and
    the running index [lmi]. *)
Record step5_state : Type :=
  mkS5 { s5_flm : list C; s5_dl : matrix; s5_lmi : Z }.

Definition step_5 (L : Z) (gmm : matrix) (flm : list C)
  : result step5_state :=
  for_each (range 0 (L - 1))
    (fun l st =>
       let dl := ssht_dl (s5_dl st) L l (PI / 2) in
       for_each (range (- l) l)
         (fun m st =>
            sum <- for_each (range (- L + 1) (L - 1))
                     (fun mp sum =>
                        a <- mget dl (L + mp) (L + m) ;;
                        b <- mget dl (L + mp) L ;;
                        g <- mget gmm (L + m) (L + mp) ;;
                        Ok (sum + a * b * g)%C)
                     C0 ;;
            flm <- vset (s5_flm st) (s5_lmi st)
                     (sum * CpowZ Ci m
                      * RtoC (sqrt ((2 * IZR l + 1) / (4 * PI))))%C ;;
            Ok (mkS5 flm dl (s5_lmi st + 1)))
         (mkS5 (s5_flm st) dl (s5_lmi st)))
    (mkS5 flm (zeros (2 * L - 1) (2 * L - 1)) 1).

Definition forward_for_dft (L : Z) (f : matrix) : result (list C) :=
  if negb (nrows f =? L) || negb (ncols f =? 2 * L - 1)
  then Err (Fatal "Parameter f has to contain L * (2*L-1) coefficients.")
  else
    let (thetas, phis) := ssht_sampling L in
    let thetasExt := extend_thetas thetas in
    let flm := zeros_vec (L ^ 2) in
    let fm := zeros (2 * L - 1) (2 * L - 1) in
    let fmm := zeros (2 * L - 1) (2 * L - 1) in
    let gmm := zeros (2 * L - 1) (2 * L - 1) in
    fm <- steps_1_2 L f thetas phis fm ;;
    fmm <- step_3 L thetasExt fm fmm ;;
    gmm <- step_4 L fmm gmm ;;
    st <- step_5 L gmm flm ;;
    Ok (s5_flm st).

(** The loop state of one grid point of [inverse_direct]. *)
Record point_state : Type :=
  mkPt { pt_sum : C; pt_lmindex : Z; pt_dl : matrix }.

Definition synthesise_point (L : Z) (flm : list C) (theta phi : R)
  : result point_state :=
  for_each (range 0 (L - 1))
    (fun l st =>
       let dl := ssht_dl (pt_dl st) L l theta in
       for_each (range (- l) l)
         (fun m st =>
            c <- vget flm (pt_lmindex st) ;;
            d <- mget dl (m + L) L ;;
            Ok (mkPt (pt_sum st
                      + c * RtoC (sqrt ((2 * IZR l + 1) / (4 * PI))) * d
                        * Cexp (Ci * RtoC (IZR m) * RtoC phi))%C
                     (pt_lmindex st + 1) dl))
         (mkPt (pt_sum st) (pt_lmindex st) dl))
    (mkPt C0 1 (zeros (2 * L - 1) (2 * L - 1))).

Definition inverse_direct (L : Z) (flm : list C) : result matrix :=
  if negb (len flm =? L ^ 2)
  then Err (Fatal "Parameter flm has to contain L^2 coefficients.")
  else
    let (thetas, phis) := ssht_sampling L in
    let f := zeros (len thetas) (len phis) in
    for_each (range 1 (len thetas))
      (fun j f =>
         theta <- vget thetas j ;;
         for_each (range 1 (len phis))
           (fun k f =>
              phi <- vget phis k ;;
              st <- synthesise_point L flm theta phi ;;
              mset f j k (pt_sum st))
           f)
      f.

(** *** What each pass computes *)

(** The value of [sum] after steps 1: the discrete Fourier coefficient of
    row [t+1] of [f] at order [m], over the number of longitudes. *)
Definition fm_value (L : Z) (f : matrix) (phis : list R) (m t : Z) : C :=
  (Csum (range 1 (len phis))
        (fun p => mat f (t + 1) p
                  * Cexp (- Ci * RtoC (IZR m) * RtoC (vat 0%R phis p)))
   / RtoC (IZR (2 * L - 1)))%C.

Lemma azimuthal_sum_ok L f phis m t :
  has_dims f L (2 * L - 1) -> len phis = 2 * L - 1 -> 0 <= t <= L - 1 ->
  azimuthal_sum L f phis m t = Ok (fm_value L f phis m t).
Proof.
  intros Hf Hphis Ht; unfold azimuthal_sum, fm_value.
  rewrite (@for_range_sum _
             (fun p => mat f (t + 1) p
                       * Cexp (- Ci * RtoC (IZR m)
                               * RtoC (vat 0%R phis p)))%C).
  - cbn [bind]; rewrite Cadd_0_l; reflexivity.
  - unfold len in *; lia.
  - intros p s0 Hp.
    rewrite (vget_ok 0%R) by (unfold len in *; lia); cbn [bind].
    rewrite (mget_ok Hf) by lia; reflexivity.
Qed.

(** The entries of [fm] written for order [m] and colatitude index [t]. *)
Definition fm_written (L : Z) (f : matrix) (phis : list R) (fm : matrix)
           (m t : Z) : Prop :=
  mat fm (L + m) (L + t) = fm_value L f phis m t /\
  (0 < t -> mat fm (L + m) (L - t)
            = (RtoC (powerRZ (-1) m) * fm_value L f phis m t)%C).

Lemma steps_1_2_ok L f thetas phis fm0 :
  1 <= L ->
  has_dims f L (2 * L - 1) -> len thetas = L -> len phis = 2 * L - 1 ->
  has_dims fm0 (2 * L - 1) (2 * L - 1) ->
  exists fm,
    steps_1_2 L f thetas phis fm0 = Ok fm /\
    has_dims fm (2 * L - 1) (2 * L - 1) /\
    forall m t, - L + 1 <= m <= L - 1 -> 0 <= t <= L - 1 ->
                fm_written L f phis fm m t.
Proof.
  intros HL Hf Hth Hph Hfm0; unfold steps_1_2.
  loop_inv (fun m' fm => has_dims fm (2 * L - 1) (2 * L - 1) /\
              forall m t, - L + 1 <= m < m' -> 0 <= t <= L - 1 ->
                          fm_written L f phis fm m t)
    as (fm & Hrun & Hd & Hall).
  - lia.
  - split; [exact Hfm0|intros; lia].
  - intros m' fm1 Hm' (Hd1 & Hdone1).
    rewrite Hth.
    loop_inv (fun t' fm => has_dims fm (2 * L - 1) (2 * L - 1) /\
              (forall m t, - L + 1 <= m < m' -> 0 <= t <= L - 1 ->
                           fm_written L f phis fm m t) /\
              (forall t, 0 <= t < t' -> fm_written L f phis fm m' t))
      as (fm2 & Hrun & Hd2 & Hold & Hnew).
    + lia.
    + split; [exact Hd1|split; [exact Hdone1|intros; lia]].
    + intros t' fmA Ht' (HdA & HoldA & HnewA).
      rewrite azimuthal_sum_ok by (auto; lia); cbn [bind].
      destruct (@mset_ok fmA _ _ (L + m') (L + t')
                         (fm_value L f phis m' t') HdA)
        as (fmB & HsetB & HdB & HsameB & HothB); [lia|lia|].
      rewrite HsetB; cbn [bind].
      destruct (Z.ltb_spec 0 t') as [Hpos|Hzero].
      * destruct (@mset_ok fmB _ _ (L + m') (L - t')
                   (RtoC (powerRZ (-1) m') * fm_value L f phis m' t')%C HdB)
          as (fmC & HsetC & HdC & HsameC & HothC); [lia|lia|].
        exists fmC; split; [exact HsetC|].
        split; [exact HdC|split].
        -- intros m t Hm Ht; destruct (HoldA m t Hm Ht) as [E1 E2].
           split; [|intros Hp].
           ++ rewrite HothC, HothB by lia; exact E1.
           ++ rewrite HothC, HothB by lia; auto.
        -- intros t Ht.
           destruct (Z.eq_dec t t') as [->|Hne].
           ++ split; [|intros _; exact HsameC].
              rewrite HothC by lia; exact HsameB.
           ++ destruct (HnewA t) as [E1 E2]; [lia|].
              split; [|intros Hp].
              ** rewrite HothC, HothB by lia; exact E1.
              ** rewrite HothC, HothB by lia; auto.
      * exists fmB; split; [reflexivity|].
        split; [exact HdB|split].
        -- intros m t Hm Ht; destruct (HoldA m t Hm Ht) as [E1 E2].
           split; [|intros Hp].
           ++ rewrite HothB by lia; exact E1.
           ++ rewrite HothB by lia; auto.
        -- intros t Ht.
           destruct (Z.eq_dec t t') as [->|Hne].
           ++ split; [exact HsameB|intros; lia].
           ++ destruct (HnewA t) as [E1 E2]; [lia|].
              split; [|intros Hp].
              ** rewrite HothB by lia; exact E1.
              ** rewrite HothB by lia; auto.
    + exists fm2; split; [exact Hrun|].
      split; [exact Hd2|].
      intros m t Hm Ht.
      destruct (Z.eq_dec m m') as [->|Hne].
      * apply Hnew; lia.
      * apply Hold; lia.
  - exists fm; split; [exact Hrun|].
    split; [exact Hd|]; intros m t Hm Ht; apply Hall; lia.
Qed.

(** A double loop over the orders that fills one entry per pair. *)
Lemma fill_orders_ok L (e : Z -> Z -> result C) (g : C -> C)
      (V : Z -> Z -> C) (M0 : matrix) :
  1 <= L ->
  has_dims M0 (2 * L - 1) (2 * L - 1) ->
  (forall a b, - L + 1 <= a <= L - 1 -> - L + 1 <= b <= L - 1 ->
               e a b = Ok (V a b)) ->
  exists M,
    for_each (range (- L + 1) (L - 1))
      (fun a M =>
         for_each (range (- L + 1) (L - 1))
           (fun b M => sum <- e a b ;; mset M (L + a) (L + b) (g sum)) M)
      M0 = Ok M /\
    has_dims M (2 * L - 1) (2 * L - 1) /\
    forall a b, - L + 1 <= a <= L - 1 -> - L + 1 <= b <= L - 1 ->
                mat M (L + a) (L + b) = g (V a b).
Proof.
  intros HL HM0 He.
  loop_inv (fun a' M => has_dims M (2 * L - 1) (2 * L - 1) /\
              forall a b, - L + 1 <= a < a' -> - L + 1 <= b <= L - 1 ->
                          mat M (L + a) (L + b) = g (V a b))
    as (M & Hrun & Hd & Hall).
  - lia.
  - split; [exact HM0|intros; lia].
  - intros a' M1 Ha' (Hd1 & Hdone1).
    loop_inv (fun b' M => has_dims M (2 * L - 1) (2 * L - 1) /\
              (forall a b, - L + 1 <= a < a' -> - L + 1 <= b <= L - 1 ->
                           mat M (L + a) (L + b) = g (V a b)) /\
              (forall b, - L + 1 <= b < b' ->
                         mat M (L + a') (L + b) = g (V a' b)))
      as (M2 & Hrun & Hd2 & Hold & Hnew).
    + lia.
    + split; [exact Hd1|split; [exact Hdone1|intros; lia]].
    + intros b' MA Hb' (HdA & HoldA & HnewA).
      rewrite He by lia; cbn [bind].
      destruct (@mset_ok MA _ _ (L + a') (L + b') (g (V a' b')) HdA)
        as (MB & HsetB & HdB & HsameB & HothB); [lia|lia|].
      exists MB; split; [exact HsetB|].
      split; [exact HdB|split].
      * intros a b Ha Hb; rewrite HothB by lia; auto.
      * intros b Hb; destruct (Z.eq_dec b b') as [->|Hne].
        -- exact HsameB.
        -- rewrite HothB by lia; apply HnewA; lia.
    + exists M2; split; [exact Hrun|].
      split; [exact Hd2|].
      intros a b Ha Hb; destruct (Z.eq_dec a a') as [->|Hne].
      * apply Hnew; lia.
      * apply Hold; lia.
  - exists M; split; [exact Hrun|].
    split; [exact Hd|]; intros a b Ha Hb; apply Hall; lia.
Qed.

(** Step 3: the second Fourier analysis, column [t+1] of [fm] against
    entry [t+1] of the extended colatitudes. *)
Definition fmm_value (L : Z) (thetasExt : list R) (fm : matrix)
           (m mp : Z) : C :=
  (Csum (range 0 (len thetasExt - 1))
        (fun t => mat fm (L + m) (t + 1)
                  * Cexp (- Ci * RtoC (IZR mp)
                          * RtoC (vat 0%R thetasExt (t + 1))))
   / RtoC (IZR (2 * L - 1)))%C.

Lemma step_3_ok L thetasExt fm fmm0 :
  1 <= L ->
  len thetasExt = 2 * L - 1 ->
  has_dims fm (2 * L - 1) (2 * L - 1) ->
  has_dims fmm0 (2 * L - 1) (2 * L - 1) ->
  exists fmm,
    step_3 L thetasExt fm fmm0 = Ok fmm /\
    has_dims fmm (2 * L - 1) (2 * L - 1) /\
    forall m mp, - L + 1 <= m <= L - 1 -> - L + 1 <= mp <= L - 1 ->
                 mat fmm (L + m) (L + mp) = fmm_value L thetasExt fm m mp.
Proof.
  intros HL Hlen Hfm H0; unfold step_3.
  apply (@fill_orders_ok L _ (fun s => (s / RtoC (IZR (2 * L - 1)))%C)
           (fun m mp =>
              Csum (range 0 (len thetasExt - 1))
                (fun t => mat fm (L + m) (t + 1)
                          * Cexp (- Ci * RtoC (IZR mp)
                                  * RtoC (vat 0%R thetasExt (t + 1))))%C));
    [exact HL|exact H0|].
  intros m mp Hm Hmp.
  rewrite (@for_range_sum _
             (fun t => mat fm (L + m) (t + 1)
                       * Cexp (- Ci * RtoC (IZR mp)
                               * RtoC (vat 0%R thetasExt (t + 1))))%C).
  - rewrite Cadd_0_l; reflexivity.
  - lia.
  - intros t s0 Ht.
    rewrite (vget_ok 0%R) by (unfold len in *; lia); cbn [bind].
    rewrite (mget_ok Hfm) by lia; reflexivity.
Qed.

(** Step 4: the deconvolution. *)
Definition gmm_value (L : Z) (fmm : matrix) (m mp : Z) : C :=
  (Csum (range (- L + 1) (L - 1))
        (fun mpp => mat fmm (L + m) (L + mpp) * w (mpp - mp))
   * RtoC 2 * RtoC PI)%C.

Lemma step_4_ok L fmm gmm0 :
  1 <= L ->
  has_dims fmm (2 * L - 1) (2 * L - 1) ->
  has_dims gmm0 (2 * L - 1) (2 * L - 1) ->
  exists gmm,
    step_4 L fmm gmm0 = Ok gmm /\
    has_dims gmm (2 * L - 1) (2 * L - 1) /\
    forall m mp, - L + 1 <= m <= L - 1 -> - L + 1 <= mp <= L - 1 ->
                 mat gmm (L + m) (L + mp) = gmm_value L fmm m mp.
Proof.
  intros HL Hfmm H0; unfold step_4.
  apply (@fill_orders_ok L _ (fun s => (s * RtoC 2 * RtoC PI)%C)
           (fun m mp =>
              Csum (range (- L + 1) (L - 1))
                (fun mpp => mat fmm (L + m) (L + mpp) * w (mpp - mp))%C));
    [exact HL|exact H0|].
  intros m mp Hm Hmp.
  rewrite (@for_range_sum _
             (fun mpp => mat fmm (L + m) (L + mpp) * w (mpp - mp))%C).
  - rewrite Cadd_0_l; reflexivity.
  - lia.
  - intros mpp s0 Hmpp; cbn zeta.
    rewrite (mget_ok Hfmm) by lia; reflexivity.
Qed.

(** The plane held in [dl] once the recursion has been advanced through
    the first [n] degrees [0 .. n-1], starting from [zeros(2*L-1,2*L-1)]. *)
Fixpoint dl_after (L : Z) (theta : R) (n : nat) : matrix :=
  match n with
  | O => zeros (2 * L - 1) (2 * L - 1)
  | S k => ssht_dl (dl_after L theta k) L (Z.of_nat k) theta
  end.

(** The plane of degree [l]: the recursion advanced from degree 0 up to
    [l]. *)
Definition dl_at (L : Z) (theta : R) (l : Z) : matrix :=
  dl_after L theta (S (Z.to_nat l)).

(** The contract of [ssht_dl] used below: it returns a plane of the size
    it was given. *)
Definition dl_keeps_dims : Prop :=
  forall dl L l theta,
    has_dims dl (2 * L - 1) (2 * L - 1) ->
    has_dims (ssht_dl dl L l theta) (2 * L - 1) (2 * L - 1).

Lemma dl_after_dims L theta n :
  dl_keeps_dims -> 1 <= L ->
  has_dims (dl_after L theta n) (2 * L - 1) (2 * L - 1).
Proof.
  intros Hk HL; induction n as [|n IH]; cbn [dl_after].
  - apply zeros_dims; lia.
  - apply Hk; exact IH.
Qed.

Lemma dl_after_step L theta l :
  0 <= l ->
  ssht_dl (dl_after L theta (Z.to_nat l)) L l theta = dl_at L theta l.
Proof.
  intros Hl; unfold dl_at; simpl; rewrite Z2Nat.id by lia; reflexivity.
Qed.

Lemma dl_at_next L theta l :
  0 <= l -> dl_at L theta l = dl_after L theta (Z.to_nat (l + 1)).
Proof.
  intros Hl; unfold dl_at; f_equal; lia.
Qed.

(** One term of [inverse_direct] and the value synthesised at a point. *)
Definition harmonic_term (L : Z) (flm : list C) (theta phi : R)
           (l m : Z) : C :=
  (vat C0 flm (l * l + l + m + 1)
   * RtoC (sqrt ((2 * IZR l + 1) / (4 * PI)))
   * mat (dl_at L theta l) (m + L) L
   * Cexp (Ci * RtoC (IZR m) * RtoC phi))%C.

Definition point_value (L : Z) (flm : list C) (theta phi : R) : C :=
  Csum (range 0 (L - 1))
       (fun l => Csum (range (- l) l) (harmonic_term L flm theta phi l)).

Lemma synthesise_point_ok L flm theta phi :
  dl_keeps_dims -> 1 <= L -> len flm = L ^ 2 ->
  exists st,
    synthesise_point L flm theta phi = Ok st /\
    pt_sum st = point_value L flm theta phi /\
    pt_lmindex st = L ^ 2 + 1.
Proof.
  intros Hk HL Hlen; unfold synthesise_point, point_value.
  set (T := harmonic_term L flm theta phi).
  loop_inv (fun l' st =>
              pt_sum st = Csum (range 0 (l' - 1))
                               (fun l => Csum (range (- l) l) (T l)) /\
              pt_lmindex st = l' * l' + 1 /\
              pt_dl st = dl_after L theta (Z.to_nat l'))
    as (st & Hrun & Hsum & Hidx & Hdl).
  - lia.
  - simpl; repeat split.
  - intros l st0 Hl (Hs0 & Hi0 & Hd0); cbn zeta.
    rewrite Hd0, dl_after_step by lia.
    loop_inv (fun m' st =>
                pt_sum st = (pt_sum st0 + Csum (range (- l) (m' - 1)) (T l))%C
                /\ pt_lmindex st = l * l + l + m' + 1
                /\ pt_dl st = dl_at L theta l)
      as (st1 & Hrun & Hs1 & Hi1 & Hd1).
    + lia.
    + simpl; rewrite range_nil by lia; simpl.
      repeat split; [ring|lia].
    + intros m stA Hm (HsA & HiA & HdA).
      rewrite (vget_ok C0) by (rewrite HiA; unfold len in *; nia).
      cbn [bind].
      rewrite (@mget_ok _ (2 * L - 1) (2 * L - 1));
        [|apply dl_after_dims; assumption|lia|lia].
      cbn [bind]; eexists; split; [reflexivity|]; simpl.
      repeat split; [|lia].
      rewrite HsA, HiA.
      replace (m + 1 - 1) with m by lia.
      rewrite (@Csum_snoc (- l) m) by lia.
      unfold T at 3, harmonic_term; ring.
    + exists st1; split; [exact Hrun|].
      repeat split.
      * rewrite Hs1, Hs0.
        replace (l + 1 - 1) with l in * by lia.
        rewrite (@Csum_snoc 0 l) by lia; reflexivity.
      * rewrite Hi1; lia.
      * rewrite Hd1; apply dl_at_next; lia.
  - exists st; split; [exact Hrun|].
    split; [|rewrite Hidx; lia].
    rewrite Hsum; replace (L - 1 + 1 - 1) with (L - 1) by lia; reflexivity.
Qed.

(** The contract of [ssht_sampling] used below: [L] colatitudes and
    [2L-1] longitudes. *)
Definition sampling_sizes (L : Z) : Prop :=
  len (fst (ssht_sampling L)) = L /\ len (snd (ssht_sampling L)) = 2 * L - 1.

Lemma inverse_direct_ok L flm :
  dl_keeps_dims -> sampling_sizes L -> 1 <= L -> len flm = L ^ 2 ->
  exists f,
    inverse_direct L flm = Ok f /\
    has_dims f L (2 * L - 1) /\
    forall j k, 1 <= j <= L -> 1 <= k <= 2 * L - 1 ->
      mat f j k = point_value L flm
                    (vat 0%R (fst (ssht_sampling L)) j)
                    (vat 0%R (snd (ssht_sampling L)) k).
Proof.
  intros Hk (Hth & Hph) HL Hlen; unfold inverse_direct.
  rewrite Hlen, Z.eqb_refl; cbn [negb].
  destruct (ssht_sampling L) as [thetas phis]; cbn [fst snd] in *.
  rewrite Hth, Hph.
  set (V := fun j k => point_value L flm (vat 0%R thetas j)
                                   (vat 0%R phis k)).
  loop_inv (fun j' f => has_dims f L (2 * L - 1) /\
              forall j k, 1 <= j < j' -> 1 <= k <= 2 * L - 1 ->
                          mat f j k = V j k)
    as (f & Hrun & Hd & Hall).
  - lia.
  - split; [apply zeros_dims; lia|intros; lia].
  - intros j' f1 Hj' (Hd1 & Hdone1).
    rewrite (vget_ok 0%R) by (unfold len in *; lia); cbn [bind].
    loop_inv (fun k' f => has_dims f L (2 * L - 1) /\
              (forall j k, 1 <= j < j' -> 1 <= k <= 2 * L - 1 ->
                           mat f j k = V j k) /\
              (forall k, 1 <= k < k' -> mat f j' k = V j' k))
      as (f2 & Hrun & Hd2 & Hold & Hnew).
    + lia.
    + split; [exact Hd1|split; [exact Hdone1|intros; lia]].
    + intros k' fA Hk' (HdA & HoldA & HnewA).
      rewrite (vget_ok 0%R) by (unfold len in *; lia); cbn [bind].
      destruct (@synthesise_point_ok L flm (vat 0%R thetas j')
                  (vat 0%R phis k') Hk HL Hlen) as (st & Hst & Hsum & _).
      rewrite Hst; cbn [bind].
      destruct (@mset_ok fA _ _ j' k' (pt_sum st) HdA)
        as (fB & HsetB & HdB & HsameB & HothB); [lia|lia|].
      exists fB; split; [exact HsetB|].
      split; [exact HdB|split].
      * intros j k Hj Hkk; rewrite HothB by lia; auto.
      * intros k Hkk; destruct (Z.eq_dec k k') as [->|Hne].
        -- rewrite HsameB; exact Hsum.
        -- rewrite HothB by lia; apply HnewA; lia.
    + exists f2; split; [exact Hrun|].
      split; [exact Hd2|].
      intros j k Hj Hkk; destruct (Z.eq_dec j j') as [->|Hne].
      * apply Hnew; lia.
      * apply Hold; lia.
  - exists f; split; [exact Hrun|].
    split; [exact Hd|]; intros j k Hj Hkk; apply Hall; lia.
Qed.

(** Step 5: the degree reduction at the angle [pi/2]. *)
Definition flm_value (L : Z) (gmm : matrix) (l m : Z) : C :=
  (Csum (range (- L + 1) (L - 1))
        (fun mp => mat (dl_at L (PI / 2) l) (L + mp) (L + m)
                   * mat (dl_at L (PI / 2) l) (L + mp) L
                   * mat gmm (L + m) (L + mp))
   * CpowZ Ci m
   * RtoC (sqrt ((2 * IZR l + 1) / (4 * PI))))%C.

Lemma step_5_ok L gmm flm0 :
  dl_keeps_dims -> 1 <= L ->
  has_dims gmm (2 * L - 1) (2 * L - 1) -> len flm0 = L ^ 2 ->
  exists st,
    step_5 L gmm flm0 = Ok st /\
    len (s5_flm st) = L ^ 2 /\
    s5_lmi st = L ^ 2 + 1 /\
    forall l m, 0 <= l <= L - 1 -> - l <= m <= l ->
      vat C0 (s5_flm st) (l * l + l + m + 1) = flm_value L gmm l m.
Proof.
  intros Hk HL Hg Hlen; unfold step_5.
  set (V := flm_value L gmm).
  loop_inv (fun l' st =>
              len (s5_flm st) = L ^ 2 /\
              s5_lmi st = l' * l' + 1 /\
              s5_dl st = dl_after L (PI / 2) (Z.to_nat l') /\
              forall l m, 0 <= l < l' -> - l <= m <= l ->
                vat C0 (s5_flm st) (l * l + l + m + 1) = V l m)
    as (st & Hrun & Hl & Hidx & Hdl & Hall).
  - lia.
  - simpl; repeat split; [exact Hlen|intros; lia].
  - intros l st0 Hl0 (Hn0 & Hi0 & Hd0 & Hdone0); cbn zeta.
    rewrite Hd0, dl_after_step by lia.
    loop_inv (fun m' st =>
                len (s5_flm st) = L ^ 2 /\
                s5_lmi st = l * l + l + m' + 1 /\
                s5_dl st = dl_at L (PI / 2) l /\
                (forall l1 m, 0 <= l1 < l -> - l1 <= m <= l1 ->
                   vat C0 (s5_flm st) (l1 * l1 + l1 + m + 1) = V l1 m) /\
                (forall m, - l <= m < m' ->
                   vat C0 (s5_flm st) (l * l + l + m + 1) = V l m))
      as (st1 & Hrun & Hn1 & Hi1 & Hd1 & Hold & Hnew).
    + lia.
    + simpl; repeat split; [exact Hn0|lia|exact Hdone0|intros; lia].
    + intros m stA Hm (HnA & HiA & HdA & HoldA & HnewA).
      assert (Hdd : has_dims (dl_at L (PI / 2) l) (2 * L - 1) (2 * L - 1))
        by (apply dl_after_dims; assumption).
      rewrite (@for_range_sum _
                 (fun mp => mat (dl_at L (PI / 2) l) (L + mp) (L + m)
                            * mat (dl_at L (PI / 2) l) (L + mp) L
                            * mat gmm (L + m) (L + mp))%C);
        [|lia|].
      * cbn [bind].
        assert (Hin : 1 <= s5_lmi stA <= Z.of_nat (length (s5_flm stA)))
          by (rewrite HiA; unfold len in *; nia).
        rewrite (vset_ok _ _ Hin); cbn [bind].
        eexists; split; [reflexivity|]; simpl.
        split; [unfold len in *; rewrite upd_length by lia; exact HnA|].
        split; [lia|]; split; [reflexivity|]; split.
        -- intros l1 m1 Hl1 Hm1.
           rewrite vat_upd_other; [auto|exact Hin|nia|rewrite HiA; nia].
        -- intros m1 Hm1; destruct (Z.eq_dec m1 m) as [->|Hne].
           ++ rewrite <- HiA, vat_upd_same by exact Hin.
              unfold V, flm_value; rewrite Cadd_0_l; reflexivity.
           ++ rewrite vat_upd_other;
                [apply HnewA; lia|exact Hin|nia|rewrite HiA; nia].
      * intros mp s0 Hmp.
        rewrite !(mget_ok Hdd) by lia; cbn [bind].
        rewrite (mget_ok Hg) by lia; reflexivity.
    + exists st1; split; [exact Hrun|].
      split; [exact Hn1|]; split; [rewrite Hi1; lia|].
      split; [rewrite Hd1; apply dl_at_next; lia|].
      intros l1 m Hl1 Hm1; destruct (Z.eq_dec l1 l) as [->|Hne].
      * apply Hnew; lia.
      * apply Hold; lia.
  - exists st; split; [exact Hrun|].
    split; [exact Hl|]; split; [rewrite Hidx; lia|].
    intros l m Hl1 Hm; apply Hall; lia.
Qed.

Lemma extend_thetas_len thetas :
  1 <= len thetas -> len (extend_thetas thetas) = 2 * len thetas - 1.
Proof.
  unfold len, extend_thetas; intros H.
  rewrite length_app, length_map, length_rev.
  destruct thetas as [|x r]; [simpl in H; lia|].
  rewrite removelast_firstn_len, length_firstn; simpl length; lia.
Qed.

(** The whole pipeline of [forward_for_dft]: every pass returns, and each
    array holds the values of its pass. *)
Inductive forward_run (L : Z) (f : matrix) (flm : list C) : Prop :=
| ForwardRun (fm fmm gmm : matrix)
    (fm_dims : has_dims fm (2 * L - 1) (2 * L - 1))
    (fmm_dims : has_dims fmm (2 * L - 1) (2 * L - 1))
    (gmm_dims : has_dims gmm (2 * L - 1) (2 * L - 1))
    (flm_len : len flm = L ^ 2)
    (fm_ok :
       forall m t, - L + 1 <= m <= L - 1 -> 0 <= t <= L - 1 ->
         fm_written L f (snd (ssht_sampling L)) fm m t)
    (fmm_ok :
       forall m mp, - L + 1 <= m <= L - 1 -> - L + 1 <= mp <= L - 1 ->
         mat fmm (L + m) (L + mp)
         = fmm_value L (extend_thetas (fst (ssht_sampling L))) fm m mp)
    (gmm_ok :
       forall m mp, - L + 1 <= m <= L - 1 -> - L + 1 <= mp <= L - 1 ->
         mat gmm (L + m) (L + mp) = gmm_value L fmm m mp)
    (flm_ok :
       forall l m, 0 <= l <= L - 1 -> - l <= m <= l ->
         vat C0 flm (l * l + l + m + 1) = flm_value L gmm l m).

Lemma forward_for_dft_ok L f :
  dl_keeps_dims -> sampling_sizes L -> 1 <= L ->
  has_dims f L (2 * L - 1) ->
  exists flm, forward_for_dft L f = Ok flm /\ forward_run L f flm.
Proof.
  intros Hk (Hth & Hph) HL Hf; unfold forward_for_dft.
  destruct Hf as (Hr & Hc & Hn).
  rewrite Hr, Hc, !Z.eqb_refl; cbn [negb orb].
  assert (Hf : has_dims f L (2 * L - 1)) by (unfold has_dims; auto).
  destruct (ssht_sampling L) as [thetas phis] eqn:Hs; cbn [fst snd] in *.
  assert (Hz : has_dims (zeros (2 * L - 1) (2 * L - 1))
                        (2 * L - 1) (2 * L - 1))
    by (apply zeros_dims; lia).
  destruct (@steps_1_2_ok L f thetas phis _ HL Hf Hth Hph Hz)
    as (fm & Hrun1 & Hd1 & Hfm).
  rewrite Hrun1; cbn [bind].
  assert (Hext : len (extend_thetas thetas) = 2 * L - 1)
    by (rewrite extend_thetas_len; lia).
  destruct (@step_3_ok L _ fm _ HL Hext Hd1 Hz) as (fmm & Hrun3 & Hd3 & Hfmm).
  rewrite Hrun3; cbn [bind].
  destruct (@step_4_ok L fmm _ HL Hd3 Hz) as (gmm & Hrun4 & Hd4 & Hgmm).
  rewrite Hrun4; cbn [bind].
  assert (Hzv : len (zeros_vec (L ^ 2)) = L ^ 2)
    by (unfold len, zeros_vec; rewrite repeat_length; nia).
  destruct (@step_5_ok L gmm _ Hk HL Hd4 Hzv)
    as (st & Hrun5 & Hlen5 & _ & Hflm).
  rewrite Hrun5; cbn [bind].
  exists (s5_flm st); split; [reflexivity|].
  apply (@ForwardRun L f (s5_flm st) fm fmm gmm);
    rewrite ?Hs; cbn [fst snd]; auto.
Qed.

End Transforms.

End Sht.

(** ** The SSHT collaborators: the sampling grid and the Wigner planes

    [ssht_sampling] and [ssht_dl] belong to the SSHT package, not to this
    repository.  They are written here from their documented meaning: the
    McEwen-Wiaux grid, and Wigner's formula for the small-d functions. *)

Module Ssht.

Import Cplx Rt Sht.
Open Scope Z_scope.

(** [theta_t = (2t+1) pi / (2L-1)] for [t = 0..L-1] and
    [phi_p = 2 p pi / (2L-1)] for [p = 0..2L-2]. *)
Definition mw_sampling (L : Z) : list R * list R :=
  (map (fun t => ((2 * IZR t + 1) * PI / IZR (2 * L - 1))%R)
       (range 0 (L - 1)),
   map (fun p => (2 * IZR p * PI / IZR (2 * L - 1))%R)
       (range 0 (2 * L - 2))).

Definition fact_Z (n : Z) : R := INR (fact (Z.to_nat n)).

Definition pow_Z (x : R) (n : Z) : R := (x ^ Z.to_nat n)%R.

(** One term of Wigner's formula for [d^l_{mp,m}(beta)]; terms with a
    negative factorial argument are absent. *)
Definition wigner_term (l mp m : Z) (beta : R) (k : Z) : R :=
  if (0 <=? l + m - k) && (0 <=? l - k - mp) && (0 <=? k - m + mp)
  then (powerRZ (-1) (k - m + mp)
        * sqrt (fact_Z (l + m) * fact_Z (l - m)
                * fact_Z (l + mp) * fact_Z (l - mp))
        / (fact_Z (l + m - k) * fact_Z k
           * fact_Z (l - k - mp) * fact_Z (k - m + mp))
        * pow_Z (cos (beta / 2)) (2 * l - 2 * k + m - mp)
        * pow_Z (sin (beta / 2)) (2 * k - m + mp))%R
  else 0%R.

Definition wigner_d (l mp m : Z) (beta : R) : R :=
  fold_right (fun k acc => (wigner_term l mp m beta k + acc)%R) 0%R
             (range 0 (2 * l)).

(** A matrix given entry by entry. *)
Definition tabulate (r c : Z) (F : Z -> Z -> C) : matrix :=
  mkMat r c (map (fun k => F (k mod r + 1) (k / r + 1))
                 (range 0 (r * c - 1))).

(** The plane of degree [l]: the block [|mp|, |m| <= l] around the centre
    [(L, L)] receives the Wigner functions, the other entries stay. *)
Definition wigner_dl (dl : matrix) (L l : Z) (theta : R) : matrix :=
  tabulate (2 * L - 1) (2 * L - 1)
    (fun i j =>
       if (Z.abs (i - L) <=? l) && (Z.abs (j - L) <=? l)
       then RtoC (wigner_d l (i - L) (j - L) theta)
       else mat dl i j).

Lemma tabulate_dims r c F : 0 <= r * c -> has_dims (tabulate r c F) r c.
Proof.
  intros Hrc; unfold has_dims, tabulate; simpl.
  rewrite length_map, range_length; repeat split; lia.
Qed.

Lemma mat_tabulate r c F i j :
  1 <= i <= r -> 1 <= j <= c -> mat (tabulate r c F) i j = F i j.
Proof.
  intros Hi Hj; unfold mat, tabulate, vat, lin; simpl.
  set (k := Z.to_nat ((j - 1) * r + i - 1)).
  assert (Hk : (k < length (range 0 (r * c - 1)))%nat)
    by (rewrite range_length; unfold k; nia).
  rewrite (nth_indep _ C0 (F (0 mod r + 1) (0 / r + 1)))
    by (rewrite length_map; exact Hk).
  rewrite (map_nth (fun k => F (k mod r + 1) (k / r + 1))).
  rewrite range_nth by exact Hk.
  replace (0 + Z.of_nat k) with ((i - 1) + (j - 1) * r) by (unfold k; nia).
  rewrite Z.mod_add, Z.div_add by lia.
  rewrite Z.mod_small, Z.div_small by lia.
  f_equal; lia.
Qed.

Lemma wigner_dl_keeps_dims : dl_keeps_dims wigner_dl.
Proof.
  intros dl L l theta _; unfold wigner_dl.
  apply tabulate_dims; nia.
Qed.

Lemma mw_sampling_sizes L : 1 <= L -> sampling_sizes mw_sampling L.
Proof.
  intros HL; unfold sampling_sizes, mw_sampling, len; cbn [fst snd].
  rewrite !length_map, !range_length; lia.
Qed.

End Ssht.

(** ** The Wigner transform core on SO(3) (C): [so3_core.c] *)

Module So3.

Import Cplx Rt.
Open Scope Z_scope.

(** [so3_storage_t]: the four layouts named in the [switch] statements,
    and any other value an argument of the enumeration type can hold. *)
Inductive so3_storage_t : Type :=
| SO3_STORE_ZERO_FIRST_PAD
| SO3_STORE_NEG_FIRST_PAD
| SO3_STORE_ZERO_FIRST_COMPACT
| SO3_STORE_NEG_FIRST_COMPACT
| SO3_STORE_OTHER (tag : Z).

Inductive ssht_dl_method_t : Type := SSHT_DL_RISBO | SSHT_DL_TRAPANI.

(** The transient buffers of the two transforms and what happens to them.
    [malloc] and [calloc] are taken to succeed. *)
Inductive buffer : Type := buf_fn | buf_flm | buf_ftemp.

Inductive event : Type :=
| Alloc (b : buffer)
| Free (b : buffer).

(** A run with its allocation trace: the events so far go in, the events
    so far and the result come out. *)
Definition traced (A : Type) : Type :=
  list event -> list event * result A.

Definition tret {A} (a : A) : traced A := fun t => (t, Ok a).

Definition tbind {A B} (m : traced A) (k : A -> traced B) : traced B :=
  fun t =>
    match m t with
    | (t1, Ok a) => k a t1
    | (t1, Err e) => (t1, Err e)
    end.

Definition emit (e : event) : traced unit := fun t => (t ++ [e], Ok tt).
Definition lift {A} (r : result A) : traced A := fun t => (t, r).

(** The trace and the result of a whole run. *)
Definition run {A} (m : traced A) : list event * result A := m [].

Notation "x <~ e ;; k" := (tbind e (fun x => k))
  (at level 61, e at next level, right associativity).

(** C arrays: indexed from 0; an access outside the buffer stops the run. *)
Definition aget (v : list C) (i : Z) : result C := vget v (i + 1).
Definition aset (v : list C) (i : Z) (x : C) : result (list C) :=
  vset v (i + 1) x.
Definition at0 (v : list C) (i : Z) : C := vat C0 v (i + 1).

(** [memcpy(dst + doff, src + soff, n * sizeof(complex double))]. *)
Definition memcpy (dst : list C) (doff : Z) (src : list C) (soff n : Z)
  : result (list C) :=
  if (0 <=? doff) && (0 <=? soff) && (0 <=? n)
     && (doff + n <=? len dst) && (soff + n <=? len src)
  then Ok (firstn (Z.to_nat doff) dst
           ++ firstn (Z.to_nat n) (skipn (Z.to_nat soff) src)
           ++ skipn (Z.to_nat (doff + n)) dst)
  else Err IndexOutOfRange.

(** [n] entries of [v] from [off] on, as read through [v + off]. *)
Definition window (v : list C) (off n : Z) : result (list C) :=
  if (0 <=? off) && (0 <=? n) && (off + n <=? len v)
  then Ok (firstn (Z.to_nat n) (skipn (Z.to_nat off) v))
  else Err IndexOutOfRange.

(** The plan made by [fftw_plan_many_dft] with rank 1, transform length
    [n], [howmany] transforms, stride [howmany] and distance 1 for both
    arrays, as FFTW documents it: transform [k] reads
    [in[k + j*howmany]] and writes the unnormalised sums
    [out[k + j'*howmany] = sum_j in[k + j*howmany] * exp(sign*2*pi*i*j*j'/n)]. *)
Definition FFTW_FORWARD : Z := -1.
Definition FFTW_BACKWARD : Z := 1.

Definition dft_value (sign n howmany : Z) (input : list C) (q : Z) : C :=
  Csum (range 0 (n - 1))
       (fun j => at0 input (q mod howmany + j * howmany)
                 * Cexp (Ci * RtoC (IZR sign * (2 * PI * IZR j
                                                * IZR (q / howmany))
                                    / IZR n)))%C.

Definition fftw_execute (sign n howmany : Z) (input output : list C)
  : result (list C) :=
  if (n * howmany <=? len input) && (n * howmany <=? len output)
  then Ok (map (dft_value sign n howmany input) (range 0 (n * howmany - 1))
           ++ skipn (Z.to_nat (n * howmany)) output)
  else Err IndexOutOfRange.

(** [offset = (n < 0 ? n + 2*N-1 : n)]. *)
Definition orientation_index (N n : Z) : Z :=
  if n <? 0 then n + 2 * N - 1 else n.

(** [if (n % 2)]: C's remainder, not zero for every odd [n]. *)
Definition is_odd (n : Z) : bool := negb (Z.rem n 2 =? 0).

(** The state of the two rescaling loops: the buffer and the counters
    [i] and [offset]. *)
Record scale_state : Type :=
  mkScale { sc_buf : list C; sc_i : Z; sc_offset : Z }.

(** The rescaling loop of both transforms,
    [for (; el < L; ++el) { for (; i < offset + 2*el+1; ++i)
       buf[base + i] *= factor(el); offset = i; }]
    entered with [i = offset = 0] and [el = el0]. *)
Definition scale_by_degree (base el0 L : Z) (factor : Z -> R)
           (buf : list C) : result (list C) :=
  st <- for_each (range el0 (L - 1))
          (fun el st =>
             buf <- for_each (range (sc_i st) (sc_offset st + 2 * el + 1 - 1))
                      (fun i buf =>
                         x <- aget buf (base + i) ;;
                         aset buf (base + i) (x * RtoC (factor el))%C)
                      (sc_buf st) ;;
             let i := Z.max (sc_i st) (sc_offset st + 2 * el + 1) in
             Ok (mkScale buf i i))
          (mkScale buf 0 0) ;;
  Ok (sc_buf st).

Section Core.

(** The collaborators: the two SSHT engines, which return the samples
    (the coefficients) they write through their first argument; the index
    map of [so3_sampling.c]; and the contents of freshly [malloc]ed
    memory. *)
Variable ssht_core_mw_inverse_sov_sym :
  list C -> Z -> Z -> ssht_dl_method_t -> list C.
Variable ssht_core_mw_forward_sov_conv_sym :
  list C -> Z -> Z -> ssht_dl_method_t -> list C.
Variable so3_sampling_elmn2ind : Z -> Z -> Z -> Z -> Z -> so3_storage_t -> Z.
Variable malloc : Z -> list C.

(** [calloc(n, ...)]. *)
Definition calloc (n : Z) : list C := repeat C0 (Z.to_nat n).

(** The first [switch] of the inverse: the coefficients of slice [n] are
    brought into [flm]. *)
Definition load_slice (flm flmn : list C) (L N n : Z)
           (storage : so3_storage_t) : result (list C) :=
  match storage with
  | SO3_STORE_ZERO_FIRST_PAD | SO3_STORE_NEG_FIRST_PAD =>
      let ind := so3_sampling_elmn2ind 0 0 n L N storage in
      memcpy flm 0 flmn ind (L * L)
  | SO3_STORE_ZERO_FIRST_COMPACT | SO3_STORE_NEG_FIRST_COMPACT =>
      let ind :=
        so3_sampling_elmn2ind (Z.abs n) (- Z.abs n) n L N storage in
      flm <- memcpy flm (n * n) flmn ind (L * L - n * n) ;;
      for_each (range 0 (n * n - 1)) (fun i flm => aset flm i C0) flm
  | SO3_STORE_OTHER _ => Err (Fatal "Invalid storage method.")
  end.

(** [sqrt((double)(2*el+1)/(16.*pow(SO3_PI, 3.)))]. *)
Definition inverse_factor (el : Z) : R :=
  sqrt (IZR (2 * el + 1) / (16 * PI ^ 3)).

(** One pass of the loop over [n] of the inverse; the state is the pair of
    [fn] and [flm]. *)
Definition inverse_pass (flmn : list C) (L N : Z) (storage : so3_storage_t)
           (n : Z) (st : list C * list C) : result (list C * list C) :=
  let fn_n_stride := L * (2 * L - 1) in
  let (fn, flm) := st in
  flm <- load_slice flm flmn L N n storage ;;
  flm <- scale_by_degree 0 0 L inverse_factor flm ;;
  let offset := orientation_index N n in
  fn <- memcpy fn (offset * fn_n_stride)
          (ssht_core_mw_inverse_sov_sym flm L (- n) SSHT_DL_TRAPANI)
          0 fn_n_stride ;;
  fn <- (if is_odd n
         then for_each (range 0 (fn_n_stride - 1))
                (fun i fn =>
                   x <- aget fn (offset * fn_n_stride + i) ;;
                   aset fn (offset * fn_n_stride + i) (- x)%C)
                fn
         else Ok fn) ;;
  Ok (fn, flm).

Definition so3_core_mw_inverse_via_ssht (f flmn : list C) (L N : Z)
           (storage : so3_storage_t) : traced (list C) :=
  let fn_n_stride := L * (2 * L - 1) in
  _ <~ emit (Alloc buf_fn) ;;
  let fn := malloc ((2 * N - 1) * fn_n_stride) in
  _ <~ emit (Alloc buf_flm) ;;
  let flm := calloc (L * L) in
  st <~ lift (for_each (range (- N + 1) (N - 1))
                (inverse_pass flmn L N storage) (fn, flm)) ;;
  _ <~ emit (Free buf_flm) ;;
  f <~ lift (fftw_execute FFTW_BACKWARD (2 * N - 1) fn_n_stride
               (fst st) f) ;;
  _ <~ emit (Free buf_fn) ;;
  tret f.

(** [sign*sqrt(4.0*SO3_PI/(double)(2*el+1))]. *)
Definition forward_factor (sign el : Z) : R :=
  (IZR sign * sqrt (4 * PI / IZR (2 * el + 1)))%R.

(** One pass of the loop over [n] of the forward transform; the state is
    the pair of [flmn] and [flm]. *)
Definition forward_pass (fn : list C) (L N : Z) (storage : so3_storage_t)
           (n : Z) (st : list C * list C) : result (list C * list C) :=
  let fn_n_stride := L * (2 * L - 1) in
  let (flmn, flm) := st in
  let sign := if is_odd n then -1 else 1 in
  let offset := orientation_index N n in
  match storage with
  | SO3_STORE_ZERO_FIRST_PAD | SO3_STORE_NEG_FIRST_PAD =>
      let ind := so3_sampling_elmn2ind 0 0 n L N storage in
      slice <- window fn (offset * fn_n_stride) fn_n_stride ;;
      flmn <- memcpy flmn ind
                (ssht_core_mw_forward_sov_conv_sym slice L (- n)
                   SSHT_DL_TRAPANI)
                0 (L * L) ;;
      flmn <- scale_by_degree ind 0 L (forward_factor sign) flmn ;;
      Ok (flmn, flm)
  | SO3_STORE_ZERO_FIRST_COMPACT | SO3_STORE_NEG_FIRST_COMPACT =>
      slice <- window fn (offset * fn_n_stride) fn_n_stride ;;
      flm <- memcpy flm 0
               (ssht_core_mw_forward_sov_conv_sym slice L (- n)
                  SSHT_DL_TRAPANI)
               0 (L * L) ;;
      let ind :=
        so3_sampling_elmn2ind (Z.abs n) (- Z.abs n) n L N storage in
      flmn <- memcpy flmn ind flm (n * n) (L * L - n * n) ;;
      flmn <- scale_by_degree ind (Z.abs n) L (forward_factor sign) flmn ;;
      Ok (flmn, flm)
  | SO3_STORE_OTHER _ => Err (Fatal "Invalid storage method.")
  end.

Definition is_compact (storage : so3_storage_t) : bool :=
  match storage with
  | SO3_STORE_ZERO_FIRST_COMPACT | SO3_STORE_NEG_FIRST_COMPACT => true
  | _ => false
  end.

Definition so3_core_mw_forward_via_ssht (flmn f : list C) (L N : Z)
           (storage : so3_storage_t) : traced (list C) :=
  let fn_n_stride := L * (2 * L - 1) in
  _ <~ emit (Alloc buf_ftemp) ;;
  ftemp <~ lift (memcpy (malloc ((2 * N - 1) * fn_n_stride)) 0 f 0
                   ((2 * N - 1) * fn_n_stride)) ;;
  _ <~ emit (Alloc buf_fn) ;;
  let fn := malloc ((2 * N - 1) * fn_n_stride) in
  fn <~ lift (fftw_execute FFTW_FORWARD (2 * N - 1) fn_n_stride ftemp fn) ;;
  _ <~ emit (Free buf_ftemp) ;;
  fn <~ lift (for_each (range 0 ((2 * N - 1) * fn_n_stride - 1))
                (fun i fn =>
                   x <- aget fn i ;;
                   aset fn i (x * RtoC (2 * PI / IZR (2 * N - 1)))%C)
                fn) ;;
  flm <~ (if is_compact storage
          then _ <~ emit (Alloc buf_flm) ;; tret (malloc (L * L))
          else tret []) ;;
  st <~ lift (for_each (range (- N + 1) (N - 1))
                (forward_pass fn L N storage) (flmn, flm)) ;;
  _ <~ (if is_compact storage then emit (Free buf_flm) else tret tt) ;;
  _ <~ emit (Free buf_fn) ;;
  tret (fst st).

(** *** Facts about C buffers *)

Lemma at0_nth v i : 0 <= i -> at0 v i = nth (Z.to_nat i) v C0.
Proof.
  intros Hi; unfold at0, vat; f_equal; lia.
Qed.

Lemma aget_ok v i : 0 <= i < len v -> aget v i = Ok (at0 v i).
Proof.
  intros Hi; unfold aget, at0; apply vget_ok; unfold len in *; lia.
Qed.

Lemma aset_ok v i x :
  0 <= i < len v ->
  exists v', aset v i x = Ok v' /\ len v' = len v /\
    at0 v' i = x /\
    (forall q, 0 <= q -> q <> i -> at0 v' q = at0 v q).
Proof.
  intros Hi; unfold aset, at0, len in *.
  assert (Hin : 1 <= i + 1 <= Z.of_nat (length v)) by lia.
  rewrite (vset_ok _ _ Hin); eexists; split; [reflexivity|].
  split; [rewrite upd_length by lia; reflexivity|].
  split; [apply vat_upd_same; exact Hin|].
  intros q Hq Hne; apply vat_upd_other; [exact Hin|lia|lia].
Qed.

Lemma memcpy_ok dst doff src soff n :
  0 <= doff -> 0 <= soff -> 0 <= n ->
  doff + n <= len dst -> soff + n <= len src ->
  exists d', memcpy dst doff src soff n = Ok d' /\ len d' = len dst /\
    forall q, 0 <= q ->
      at0 d' q = if (doff <=? q) && (q <? doff + n)
                 then at0 src (soff + (q - doff)) else at0 dst q.
Proof.
  intros Hd Hs Hn Hdl Hsl; unfold memcpy.
  destruct (Z.leb_spec 0 doff); [|lia].
  destruct (Z.leb_spec 0 soff); [|lia].
  destruct (Z.leb_spec 0 n); [|lia].
  destruct (Z.leb_spec (doff + n) (len dst)); [|lia].
  destruct (Z.leb_spec (soff + n) (len src)); [|lia].
  cbn [andb]; eexists; split; [reflexivity|].
  unfold len in *.
  assert (L1 : length (firstn (Z.to_nat doff) dst) = Z.to_nat doff)
    by (apply firstn_length_le; lia).
  assert (L2 : length (firstn (Z.to_nat n) (skipn (Z.to_nat soff) src))
               = Z.to_nat n)
    by (apply firstn_length_le; rewrite length_skipn; lia).
  split.
  - rewrite !length_app, L1, L2, length_skipn; lia.
  - intros q Hq; rewrite (at0_nth _ Hq).
    destruct (Z.leb_spec doff q) as [Hge|Hlt]; cbn [andb].
    + rewrite app_nth2 by lia; rewrite L1.
      destruct (Z.ltb_spec q (doff + n)) as [Hin|Hout].
      * rewrite app_nth1 by lia.
        rewrite nth_firstn.
        destruct (Nat.ltb_spec (Z.to_nat q - Z.to_nat doff) (Z.to_nat n));
          [|lia].
        rewrite nth_skipn, ?at0_nth by lia; f_equal; lia.
      * rewrite app_nth2 by lia.
        rewrite L2, nth_skipn, ?at0_nth by lia; f_equal; lia.
    + rewrite app_nth1 by lia.
      rewrite nth_firstn.
      destruct (Nat.ltb_spec (Z.to_nat q) (Z.to_nat doff)); [|lia].
      rewrite (at0_nth _ Hq); reflexivity.
Qed.

Lemma window_ok v off n :
  0 <= off -> 0 <= n -> off + n <= len v ->
  window v off n = Ok (firstn (Z.to_nat n) (skipn (Z.to_nat off) v)).
Proof.
  intros Ho Hn Hl; unfold window.
  destruct (Z.leb_spec 0 off); [|lia].
  destruct (Z.leb_spec 0 n); [|lia].
  destruct (Z.leb_spec (off + n) (len v)); [|lia].
  reflexivity.
Qed.

(** Two buffers with the same entries are the same buffer. *)
Lemma at0_ext u v :
  len u = len v -> (forall q, 0 <= q < len u -> at0 u q = at0 v q) -> u = v.
Proof.
  unfold len; intros Hl H.
  apply (nth_ext u v C0 C0); [lia|].
  intros k Hk; specialize (H (Z.of_nat k)).
  rewrite !at0_nth, Nat2Z.id in H by lia; apply H; lia.
Qed.

(** The rescaling loop multiplies the coefficient of degree [l] and order
    [m], kept at [base + l*l+l+m - el0*el0], by [factor l], for every
    [l] from [el0] on, and leaves the rest of the buffer alone. *)
Lemma scale_by_degree_ok base el0 L factor buf :
  0 <= el0 <= L -> 0 <= base ->
  base + (L * L - el0 * el0) <= len buf ->
  exists buf',
    scale_by_degree base el0 L factor buf = Ok buf' /\
    len buf' = len buf /\
    (forall l m, el0 <= l < L -> - l <= m <= l ->
       at0 buf' (base + (l * l + l + m - el0 * el0))
       = (at0 buf (base + (l * l + l + m - el0 * el0))
          * RtoC (factor l))%C) /\
    (forall q, 0 <= q -> q < base \/ base + (L * L - el0 * el0) <= q ->
       at0 buf' q = at0 buf q).
Proof.
  intros Hel Hbase Hlen; unfold scale_by_degree.
  inner_loop (fun el st =>
      sc_i st = el * el - el0 * el0 /\
      sc_offset st = el * el - el0 * el0 /\
      len (sc_buf st) = len buf /\
      (forall l m, el0 <= l < el -> - l <= m <= l ->
         at0 (sc_buf st) (base + (l * l + l + m - el0 * el0))
         = (at0 buf (base + (l * l + l + m - el0 * el0))
            * RtoC (factor l))%C) /\
      (forall q, 0 <= q -> q < base \/ base + (el * el - el0 * el0) <= q ->
         at0 (sc_buf st) q = at0 buf q))
    as (st & Hrun & Hi & Ho & Hl & Hdone & Hrest).
  - lia.
  - cbn [sc_i sc_offset sc_buf]; repeat split; try lia; intros; lia.
  - intros el st0 Hel0 (Hi0 & Ho0 & Hl0 & Hdone0 & Hrest0).
    rewrite Hi0, Ho0.
    inner_loop (fun i b =>
        len b = len buf /\
        (forall l m, el0 <= l < el -> - l <= m <= l ->
           at0 b (base + (l * l + l + m - el0 * el0))
           = (at0 buf (base + (l * l + l + m - el0 * el0))
              * RtoC (factor l))%C) /\
        (forall j, el * el - el0 * el0 <= j < i ->
           at0 b (base + j) = (at0 buf (base + j) * RtoC (factor el))%C) /\
        (forall q, 0 <= q -> q < base \/ base + i <= q ->
           at0 b q = at0 buf q))
      as (b1 & Hrun & Hl1 & Hdone1 & Hnew1 & Hrest1).
    + lia.
    + split; [exact Hl0|]; split; [exact Hdone0|].
      split; [intros; lia|exact Hrest0].
    + intros i bA Hi (HlA & HdoneA & HnewA & HrestA).
      assert (Hin : 0 <= base + i < len bA) by nia.
      rewrite (aget_ok _ Hin); cbn [bind].
      destruct (@aset_ok bA (base + i)
                  (at0 bA (base + i) * RtoC (factor el))%C Hin)
        as (bB & Hset & HlB & Hsame & Hoth).
      exists bB; split; [exact Hset|].
      split; [lia|]; split; [|split].
      * intros l m Hl Hm; rewrite Hoth by nia; auto.
      * intros j Hj; destruct (Z.eq_dec j i) as [->|Hne].
        -- rewrite Hsame, HrestA by nia; reflexivity.
        -- rewrite Hoth by nia; apply HnewA; lia.
      * intros q Hq Hout; rewrite Hoth by nia; apply HrestA; lia.
    + rewrite Hrun; cbn [bind]; eexists; split; [reflexivity|].
      cbn [sc_i sc_offset sc_buf].
      split; [lia|]; split; [lia|]; split; [exact Hl1|]; split.
      * intros l m Hl Hm; destruct (Z.eq_dec l el) as [->|Hne].
        -- apply Hnew1; lia.
        -- apply Hdone1; lia.
      * intros q Hq Hout; apply Hrest1; lia.
  - rewrite Hrun; cbn [bind]; eexists; split; [reflexivity|].
    split; [exact Hl|]; split.
    + intros l m Hlm Hm; apply Hdone; lia.
    + intros q Hq Hout; apply Hrest; [lia|].
      replace ((L - 1 + 1) * (L - 1 + 1)) with (L * L) by ring; exact Hout.
Qed.

(** *** The inverse transform, slice by slice *)

Definition supported (storage : so3_storage_t) : bool :=
  match storage with
  | SO3_STORE_OTHER _ => false
  | _ => true
  end.

(** Where the coefficients of slice [n] start in [flmn], and the first
    position of the length-[L*L] slice that is stored there: [0] for the
    padded layouts, [n*n] for the compact ones. *)
Definition slice_start (L N : Z) (storage : so3_storage_t) (n : Z) : Z :=
  if is_compact storage
  then so3_sampling_elmn2ind (Z.abs n) (- Z.abs n) n L N storage
  else so3_sampling_elmn2ind 0 0 n L N storage.

Definition slice_first (storage : so3_storage_t) (n : Z) : Z :=
  if is_compact storage then n * n else 0.

(** The stored part of every slice lies inside [flmn]. *)
Definition slices_in_range (L N : Z) (storage : so3_storage_t)
           (size : Z) : Prop :=
  forall n, - N + 1 <= n <= N - 1 ->
    0 <= slice_start L N storage n /\
    slice_first storage n <= L * L /\
    slice_start L N storage n + (L * L - slice_first storage n) <= size.

(** Entry [q] of the slice once it is loaded: zero below [slice_first],
    the stored coefficient from there on. *)
Definition loaded_entry (flmn : list C) (L N : Z) (storage : so3_storage_t)
           (n q : Z) : C :=
  if q <? slice_first storage n then C0
  else at0 flmn (slice_start L N storage n + (q - slice_first storage n)).

Lemma load_padded_ok flm flmn L ind :
  len flm = L * L -> 0 <= ind -> ind + L * L <= len flmn ->
  exists flm',
    memcpy flm 0 flmn ind (L * L) = Ok flm' /\
    len flm' = L * L /\
    forall q, 0 <= q < L * L -> at0 flm' q = at0 flmn (ind + (q - 0)).
Proof.
  intros Hlen H0 H2.
  destruct (@memcpy_ok flm 0 flmn ind (L * L))
    as (d & Hc & Hl & Hat); [lia|lia|nia|lia|lia| ].
  exists d; split; [exact Hc|]; split; [lia|].
  intros q Hq; rewrite Hat by lia.
  destruct (Z.leb_spec 0 q); [|lia].
  destruct (Z.ltb_spec q (0 + L * L)); [|lia].
  reflexivity.
Qed.

Lemma load_compact_ok flm flmn L n ind :
  len flm = L * L -> 0 <= ind -> n * n <= L * L ->
  ind + (L * L - n * n) <= len flmn ->
  exists flm',
    (flm <- memcpy flm (n * n) flmn ind (L * L - n * n) ;;
     for_each (range 0 (n * n - 1)) (fun i flm => aset flm i C0) flm)
    = Ok flm' /\
    len flm' = L * L /\
    forall q, 0 <= q < L * L ->
      at0 flm' q = if q <? n * n then C0 else at0 flmn (ind + (q - n * n)).
Proof.
  intros Hlen H0 H1 H2.
  destruct (@memcpy_ok flm (n * n) flmn ind (L * L - n * n))
    as (d & Hc & Hl & Hat); [nia|lia|lia|lia|lia| ].
  rewrite Hc; cbn [bind].
  loop_inv (fun i b =>
      len b = L * L /\
      (forall q, 0 <= q < i -> at0 b q = C0) /\
      (forall q, i <= q -> at0 b q = at0 d q))
    as (b & Hrun & Hlb & Hz & Hrest).
  - nia.
  - split; [lia|]; split; [intros; lia|reflexivity].
  - intros i bA Hi (HlA & HzA & HrA).
    destruct (@aset_ok bA i C0) as (bB & Hs & HlB & Hsame & Hoth); [nia|].
    exists bB; split; [exact Hs|]; split; [lia|]; split.
    + intros q Hq; destruct (Z.eq_dec q i) as [->|Hne].
      * exact Hsame.
      * rewrite Hoth by lia; apply HzA; lia.
    + intros q Hq; rewrite Hoth by lia; apply HrA; lia.
  - exists b; split; [exact Hrun|]; split; [exact Hlb|].
    intros q Hq.
    destruct (Z.ltb_spec q (n * n)) as [Hlt|Hge].
    + apply Hz; lia.
    + rewrite Hrest, Hat by lia.
      destruct (Z.leb_spec (n * n) q); [|lia].
      destruct (Z.ltb_spec q (n * n + (L * L - n * n))); [|lia].
      reflexivity.
Qed.

Lemma load_slice_ok flm flmn L N n storage :
  supported storage = true -> len flm = L * L ->
  0 <= slice_start L N storage n ->
  slice_first storage n <= L * L ->
  slice_start L N storage n + (L * L - slice_first storage n) <= len flmn ->
  exists flm',
    load_slice flm flmn L N n storage = Ok flm' /\
    len flm' = L * L /\
    forall q, 0 <= q < L * L ->
      at0 flm' q = loaded_entry flmn L N storage n q.
Proof.
  intros Hsup Hlen H0 H1 H2.
  unfold loaded_entry, slice_start, slice_first in *.
  destruct storage; try discriminate Hsup; cbn [is_compact load_slice] in *.
  - destruct (@load_padded_ok flm flmn L _ Hlen H0) as (d & Hc & Hl & Hat);
      [lia|].
    exists d; split; [exact Hc|]; split; [exact Hl|].
    intros q Hq; rewrite Hat by lia.
    destruct (Z.ltb_spec q 0); [lia|reflexivity].
  - destruct (@load_padded_ok flm flmn L _ Hlen H0) as (d & Hc & Hl & Hat);
      [lia|].
    exists d; split; [exact Hc|]; split; [exact Hl|].
    intros q Hq; rewrite Hat by lia.
    destruct (Z.ltb_spec q 0); [lia|reflexivity].
  - apply load_compact_ok; assumption.
  - apply load_compact_ok; assumption.
Qed.

Lemma len_map_range {A} (F : Z -> A) b :
  -1 <= b -> len (map F (range 0 b)) = b + 1.
Proof.
  intros Hb; unfold len; rewrite length_map, range_length; lia.
Qed.

Lemma at0_map_range (F : Z -> C) b q :
  0 <= q <= b -> at0 (map F (range 0 b)) q = F q.
Proof.
  intros Hq; rewrite at0_nth by lia.
  assert (Hk : (Z.to_nat q < length (range 0 b))%nat)
    by (rewrite range_length; lia).
  rewrite (nth_indep _ C0 (F 0)) by (rewrite length_map; exact Hk).
  rewrite map_nth, range_nth by exact Hk.
  f_equal; lia.
Qed.

Lemma at0_map_opp v i :
  0 <= i < len v -> at0 (map Copp v) i = (- at0 v i)%C.
Proof.
  intros Hi; rewrite !at0_nth by lia.
  rewrite (nth_indep _ C0 (Copp C0))
    by (rewrite length_map; unfold len in Hi; lia).
  apply map_nth.
Qed.

(** The degree of the coefficient kept at index [l*l+l+m]. *)
Lemma degree_of_index l m :
  0 <= l -> - l <= m <= l -> Z.sqrt (l * l + l + m) = l.
Proof.
  intros Hl Hm; apply Z.sqrt_unique; nia.
Qed.

Lemma index_of_degree q :
  0 <= q ->
  exists l m, 0 <= l /\ - l <= m <= l /\ q = l * l + l + m /\ l = Z.sqrt q.
Proof.
  intros Hq; pose proof (Z.sqrt_spec q Hq) as Hs.
  pose proof (Z.sqrt_nonneg q) as Hn.
  cbv zeta in Hs; unfold Z.succ in Hs.
  exists (Z.sqrt q), (q - Z.sqrt q * Z.sqrt q - Z.sqrt q).
  generalize dependent (Z.sqrt q); intros r Hs Hn.
  repeat split; lia.
Qed.

(** The coefficients handed to the inverse engine for slice [n]: every
    loaded entry times the factor of its degree. *)
Definition scaled_slice (flmn : list C) (L N : Z) (storage : so3_storage_t)
           (n : Z) : list C :=
  map (fun q => (loaded_entry flmn L N storage n q
                 * RtoC (inverse_factor (Z.sqrt q)))%C)
      (range 0 (L * L - 1)).

(** The samples of slice [n]: the engine called with pole order [-n], the
    values negated when [n] is odd. *)
Definition slice_samples (flmn : list C) (L N : Z) (storage : so3_storage_t)
           (n : Z) : list C :=
  let s := ssht_core_mw_inverse_sov_sym
             (scaled_slice flmn L N storage n) L (- n) SSHT_DL_TRAPANI in
  if is_odd n then map Copp s else s.

Definition inverse_engine_sized (L : Z) : Prop :=
  forall flm spin method,
    len (ssht_core_mw_inverse_sov_sym flm L spin method) = L * (2 * L - 1).

Lemma orientation_index_range N n :
  - N + 1 <= n <= N - 1 -> 0 <= orientation_index N n <= 2 * N - 2.
Proof.
  intros Hn; unfold orientation_index.
  destruct (Z.ltb_spec n 0); lia.
Qed.

Lemma orientation_index_inj N n n' :
  - N + 1 <= n <= N - 1 -> - N + 1 <= n' <= N - 1 ->
  orientation_index N n = orientation_index N n' -> n = n'.
Proof.
  unfold orientation_index; intros Hn Hn'.
  destruct (Z.ltb_spec n 0), (Z.ltb_spec n' 0); lia.
Qed.

Lemma inverse_pass_ok flmn L N storage n fn flm :
  supported storage = true -> 1 <= L -> - N + 1 <= n <= N - 1 ->
  inverse_engine_sized L ->
  slices_in_range L N storage (len flmn) ->
  len fn = (2 * N - 1) * (L * (2 * L - 1)) -> len flm = L * L ->
  exists fn' flm',
    inverse_pass flmn L N storage n (fn, flm) = Ok (fn', flm') /\
    len fn' = len fn /\ len flm' = L * L /\
    (forall i, 0 <= i < L * (2 * L - 1) ->
       at0 fn' (orientation_index N n * (L * (2 * L - 1)) + i)
       = at0 (slice_samples flmn L N storage n) i) /\
    (forall q, 0 <= q ->
       q < orientation_index N n * (L * (2 * L - 1)) \/
       orientation_index N n * (L * (2 * L - 1)) + L * (2 * L - 1) <= q ->
       at0 fn' q = at0 fn q).
Proof.
  intros Hsup HL Hn Heng Hrange Hfn Hflm.
  destruct (Hrange n Hn) as (R0 & R1 & R2).
  pose proof (@orientation_index_range N n Hn) as Ho.
  set (o := orientation_index N n) in *.
  set (stride := L * (2 * L - 1)) in *.
  assert (Hst : 0 < stride) by (unfold stride; nia).
  unfold inverse_pass; cbn zeta.
  destruct (@load_slice_ok flm flmn L N n storage Hsup Hflm R0 R1 R2)
    as (flm1 & Hload & Hl1 & Hat1).
  rewrite Hload; cbn [bind].
  destruct (@scale_by_degree_ok 0 0 L inverse_factor flm1)
    as (flm2 & Hsc & Hl2 & Hat2 & _); [lia|lia|lia|].
  rewrite Hsc; cbn [bind].
  assert (E : flm2 = scaled_slice flmn L N storage n).
  { apply at0_ext.
    - unfold scaled_slice; rewrite len_map_range by nia; lia.
    - intros q Hq; unfold scaled_slice.
      rewrite at0_map_range by lia.
      destruct (@index_of_degree q) as (l & m & Hl & Hm & -> & Hs); [lia|].
      rewrite <- Hs.
      specialize (Hat2 l m).
      replace (0 + (l * l + l + m - 0 * 0)) with (l * l + l + m) in Hat2
        by ring.
      rewrite Hat2 by nia.
      rewrite Hat1 by nia; reflexivity. }
  rewrite E.
  set (s := ssht_core_mw_inverse_sov_sym (scaled_slice flmn L N storage n)
              L (- n) SSHT_DL_TRAPANI).
  assert (Hs : len s = stride) by apply Heng.
  fold o stride.
  destruct (@memcpy_ok fn (o * stride) s 0 stride)
    as (fn1 & Hcp & Hlf1 & Hatf1); [nia|lia|lia|nia|lia|].
  rewrite Hcp; cbn [bind].
  assert (Hblock : forall i, 0 <= i < stride ->
                             at0 fn1 (o * stride + i) = at0 s i).
  { intros i Hi; rewrite Hatf1 by nia.
    destruct (Z.leb_spec (o * stride) (o * stride + i)); [|lia].
    destruct (Z.ltb_spec (o * stride + i) (o * stride + stride)); [|lia].
    cbn [andb]; f_equal; lia. }
  assert (Hout : forall q, 0 <= q ->
             q < o * stride \/ o * stride + stride <= q ->
             at0 fn1 q = at0 fn q).
  { intros q Hq Hor; rewrite Hatf1 by lia.
    destruct (Z.leb_spec (o * stride) q);
      destruct (Z.ltb_spec q (o * stride + stride)); try reflexivity; lia. }
  unfold slice_samples; fold s.
  destruct (is_odd n).
  - inner_loop (fun i b =>
        len b = len fn /\
        (forall k, 0 <= k < i ->
           at0 b (o * stride + k) = (- at0 s k)%C) /\
        (forall k, i <= k < stride ->
           at0 b (o * stride + k) = at0 s k) /\
        (forall q, 0 <= q ->
           q < o * stride \/ o * stride + stride <= q ->
           at0 b q = at0 fn q))
      as (fn2 & Hrun & Hl & Hneg & _ & Hrest).
    + lia.
    + split; [lia|]; split; [intros; lia|].
      split; [intros; apply Hblock; lia|exact Hout].
    + intros i bA Hi (HlA & HnegA & HposA & HrestA).
      assert (Hin : 0 <= o * stride + i < len bA) by nia.
      rewrite (aget_ok _ Hin); cbn [bind].
      destruct (@aset_ok bA (o * stride + i)
                  (- at0 bA (o * stride + i))%C Hin)
        as (bB & Hset & HlB & Hsame & Hoth).
      exists bB; split; [exact Hset|]; split; [lia|]; split; [|split].
      * intros k Hk; destruct (Z.eq_dec k i) as [->|Hne].
        -- rewrite Hsame, HposA by lia; reflexivity.
        -- rewrite Hoth by nia; apply HnegA; lia.
      * intros k Hk; rewrite Hoth by nia; apply HposA; lia.
      * intros q Hq Hor; rewrite Hoth by nia; apply HrestA; assumption.
    + rewrite Hrun; cbn [bind].
      exists fn2, (scaled_slice flmn L N storage n).
      split; [reflexivity|]; split; [exact Hl|].
      split; [unfold scaled_slice; rewrite len_map_range by nia; lia|].
      split; [|exact Hrest].
      intros i Hi; rewrite at0_map_opp by lia; apply Hneg; lia.
  - cbn [bind].
    exists fn1, (scaled_slice flmn L N storage n).
    split; [reflexivity|]; split; [exact Hlf1|].
    split; [unfold scaled_slice; rewrite len_map_range by nia; lia|].
    split; [exact Hblock|exact Hout].
Qed.

Definition malloc_sized : Prop := forall n, 0 <= n -> len (malloc n) = n.

Lemma at0_window v off n i :
  0 <= off -> 0 <= i < n -> off + n <= len v ->
  at0 (firstn (Z.to_nat n) (skipn (Z.to_nat off) v)) i = at0 v (off + i).
Proof.
  intros Ho Hi Hl; rewrite !at0_nth by lia.
  rewrite nth_firstn.
  destruct (Nat.ltb_spec (Z.to_nat i) (Z.to_nat n)); [|lia].
  rewrite nth_skipn; f_equal; lia.
Qed.

Lemma len_window (v : list C) off n :
  0 <= off -> 0 <= n -> off + n <= len v ->
  len (firstn (Z.to_nat n) (skipn (Z.to_nat off) v)) = n.
Proof.
  intros Ho Hn Hl; unfold len in *.
  rewrite firstn_length_le; [lia|rewrite length_skipn; lia].
Qed.

Lemma slice_samples_len flmn L N storage n :
  inverse_engine_sized L ->
  len (slice_samples flmn L N storage n) = L * (2 * L - 1).
Proof.
  intros Heng; unfold slice_samples; cbv zeta.
  destruct (is_odd n); [|apply Heng].
  unfold len; rewrite length_map; apply Heng.
Qed.

(** The loop over [n] of the inverse fills [fn] slice by slice. *)
Lemma inverse_loop_ok flmn L N storage fn0 flm0 :
  supported storage = true -> 1 <= L -> 1 <= N ->
  inverse_engine_sized L ->
  slices_in_range L N storage (len flmn) ->
  len fn0 = (2 * N - 1) * (L * (2 * L - 1)) -> len flm0 = L * L ->
  exists st,
    for_each (range (- N + 1) (N - 1)) (inverse_pass flmn L N storage)
             (fn0, flm0) = Ok st /\
    len (fst st) = (2 * N - 1) * (L * (2 * L - 1)) /\
    forall n, - N + 1 <= n <= N - 1 ->
      window (fst st) (orientation_index N n * (L * (2 * L - 1)))
             (L * (2 * L - 1))
      = Ok (slice_samples flmn L N storage n).
Proof.
  intros Hsup HL HN Heng Hrange Hfn Hflm.
  set (stride := L * (2 * L - 1)) in *.
  assert (Hst : 0 < stride) by (unfold stride; nia).
  loop_inv (fun n' (st : list C * list C) =>
      len (fst st) = (2 * N - 1) * stride /\ len (snd st) = L * L /\
      forall n i, - N + 1 <= n < n' -> 0 <= i < stride ->
        at0 (fst st) (orientation_index N n * stride + i)
        = at0 (slice_samples flmn L N storage n) i)
    as (st & Hrun & Hl1 & Hl2 & Hall).
  - lia.
  - cbn [fst snd]; split; [exact Hfn|]; split; [exact Hflm|intros; lia].
  - intros n [fnA flmA] Hn (HlA & HlB & HallA); cbn [fst snd] in *.
    destruct (@inverse_pass_ok flmn L N storage n fnA flmA
                Hsup HL Hn Heng Hrange HlA HlB)
      as (fnB & flmB & Hpass & Hl & Hlf & Hblock & Hout).
    exists (fnB, flmB); split; [exact Hpass|]; cbn [fst snd].
    fold stride in Hblock, Hout, Hl |- *.
    split; [lia|]; split; [exact Hlf|].
    intros k i Hk Hi.
    destruct (Z.eq_dec k n) as [->|Hne]; [apply Hblock; exact Hi|].
    pose proof (@orientation_index_range N k) as Hok.
    pose proof (@orientation_index_range N n) as Hon.
    assert (Hd : orientation_index N k <> orientation_index N n)
      by (intros E; apply orientation_index_inj in E; lia).
    rewrite Hout; [apply HallA; lia|nia|nia].
  - exists st; split; [exact Hrun|]; split; [exact Hl1|].
    intros n Hn.
    pose proof (@orientation_index_range N n Hn) as Ho.
    rewrite window_ok by nia; f_equal.
    apply at0_ext.
    + rewrite len_window, slice_samples_len by (assumption || nia).
      reflexivity.
    + rewrite len_window by nia; intros q Hq.
      rewrite at0_window by nia; apply Hall; lia.
Qed.

Lemma fftw_execute_ok sign n howmany input output :
  n * howmany <= len input -> n * howmany <= len output ->
  fftw_execute sign n howmany input output
  = Ok (map (dft_value sign n howmany input) (range 0 (n * howmany - 1))
        ++ skipn (Z.to_nat (n * howmany)) output).
Proof.
  intros Hi Ho; unfold fftw_execute.
  destruct (Z.leb_spec (n * howmany) (len input)); [|lia].
  destruct (Z.leb_spec (n * howmany) (len output)); [|lia].
  reflexivity.
Qed.

(** The whole inverse: its trace, the slices of [fn], and the result. *)
Lemma so3_inverse_ok f flmn L N storage :
  supported storage = true -> 1 <= L -> 1 <= N ->
  inverse_engine_sized L -> malloc_sized ->
  slices_in_range L N storage (len flmn) ->
  (2 * N - 1) * (L * (2 * L - 1)) <= len f ->
  exists fn,
    len fn = (2 * N - 1) * (L * (2 * L - 1)) /\
    (forall n, - N + 1 <= n <= N - 1 ->
       window fn (orientation_index N n * (L * (2 * L - 1)))
              (L * (2 * L - 1))
       = Ok (slice_samples flmn L N storage n)) /\
    run (so3_core_mw_inverse_via_ssht f flmn L N storage)
    = ([Alloc buf_fn; Alloc buf_flm; Free buf_flm; Free buf_fn],
       Ok (map (dft_value FFTW_BACKWARD (2 * N - 1) (L * (2 * L - 1)) fn)
               (range 0 ((2 * N - 1) * (L * (2 * L - 1)) - 1))
           ++ skipn (Z.to_nat ((2 * N - 1) * (L * (2 * L - 1)))) f)).
Proof.
  intros Hsup HL HN Heng Hmal Hrange Hf.
  destruct (@inverse_loop_ok flmn L N storage
              (malloc ((2 * N - 1) * (L * (2 * L - 1)))) (calloc (L * L))
              Hsup HL HN Heng Hrange)
    as (st & Hrun & Hlen & Hwin).
  - apply Hmal; nia.
  - unfold calloc, len; rewrite repeat_length; nia.
  - exists (fst st); split; [exact Hlen|]; split; [exact Hwin|].
    unfold run, so3_core_mw_inverse_via_ssht; cbv zeta.
    cbn [tbind emit lift tret app]; rewrite Hrun.
    rewrite fftw_execute_ok by lia.
    reflexivity.
Qed.

(** *** The forward transform, slice by slice *)

(** The samples after the Fourier analysis along the orientation and the
    multiplication by [2*pi/(2N-1)]. *)
Definition analysed (f : list C) (L N : Z) : list C :=
  map (fun q => (dft_value FFTW_FORWARD (2 * N - 1) (L * (2 * L - 1)) f q
                 * RtoC (2 * PI / IZR (2 * N - 1)))%C)
      (range 0 ((2 * N - 1) * (L * (2 * L - 1)) - 1)).

(** The coefficients the forward engine returns for slice [n]. *)
Definition raw_coeffs (f : list C) (L N n : Z) : list C :=
  ssht_core_mw_forward_sov_conv_sym
    (firstn (Z.to_nat (L * (2 * L - 1)))
            (skipn (Z.to_nat (orientation_index N n * (L * (2 * L - 1))))
                   (analysed f L N)))
    L (- n) SSHT_DL_TRAPANI.

Definition forward_engine_sized (L : Z) : Prop :=
  forall f spin method,
    len (ssht_core_mw_forward_sov_conv_sym f L spin method) = L * L.

(** [sign]: [-1] for odd [n], [1] for even [n]. *)
Definition sign_of (n : Z) : Z := if is_odd n then -1 else 1.

(** The lowest degree stored for slice [n]. *)
Definition first_degree (storage : so3_storage_t) (n : Z) : Z :=
  if is_compact storage then Z.abs n else 0.

Lemma slice_first_degree storage n :
  slice_first storage n = first_degree storage n * first_degree storage n.
Proof.
  unfold slice_first, first_degree; destruct (is_compact storage); lia.
Qed.

Lemma dft_value_ext sign n howmany u v q :
  0 < howmany -> 0 <= q ->
  (forall k, 0 <= k < n * howmany -> at0 u k = at0 v k) ->
  dft_value sign n howmany u q = dft_value sign n howmany v q.
Proof.
  intros Hh Hq H; unfold dft_value; apply Csum_ext.
  intros j Hj; apply range_In in Hj.
  pose proof (Z.mod_pos_bound q howmany Hh).
  rewrite H by nia; reflexivity.
Qed.

(** What the forward transform has in [fn] when it enters the loop over
    [n]. *)
Definition forward_prepare (f : list C) (L N : Z) : result (list C) :=
  let fn_n_stride := L * (2 * L - 1) in
  ftemp <- memcpy (malloc ((2 * N - 1) * fn_n_stride)) 0 f 0
             ((2 * N - 1) * fn_n_stride) ;;
  fn <- fftw_execute FFTW_FORWARD (2 * N - 1) fn_n_stride ftemp
          (malloc ((2 * N - 1) * fn_n_stride)) ;;
  for_each (range 0 ((2 * N - 1) * fn_n_stride - 1))
    (fun i fn =>
       x <- aget fn i ;;
       aset fn i (x * RtoC (2 * PI / IZR (2 * N - 1)))%C)
    fn.

Lemma forward_prepare_ok f L N :
  1 <= L -> 1 <= N -> malloc_sized ->
  (2 * N - 1) * (L * (2 * L - 1)) <= len f ->
  forward_prepare f L N = Ok (analysed f L N).
Proof.
  intros HL HN Hmal Hf; unfold forward_prepare; cbv zeta.
  set (stride := L * (2 * L - 1)) in *.
  assert (Hst : 0 < stride) by (unfold stride; nia).
  set (total := (2 * N - 1) * stride) in *.
  assert (Htot : 0 < total) by (unfold total; nia).
  assert (Hm : len (malloc total) = total) by (apply Hmal; lia).
  destruct (@memcpy_ok (malloc total) 0 f 0 total)
    as (ftemp & Hcp & Hlt & Hat); [lia|lia|lia|lia|lia|].
  rewrite Hcp; cbn [bind].
  rewrite fftw_execute_ok by (fold total; lia).
  cbn [bind]; fold total.
  rewrite skipn_all2 by (unfold len in Hm; lia).
  rewrite app_nil_r.
  set (fn0 := map (dft_value FFTW_FORWARD (2 * N - 1) stride ftemp)
                  (range 0 (total - 1))).
  assert (Hl0 : len fn0 = total)
    by (unfold fn0; rewrite len_map_range; lia).
  inner_loop (fun i b =>
      len b = total /\
      (forall q, 0 <= q < i ->
         at0 b q = (at0 fn0 q * RtoC (2 * PI / IZR (2 * N - 1)))%C) /\
      (forall q, i <= q -> at0 b q = at0 fn0 q))
    as (fn1 & Hrun & Hl1 & Hdone & _).
  - lia.
  - split; [exact Hl0|]; split; [intros; lia|reflexivity].
  - intros i bA Hi (HlA & HdA & HrA).
    assert (Hin : 0 <= i < len bA) by lia.
    rewrite (aget_ok _ Hin); cbn [bind].
    destruct (@aset_ok bA i (at0 bA i * RtoC (2 * PI / IZR (2 * N - 1)))%C
                Hin) as (bB & Hset & HlB & Hsame & Hoth).
    exists bB; split; [exact Hset|]; split; [lia|]; split.
    + intros q Hq; destruct (Z.eq_dec q i) as [->|Hne].
      * rewrite Hsame, HrA by lia; reflexivity.
      * rewrite Hoth by lia; apply HdA; lia.
    + intros q Hq; rewrite Hoth by lia; apply HrA; lia.
  - rewrite Hrun; f_equal; apply at0_ext.
    + unfold analysed; fold stride total.
      rewrite len_map_range by lia; lia.
    + rewrite Hl1; intros q Hq.
      rewrite Hdone by lia.
      unfold analysed, fn0; fold stride total.
      rewrite !at0_map_range by lia.
      f_equal; apply dft_value_ext; [exact Hst|lia|].
      fold total; intros k Hk; rewrite Hat by lia.
      destruct (Z.leb_spec 0 k); [|lia].
      destruct (Z.ltb_spec k (0 + total)); [|lia].
      cbn [andb]; f_equal; lia.
Qed.

Lemma forward_padded_ok fn flmn (flm : list C) L N n ind sign :
  1 <= L -> - N + 1 <= n <= N - 1 -> forward_engine_sized L ->
  len fn = (2 * N - 1) * (L * (2 * L - 1)) ->
  0 <= ind -> ind + L * L <= len flmn ->
  exists flmn',
    (slice <- window fn (orientation_index N n * (L * (2 * L - 1)))
                (L * (2 * L - 1)) ;;
     flmn <- memcpy flmn ind
               (ssht_core_mw_forward_sov_conv_sym slice L (- n)
                  SSHT_DL_TRAPANI)
               0 (L * L) ;;
     flmn <- scale_by_degree ind 0 L (forward_factor sign) flmn ;;
     Ok (flmn, flm)) = Ok (flmn', flm) /\
    len flmn' = len flmn /\
    (forall l m, 0 <= l < L -> - l <= m <= l ->
       at0 flmn' (ind + (l * l + l + m - 0))
       = (at0 (ssht_core_mw_forward_sov_conv_sym
                 (firstn (Z.to_nat (L * (2 * L - 1)))
                    (skipn (Z.to_nat (orientation_index N n
                                      * (L * (2 * L - 1)))) fn))
                 L (- n) SSHT_DL_TRAPANI) (l * l + l + m)
          * RtoC (forward_factor sign l))%C) /\
    (forall q, 0 <= q -> q < ind \/ ind + (L * L - 0) <= q ->
       at0 flmn' q = at0 flmn q).
Proof.
  intros HL Hn Heng Hfn H0 H2.
  pose proof (@orientation_index_range N n Hn) as Ho.
  set (o := orientation_index N n) in *.
  set (stride := L * (2 * L - 1)) in *.
  assert (Hst : 0 < stride) by (unfold stride; nia).
  rewrite window_ok by nia; cbn [bind].
  set (out := ssht_core_mw_forward_sov_conv_sym _ L (- n) SSHT_DL_TRAPANI).
  assert (Hout : len out = L * L) by apply Heng.
  destruct (@memcpy_ok flmn ind out 0 (L * L))
    as (d & Hcp & Hld & Hat); [lia|lia|nia|lia|lia|].
  rewrite Hcp; cbn [bind].
  destruct (@scale_by_degree_ok ind 0 L (forward_factor sign) d)
    as (d2 & Hsc & Hl2 & Hat2 & Hrest2); [lia|lia|lia|].
  rewrite Hsc; cbn [bind].
  exists d2; split; [reflexivity|]; split; [lia|]; split.
  - intros l m Hl Hm.
    replace (l * l + l + m - 0) with (l * l + l + m - 0 * 0) by ring.
    rewrite Hat2 by lia; rewrite Hat by nia.
    destruct (Z.leb_spec ind (ind + (l * l + l + m - 0 * 0))); [|nia].
    destruct (Z.ltb_spec (ind + (l * l + l + m - 0 * 0)) (ind + L * L));
      [|nia].
    cbn [andb]; do 2 f_equal; lia.
  - intros q Hq Hor.
    rewrite Hrest2 by lia; rewrite Hat by lia.
    destruct (Z.leb_spec ind q);
      destruct (Z.ltb_spec q (ind + L * L)); try reflexivity; lia.
Qed.

Lemma forward_compact_ok fn flmn flm L N n ind sign :
  1 <= L -> - N + 1 <= n <= N - 1 -> forward_engine_sized L ->
  len fn = (2 * N - 1) * (L * (2 * L - 1)) -> len flm = L * L ->
  0 <= ind -> n * n <= L * L -> ind + (L * L - n * n) <= len flmn ->
  exists flmn' flm',
    (slice <- window fn (orientation_index N n * (L * (2 * L - 1)))
                (L * (2 * L - 1)) ;;
     flm <- memcpy flm 0
              (ssht_core_mw_forward_sov_conv_sym slice L (- n)
                 SSHT_DL_TRAPANI)
              0 (L * L) ;;
     flmn <- memcpy flmn ind flm (n * n) (L * L - n * n) ;;
     flmn <- scale_by_degree ind (Z.abs n) L (forward_factor sign) flmn ;;
     Ok (flmn, flm)) = Ok (flmn', flm') /\
    len flmn' = len flmn /\ len flm' = L * L /\
    (forall l m, Z.abs n <= l < L -> - l <= m <= l ->
       at0 flmn' (ind + (l * l + l + m - n * n))
       = (at0 (ssht_core_mw_forward_sov_conv_sym
                 (firstn (Z.to_nat (L * (2 * L - 1)))
                    (skipn (Z.to_nat (orientation_index N n
                                      * (L * (2 * L - 1)))) fn))
                 L (- n) SSHT_DL_TRAPANI) (l * l + l + m)
          * RtoC (forward_factor sign l))%C) /\
    (forall q, 0 <= q -> q < ind \/ ind + (L * L - n * n) <= q ->
       at0 flmn' q = at0 flmn q).
Proof.
  intros HL Hn Heng Hfn Hflm H0 H1 H2.
  pose proof (@orientation_index_range N n Hn) as Ho.
  set (o := orientation_index N n) in *.
  set (stride := L * (2 * L - 1)) in *.
  assert (Hst : 0 < stride) by (unfold stride; nia).
  assert (Habs : Z.abs n * Z.abs n = n * n) by nia.
  assert (HabsL : 0 <= Z.abs n <= L) by nia.
  rewrite window_ok by nia; cbn [bind].
  set (out := ssht_core_mw_forward_sov_conv_sym _ L (- n) SSHT_DL_TRAPANI).
  assert (Hout : len out = L * L) by apply Heng.
  destruct (@memcpy_ok flm 0 out 0 (L * L))
    as (flm1 & Hcp1 & Hl1 & Hat1); [lia|lia|nia|lia|lia|].
  rewrite Hcp1; cbn [bind].
  destruct (@memcpy_ok flmn ind flm1 (n * n) (L * L - n * n))
    as (d & Hcp & Hld & Hat); [lia|nia|lia|lia|lia|].
  rewrite Hcp; cbn [bind].
  destruct (@scale_by_degree_ok ind (Z.abs n) L (forward_factor sign) d)
    as (d2 & Hsc & Hl2 & Hat2 & Hrest2); [lia|lia|rewrite Habs; lia|].
  rewrite Hsc; cbn [bind]; rewrite Habs in *.
  exists d2, flm1; split; [reflexivity|].
  split; [lia|]; split; [lia|]; split.
  - intros l m Hl Hm.
    rewrite Hat2 by lia; rewrite Hat by nia.
    destruct (Z.leb_spec ind (ind + (l * l + l + m - n * n))); [|nia].
    destruct (Z.ltb_spec (ind + (l * l + l + m - n * n))
                         (ind + (L * L - n * n))); [|nia].
    cbn [andb]; rewrite Hat1 by nia.
    destruct (Z.leb_spec 0 (n * n + (ind + (l * l + l + m - n * n) - ind)));
      [|nia].
    destruct (Z.ltb_spec (n * n + (ind + (l * l + l + m - n * n) - ind))
                         (0 + L * L)); [|nia].
    cbn [andb]; do 2 f_equal; lia.
  - intros q Hq Hor.
    rewrite Hrest2 by lia; rewrite Hat by lia.
    destruct (Z.leb_spec ind q);
      destruct (Z.ltb_spec q (ind + (L * L - n * n))); try reflexivity; lia.
Qed.

Lemma forward_pass_ok fn L N storage n flmn flm :
  supported storage = true -> 1 <= L -> - N + 1 <= n <= N - 1 ->
  forward_engine_sized L ->
  len fn = (2 * N - 1) * (L * (2 * L - 1)) ->
  (is_compact storage = true -> len flm = L * L) ->
  0 <= slice_start L N storage n ->
  slice_first storage n <= L * L ->
  slice_start L N storage n + (L * L - slice_first storage n) <= len flmn ->
  exists flmn' flm',
    forward_pass fn L N storage n (flmn, flm) = Ok (flmn', flm') /\
    len flmn' = len flmn /\
    (is_compact storage = true -> len flm' = L * L) /\
    (forall l m, first_degree storage n <= l < L -> - l <= m <= l ->
       at0 flmn' (slice_start L N storage n
                  + (l * l + l + m - slice_first storage n))
       = (at0 (ssht_core_mw_forward_sov_conv_sym
                 (firstn (Z.to_nat (L * (2 * L - 1)))
                    (skipn (Z.to_nat (orientation_index N n
                                      * (L * (2 * L - 1)))) fn))
                 L (- n) SSHT_DL_TRAPANI) (l * l + l + m)
          * RtoC (forward_factor (sign_of n) l))%C) /\
    (forall q, 0 <= q ->
       q < slice_start L N storage n \/
       slice_start L N storage n + (L * L - slice_first storage n) <= q ->
       at0 flmn' q = at0 flmn q).
Proof.
  intros Hsup HL Hn Heng Hfn Hflm H0 H1 H2.
  unfold slice_start, slice_first, first_degree, sign_of in *.
  destruct storage; try discriminate Hsup;
    cbn [is_compact] in *; unfold forward_pass; cbv zeta.
  - destruct (@forward_padded_ok fn flmn flm L N n _
                (if is_odd n then -1 else 1) HL Hn Heng Hfn H0)
      as (d & Hrun & Hl & Hat & Hrest); [lia|].
    exists d, flm; split; [exact Hrun|].
    split; [exact Hl|]; split; [discriminate|]; split; assumption.
  - destruct (@forward_padded_ok fn flmn flm L N n _
                (if is_odd n then -1 else 1) HL Hn Heng Hfn H0)
      as (d & Hrun & Hl & Hat & Hrest); [lia|].
    exists d, flm; split; [exact Hrun|].
    split; [exact Hl|]; split; [discriminate|]; split; assumption.
  - destruct (@forward_compact_ok fn flmn flm L N n _
                (if is_odd n then -1 else 1) HL Hn Heng Hfn
                (Hflm eq_refl) H0 H1 H2)
      as (d & flm1 & Hrun & Hl & Hlf & Hat & Hrest).
    exists d, flm1; split; [exact Hrun|].
    split; [exact Hl|]; split; [intros _; exact Hlf|]; split; assumption.
  - destruct (@forward_compact_ok fn flmn flm L N n _
                (if is_odd n then -1 else 1) HL Hn Heng Hfn
                (Hflm eq_refl) H0 H1 H2)
      as (d & flm1 & Hrun & Hl & Hlf & Hat & Hrest).
    exists d, flm1; split; [exact Hrun|].
    split; [exact Hl|]; split; [intros _; exact Hlf|]; split; assumption.
Qed.

(** The stored parts of two different slices do not overlap. *)
Definition slices_disjoint (L N : Z) (storage : so3_storage_t) : Prop :=
  forall n n', - N + 1 <= n <= N - 1 -> - N + 1 <= n' <= N - 1 -> n <> n' ->
    slice_start L N storage n + (L * L - slice_first storage n)
      <= slice_start L N storage n' \/
    slice_start L N storage n' + (L * L - slice_first storage n')
      <= slice_start L N storage n.

(** [q] lies in the stored part of no slice. *)
Definition outside_slices (L N : Z) (storage : so3_storage_t) (q : Z)
  : Prop :=
  forall n, - N + 1 <= n <= N - 1 ->
    q < slice_start L N storage n \/
    slice_start L N storage n + (L * L - slice_first storage n) <= q.

Lemma forward_loop_ok f L N storage flmn flm0 :
  supported storage = true -> 1 <= L -> 1 <= N ->
  forward_engine_sized L ->
  slices_in_range L N storage (len flmn) ->
  slices_disjoint L N storage ->
  (is_compact storage = true -> len flm0 = L * L) ->
  exists st,
    for_each (range (- N + 1) (N - 1))
             (forward_pass (analysed f L N) L N storage) (flmn, flm0)
    = Ok st /\
    len (fst st) = len flmn /\
    (forall n l m, - N + 1 <= n <= N - 1 ->
       first_degree storage n <= l < L -> - l <= m <= l ->
       at0 (fst st) (slice_start L N storage n
                     + (l * l + l + m - slice_first storage n))
       = (at0 (raw_coeffs f L N n) (l * l + l + m)
          * RtoC (forward_factor (sign_of n) l))%C) /\
    (forall q, 0 <= q -> outside_slices L N storage q ->
       at0 (fst st) q = at0 flmn q).
Proof.
  intros Hsup HL HN Heng Hrange Hdisj Hflm.
  assert (Hfn : len (analysed f L N) = (2 * N - 1) * (L * (2 * L - 1)))
    by (unfold analysed; rewrite len_map_range by nia; lia).
  loop_inv (fun n' (st : list C * list C) =>
      len (fst st) = len flmn /\
      (is_compact storage = true -> len (snd st) = L * L) /\
      (forall n l m, - N + 1 <= n < n' ->
         first_degree storage n <= l < L -> - l <= m <= l ->
         at0 (fst st) (slice_start L N storage n
                       + (l * l + l + m - slice_first storage n))
         = (at0 (raw_coeffs f L N n) (l * l + l + m)
            * RtoC (forward_factor (sign_of n) l))%C) /\
      (forall q, 0 <= q ->
         (forall n, - N + 1 <= n < n' ->
            q < slice_start L N storage n \/
            slice_start L N storage n + (L * L - slice_first storage n)
              <= q) ->
         at0 (fst st) q = at0 flmn q))
    as (st & Hrun & Hl1 & _ & Hall & Hrest).
  - lia.
  - cbn [fst snd]; split; [reflexivity|]; split; [exact Hflm|].
    split; [intros; lia|reflexivity].
  - intros n [flmnA flmA] Hn (HlA & HlB & HallA & HrestA);
      cbn [fst snd] in *.
    destruct (Hrange n Hn) as (R0 & R1 & R2).
    destruct (@forward_pass_ok (analysed f L N) L N storage n flmnA flmA
                Hsup HL Hn Heng Hfn HlB R0 R1)
      as (flmnB & flmB & Hpass & Hl & Hlf & Hat & Hout); [lia|].
    exists (flmnB, flmB); split; [exact Hpass|]; cbn [fst snd].
    split; [lia|]; split; [exact Hlf|]; split.
    + intros k l m Hk Hl' Hm.
      destruct (Z.eq_dec k n) as [->|Hne]; [apply Hat; assumption|].
      destruct (Hrange k) as (K0 & K1 & K2); [lia|].
      pose proof (slice_first_degree storage k) as Hfd.
      assert (Hf0 : 0 <= first_degree storage k)
        by (unfold first_degree; destruct (is_compact storage); lia).
      assert (Hp : 0 <= l * l + l + m - slice_first storage k
                   < L * L - slice_first storage k)
        by (rewrite Hfd; nia).
      rewrite Hout; [apply HallA; lia|lia|].
      destruct (Hdisj k n) as [D|D]; [lia|lia|exact Hne|lia|lia].
    + intros q Hq Hor.
      rewrite Hout; [apply HrestA; [exact Hq|intros; apply Hor; lia]|lia|].
      apply Hor; lia.
  - exists st; split; [exact Hrun|]; split; [exact Hl1|]; split.
    + intros n l m Hn; apply Hall; lia.
    + intros q Hq Hor; apply Hrest; [exact Hq|].
      intros n Hn; apply Hor; lia.
Qed.

(** The allocation trace of a forward run that returns. *)
Definition forward_trace (storage : so3_storage_t) : list event :=
  [Alloc buf_ftemp; Alloc buf_fn; Free buf_ftemp]
  ++ (if is_compact storage then [Alloc buf_flm; Free buf_flm] else [])
  ++ [Free buf_fn].

(** The whole forward transform: its trace and the contents of [flmn]. *)
Lemma so3_forward_ok flmn f L N storage :
  supported storage = true -> 1 <= L -> 1 <= N ->
  forward_engine_sized L -> malloc_sized ->
  slices_in_range L N storage (len flmn) ->
  slices_disjoint L N storage ->
  (2 * N - 1) * (L * (2 * L - 1)) <= len f ->
  exists flmn',
    run (so3_core_mw_forward_via_ssht flmn f L N storage)
    = (forward_trace storage, Ok flmn') /\
    len flmn' = len flmn /\
    (forall n l m, - N + 1 <= n <= N - 1 ->
       first_degree storage n <= l < L -> - l <= m <= l ->
       at0 flmn' (slice_start L N storage n
                  + (l * l + l + m - slice_first storage n))
       = (at0 (raw_coeffs f L N n) (l * l + l + m)
          * RtoC (forward_factor (sign_of n) l))%C) /\
    (forall q, 0 <= q -> outside_slices L N storage q ->
       at0 flmn' q = at0 flmn q).
Proof.
  intros Hsup HL HN Heng Hmal Hrange Hdisj Hf.
  pose proof (@forward_prepare_ok f L N HL HN Hmal Hf) as Hprep.
  unfold forward_prepare in Hprep; cbv zeta in Hprep.
  unfold run, so3_core_mw_forward_via_ssht, forward_trace; cbv zeta.
  cbn [tbind emit lift tret app].
  destruct (memcpy (malloc ((2 * N - 1) * (L * (2 * L - 1)))) 0 f 0
                   ((2 * N - 1) * (L * (2 * L - 1))))
    as [ftemp|] eqn:Hcp; [|discriminate Hprep].
  cbn [bind] in Hprep; cbn [tbind emit lift tret app].
  destruct (fftw_execute FFTW_FORWARD (2 * N - 1) (L * (2 * L - 1)) ftemp
              (malloc ((2 * N - 1) * (L * (2 * L - 1)))))
    as [fn0|] eqn:Hfft; [|discriminate Hprep].
  cbn [bind] in Hprep.
  cbn [tbind emit lift tret app].
  rewrite Hprep.
  assert (Hflm : is_compact storage = true -> len (malloc (L * L)) = L * L)
    by (intros _; apply Hmal; nia).
  destruct (is_compact storage) eqn:Hc; cbn [tbind emit lift tret app].
  - destruct (@forward_loop_ok f L N storage flmn (malloc (L * L))
                Hsup HL HN Heng Hrange Hdisj)
      as (st & Hrun & Hl & Hw & Ho); [rewrite Hc; exact Hflm|].
    rewrite Hrun; cbn [tbind emit lift tret app].
    exists (fst st); repeat split; assumption.
  - destruct (@forward_loop_ok f L N storage flmn []
                Hsup HL HN Heng Hrange Hdisj)
      as (st & Hrun & Hl & Hw & Ho); [rewrite Hc; discriminate|].
    rewrite Hrun; cbn [tbind emit lift tret app].
    exists (fst st); repeat split; assumption.
Qed.

(** With a storage tag outside the four layouts the first pass of the loop
    over [n] stops the run; the buffers allocated before the loop have
    been allocated by then. *)
Lemma inverse_pass_unsupported flmn L N tag n st :
  inverse_pass flmn L N (SO3_STORE_OTHER tag) n st
  = Err (Fatal "Invalid storage method.").
Proof. destruct st; reflexivity. Qed.

Lemma forward_pass_unsupported fn L N tag n st :
  forward_pass fn L N (SO3_STORE_OTHER tag) n st
  = Err (Fatal "Invalid storage method.").
Proof. destruct st; reflexivity. Qed.

Lemma so3_inverse_unsupported f flmn L N tag :
  1 <= N ->
  run (so3_core_mw_inverse_via_ssht f flmn L N (SO3_STORE_OTHER tag))
  = ([Alloc buf_fn; Alloc buf_flm], Err (Fatal "Invalid storage method.")).
Proof.
  intros HN; unfold run, so3_core_mw_inverse_via_ssht; cbv zeta.
  rewrite range_cons by lia; cbn [for_each].
  rewrite inverse_pass_unsupported; reflexivity.
Qed.

Lemma so3_forward_unsupported flmn f L N tag :
  1 <= L -> 1 <= N -> malloc_sized ->
  (2 * N - 1) * (L * (2 * L - 1)) <= len f ->
  run (so3_core_mw_forward_via_ssht flmn f L N (SO3_STORE_OTHER tag))
  = ([Alloc buf_ftemp; Alloc buf_fn; Free buf_ftemp],
     Err (Fatal "Invalid storage method.")).
Proof.
  intros HL HN Hmal Hf.
  pose proof (@forward_prepare_ok f L N HL HN Hmal Hf) as Hprep.
  unfold forward_prepare in Hprep; cbv zeta in Hprep.
  unfold run, so3_core_mw_forward_via_ssht; cbv zeta.
  cbn [tbind emit lift tret app].
  destruct (memcpy (malloc ((2 * N - 1) * (L * (2 * L - 1)))) 0 f 0
                   ((2 * N - 1) * (L * (2 * L - 1))))
    as [ftemp|] eqn:Hcp; [|discriminate Hprep].
  cbn [bind] in Hprep; cbn [tbind emit lift tret app].
  destruct (fftw_execute FFTW_FORWARD (2 * N - 1) (L * (2 * L - 1)) ftemp
              (malloc ((2 * N - 1) * (L * (2 * L - 1)))))
    as [fn0|] eqn:Hfft; [|discriminate Hprep].
  cbn [bind] in Hprep.
  cbn [tbind emit lift tret app].
  rewrite Hprep; cbn [is_compact tbind emit lift tret app].
  rewrite range_cons by lia; cbn [for_each].
  rewrite forward_pass_unsupported; reflexivity.
Qed.

End Core.

End So3.

(** ** The size of the coefficient vector in [so3_forward_mex.c] *)

Module Mex.

Import Rt So3.
Open Scope Z_scope.

(** The arithmetic of a 32-bit [int].  C leaves the overflow of a signed
    operation undefined; the machines the package runs on wrap around,
    and so does every operation here. *)
Definition INT_MAX : Z := 2 ^ 31 - 1.

Definition int_wrap (z : Z) : Z := (z + 2 ^ 31) mod 2 ^ 32 - 2 ^ 31.

Definition int_add (a b : Z) : Z := int_wrap (a + b).
Definition int_sub (a b : Z) : Z := int_wrap (a - b).
Definition int_mul (a b : Z) : Z := int_wrap (a * b).
Definition int_div (a b : Z) : Z := int_wrap (Z.quot a b).

Section Sizes.

(** The strings behind the macros of [so3_mex.h]. *)
Variables SO3_STORAGE_PADDED SO3_STORAGE_COMPACT : string.
Variables SO3_ORDER_ZEROFIRST SO3_ORDER_NEGFIRST : string.

(** [strcmp(a, b) == 0]. *)
Definition same (a b : string) : bool := String.eqb a b.

(** The [if (strcmp(storage_str, ...) == 0) ... else ...] chain of
    [mexFunction]: [flmn_size] and [storage_method].  [flmn_size], [L]
    and [N] are [int]s: each expression is evaluated in the arithmetic
    of [int], operation by operation in the order C gives them
    ([N*L*L] is [(N*L)*L], [(2*N-1)*(...)/3] divides the product), and
    the division [/] truncates. *)
Definition storage_of_strings (storage_str order_str : string)
           (reality : bool) (L N : Z) : result (Z * so3_storage_t) :=
  if same storage_str SO3_STORAGE_PADDED then
    let flmn_size :=
      if reality
      then int_mul (int_mul N L) L
      else int_mul (int_mul (int_sub (int_mul 2 N) 1) L) L in
    if same order_str SO3_ORDER_ZEROFIRST
    then Ok (flmn_size, SO3_STORE_ZERO_FIRST_PAD)
    else if same order_str SO3_ORDER_NEGFIRST
    then Ok (flmn_size, SO3_STORE_NEG_FIRST_PAD)
    else Err (Fatal "Invalid storage order.")
  else if same storage_str SO3_STORAGE_COMPACT then
    let flmn_size :=
      if reality
      then int_div
             (int_mul N
                (int_sub (int_mul (int_mul 6 L) L)
                   (int_mul (int_sub N 1) (int_sub (int_mul 2 N) 1))))
             6
      else int_div
             (int_mul (int_sub (int_mul 2 N) 1)
                (int_sub (int_mul (int_mul 3 L) L)
                   (int_mul N (int_sub N 1))))
             3 in
    if same order_str SO3_ORDER_ZEROFIRST
    then Ok (flmn_size, SO3_STORE_ZERO_FIRST_COMPACT)
    else if same order_str SO3_ORDER_NEGFIRST
    then Ok (flmn_size, SO3_STORE_NEG_FIRST_COMPACT)
    else Err (Fatal "Invalid storage order.")
  else Err (Fatal "Invalid storage type.").

(** The size alone as [mexFunction] computes it, by layout family and
    reality flag. *)
Definition flmn_size_int (compact reality : bool) (L N : Z) : Z :=
  if compact
  then if reality
       then int_div
              (int_mul N
                 (int_sub (int_mul (int_mul 6 L) L)
                    (int_mul (int_sub N 1) (int_sub (int_mul 2 N) 1))))
              6
       else int_div
              (int_mul (int_sub (int_mul 2 N) 1)
                 (int_sub (int_mul (int_mul 3 L) L)
                    (int_mul N (int_sub N 1))))
              3
  else if reality
       then int_mul (int_mul N L) L
       else int_mul (int_mul (int_sub (int_mul 2 N) 1) L) L.

(** The four formulas in the integers, where nothing wraps around: the
    sizes the coefficient vectors are meant to have. *)
Definition flmn_size (compact reality : bool) (L N : Z) : Z :=
  if compact
  then if reality
       then Z.quot (N * (6 * L * L - (N - 1) * (2 * N - 1))) 6
       else Z.quot ((2 * N - 1) * (3 * L * L - N * (N - 1))) 3
  else if reality then N * L * L else (2 * N - 1) * L * L.

(** The storage method chosen for a pair of strings that are accepted. *)
Definition method_of_strings (storage_str order_str : string)
  : so3_storage_t :=
  if same storage_str SO3_STORAGE_PADDED
  then if same order_str SO3_ORDER_ZEROFIRST
       then SO3_STORE_ZERO_FIRST_PAD else SO3_STORE_NEG_FIRST_PAD
  else if same order_str SO3_ORDER_ZEROFIRST
       then SO3_STORE_ZERO_FIRST_COMPACT else SO3_STORE_NEG_FIRST_COMPACT.

Lemma storage_of_strings_size storage_str order_str reality L N size st :
  storage_of_strings storage_str order_str reality L N = Ok (size, st) ->
  supported st = true /\ size = flmn_size_int (is_compact st) reality L N.
Proof.
  unfold storage_of_strings, flmn_size_int.
  destruct (same storage_str SO3_STORAGE_PADDED).
  - destruct (same order_str SO3_ORDER_ZEROFIRST);
      [|destruct (same order_str SO3_ORDER_NEGFIRST)];
      intros H; inversion H; subst; simpl; auto.
  - destruct (same storage_str SO3_STORAGE_COMPACT); [|discriminate].
    destruct (same order_str SO3_ORDER_ZEROFIRST);
      [|destruct (same order_str SO3_ORDER_NEGFIRST)];
      intros H; inversion H; subst; simpl; auto.
Qed.

(** With a storage string and an order string among the four macros a
    size and a storage method are computed. *)
Lemma storage_of_strings_accepts storage_str order_str reality L N :
  same storage_str SO3_STORAGE_PADDED = true \/
  same storage_str SO3_STORAGE_COMPACT = true ->
  same order_str SO3_ORDER_ZEROFIRST = true \/
  same order_str SO3_ORDER_NEGFIRST = true ->
  storage_of_strings storage_str order_str reality L N
  = Ok (flmn_size_int (negb (same storage_str SO3_STORAGE_PADDED))
          reality L N,
        method_of_strings storage_str order_str).
Proof.
  unfold storage_of_strings, method_of_strings, flmn_size_int.
  intros Hs Ho.
  destruct (same storage_str SO3_STORAGE_PADDED); cbn [negb].
  - destruct (same order_str SO3_ORDER_ZEROFIRST); [reflexivity|].
    destruct Ho as [Ho|Ho]; [discriminate Ho|rewrite Ho; reflexivity].
  - destruct Hs as [Hs|Hs]; [discriminate Hs|rewrite Hs].
    destruct (same order_str SO3_ORDER_ZEROFIRST); [reflexivity|].
    destruct Ho as [Ho|Ho]; [discriminate Ho|rewrite Ho; reflexivity].
Qed.

End Sizes.

(** The sum of the squares below [n], and the two divisibility facts. *)
Fixpoint sum_squares (n : nat) : Z :=
  match n with
  | O => 0
  | S k => sum_squares k + Z.of_nat k * Z.of_nat k
  end.

Lemma six_sum_squares n :
  6 * sum_squares n = Z.of_nat n * (Z.of_nat n - 1) * (2 * Z.of_nat n - 1).
Proof.
  induction n as [|n IH]; [reflexivity|].
  cbn [sum_squares]; rewrite Nat2Z.inj_succ; unfold Z.succ; nia.
Qed.

Lemma consecutive_product_by_6 N :
  exists k, N * (N - 1) * (2 * N - 1) = 6 * k.
Proof.
  destruct (Z.le_gt_cases 0 N) as [Hpos|Hneg].
  - exists (sum_squares (Z.to_nat N)).
    rewrite six_sum_squares, Z2Nat.id by lia; reflexivity.
  - exists (- sum_squares (Z.to_nat (1 - N))).
    pose proof (six_sum_squares (Z.to_nat (1 - N))) as H.
    rewrite Z2Nat.id in H by lia; nia.
Qed.

Lemma compact_real_exact L N :
  6 * Z.quot (N * (6 * L * L - (N - 1) * (2 * N - 1))) 6
  = N * (6 * L * L - (N - 1) * (2 * N - 1)).
Proof.
  destruct (consecutive_product_by_6 N) as (k & Hk).
  replace (N * (6 * L * L - (N - 1) * (2 * N - 1)))
    with ((N * L * L - k) * 6) by nia.
  rewrite Z.quot_mul by lia; ring.
Qed.

Lemma compact_complex_exact L N :
  3 * Z.quot ((2 * N - 1) * (3 * L * L - N * (N - 1))) 3
  = (2 * N - 1) * (3 * L * L - N * (N - 1)).
Proof.
  destruct (consecutive_product_by_6 N) as (k & Hk).
  replace ((2 * N - 1) * (3 * L * L - N * (N - 1)))
    with (((2 * N - 1) * L * L - 2 * k) * 3) by nia.
  rewrite Z.quot_mul by lia; ring.
Qed.

Lemma int_wrap_small z : - INT_MAX <= z <= INT_MAX -> int_wrap z = z.
Proof.
  unfold int_wrap, INT_MAX; intros H.
  rewrite Z.mod_small; lia.
Qed.

(** While [6*L*L*N] fits in an [int], and [N <= L], no operation wraps
    and the sizes are those computed in the integers. *)
Lemma flmn_size_int_agrees compact reality L N :
  1 <= N <= L -> 6 * L * L * N <= INT_MAX ->
  flmn_size_int compact reality L N = flmn_size compact reality L N.
Proof.
  intros HN Hfit; unfold flmn_size_int, flmn_size.
  unfold int_div, int_mul, int_sub.
  assert (HLL : 1 <= L * L) by nia.
  assert (HNN : 1 <= N * N <= L * L) by nia.
  destruct compact, reality.
  - assert (Hq : 0 <= Z.quot (N * (6 * L * L - (N - 1) * (2 * N - 1))) 6
                 <= N * (6 * L * L - (N - 1) * (2 * N - 1))).
    { split; [apply Z.quot_pos; nia|].
      apply Z.quot_le_upper_bound; nia. }
    rewrite (@int_wrap_small (6 * L)) by nia.
    rewrite (@int_wrap_small (6 * L * L)) by nia.
    rewrite (@int_wrap_small (N - 1)) by nia.
    rewrite (@int_wrap_small (2 * N)) by nia.
    rewrite (@int_wrap_small (2 * N - 1)) by nia.
    rewrite (@int_wrap_small ((N - 1) * (2 * N - 1))) by nia.
    rewrite (@int_wrap_small (6 * L * L - (N - 1) * (2 * N - 1))) by nia.
    rewrite (@int_wrap_small (N * (6 * L * L - (N - 1) * (2 * N - 1))))
      by nia.
    apply int_wrap_small; nia.
  - assert (Hq : 0 <= Z.quot ((2 * N - 1) * (3 * L * L - N * (N - 1))) 3
                 <= (2 * N - 1) * (3 * L * L - N * (N - 1))).
    { split; [apply Z.quot_pos; nia|].
      apply Z.quot_le_upper_bound; nia. }
    rewrite (@int_wrap_small (2 * N)) by nia.
    rewrite (@int_wrap_small (2 * N - 1)) by nia.
    rewrite (@int_wrap_small (3 * L)) by nia.
    rewrite (@int_wrap_small (3 * L * L)) by nia.
    rewrite (@int_wrap_small (N - 1)) by nia.
    rewrite (@int_wrap_small (N * (N - 1))) by nia.
    rewrite (@int_wrap_small (3 * L * L - N * (N - 1))) by nia.
    rewrite (@int_wrap_small ((2 * N - 1) * (3 * L * L - N * (N - 1))))
      by nia.
    apply int_wrap_small; nia.
  - rewrite (@int_wrap_small (N * L)) by nia.
    apply int_wrap_small; nia.
  - rewrite (@int_wrap_small (2 * N)) by nia.
    rewrite (@int_wrap_small (2 * N - 1)) by nia.
    rewrite (@int_wrap_small ((2 * N - 1) * L)) by nia.
    apply int_wrap_small; nia.
Qed.

End Mex.

(** ** Properties of the transforms *)

Import Cplx Rt Sht Ssht So3 Mex.
Open Scope Z_scope.

(** A matrix with no two entries alike, to run the passes on: entry
    [(i, j)] is [i + j*1i]. *)
Definition sample_matrix (r c : Z) : matrix :=
  tabulate r c (fun i j => mkC (IZR i) (IZR j)).

Lemma sample_matrix_dims r c :
  0 <= r * c -> has_dims (sample_matrix r c) r c.
Proof. apply tabulate_dims. Qed.

(** *** The deconvolution weights of step 4 *)

Lemma w_unit d :
  Z.abs d = 1 -> w d = mkC 0 (IZR d * PI / 2).
Proof.
  intros H; unfold w; rewrite H; cbn [Z.eqb Pos.eqb].
  rewrite Cdiv_RtoC_r by lra.
  apply C_eq; simpl; field.
Qed.

Lemma w_even d :
  Z.abs d <> 1 -> d mod 2 = 0 -> w d = RtoC (2 / (1 - IZR d ^ 2)).
Proof.
  intros H1 H2; unfold w.
  destruct (Z.eqb_spec (Z.abs d) 1); [contradiction|].
  rewrite H2; reflexivity.
Qed.

Lemma w_odd d :
  Z.abs d <> 1 -> d mod 2 <> 0 -> w d = C0.
Proof.
  intros H1 H2; unfold w.
  destruct (Z.eqb_spec (Z.abs d) 1); [contradiction|].
  destruct (Z.eqb_spec (d mod 2) 0); [contradiction|reflexivity].
Qed.

Lemma odd_mod2 d : Z.odd d = true <-> d mod 2 <> 0.
Proof.
  rewrite Zmod_odd; destruct (Z.odd d); split; intros H;
    try lia; try reflexivity; discriminate.
Qed.

(** The weight in the words of the specification: [2*pi] times the
    bracket. *)
Definition deconvolution_weight (d : Z) : C :=
  (RtoC (2 * PI)
   * (if Z.abs d =? 1 then Ci * RtoC (PI * IZR d / 2)
      else if Z.even d then RtoC (2 / (1 - IZR d * IZR d))
      else C0))%C.

Lemma w_times_2pi d :
  (w d * RtoC 2 * RtoC PI)%C = deconvolution_weight d.
Proof.
  unfold deconvolution_weight.
  destruct (Z.eqb_spec (Z.abs d) 1) as [H1|H1].
  - rewrite (w_unit _ H1); apply C_eq; simpl; field.
  - destruct (Z.even d) eqn:He.
    + rewrite w_even; [|exact H1|rewrite Zmod_even, He; reflexivity].
      replace (IZR d ^ 2)%R with (IZR d * IZR d)%R by ring.
      apply C_eq; simpl; ring.
    + rewrite w_odd; [ring|exact H1|].
      rewrite Zmod_even, He; lia.
Qed.

(** C3.  In step 4 the weight met by [fmm(m, m'')] in the sum for
    [gmm(m, m')] is, with [d = m'' - m'], [2*pi] times [i*pi*d/2] when
    [|d| = 1], [2/(1-d^2)] when [d] is even, and [0] for the other odd
    [d]; and [gmm(m, m')] is the sum over [m''] of [fmm(m, m'')] times
    that weight. *)
Theorem step_4_deconvolution (L : Z) (fmm gmm0 : matrix) :
  1 <= L ->
  has_dims fmm (2 * L - 1) (2 * L - 1) ->
  has_dims gmm0 (2 * L - 1) (2 * L - 1) ->
  exists gmm,
    step_4 L fmm gmm0 = Ok gmm /\
    forall m mp, - L + 1 <= m <= L - 1 -> - L + 1 <= mp <= L - 1 ->
      mat gmm (L + m) (L + mp)
      = Csum (range (- L + 1) (L - 1))
             (fun mpp => (mat fmm (L + m) (L + mpp)
                          * deconvolution_weight (mpp - mp))%C).
Proof.
  intros HL Hf Hg.
  destruct (step_4_ok HL Hf Hg) as (gmm & Hrun & _ & Hval).
  exists gmm; split; [exact Hrun|].
  intros m mp Hm Hmp; rewrite (Hval m mp Hm Hmp); unfold gmm_value.
  rewrite <- Cmul_assoc, Csum_scal_r.
  apply Csum_ext; intros mpp _.
  rewrite <- w_times_2pi; ring.
Qed.

Lemma step_4_deconvolution_witness :
  exists gmm,
    step_4 2 (sample_matrix 3 3) (zeros 3 3) = Ok gmm /\
    forall m mp, - 2 + 1 <= m <= 2 - 1 -> - 2 + 1 <= mp <= 2 - 1 ->
      mat gmm (2 + m) (2 + mp)
      = Csum (range (- 2 + 1) (2 - 1))
             (fun mpp => (mat (sample_matrix 3 3) (2 + m) (2 + mpp)
                          * deconvolution_weight (mpp - mp))%C).
Proof.
  apply (@step_4_deconvolution 2 (sample_matrix 3 3) (zeros 3 3)).
  - lia.
  - apply (@sample_matrix_dims 3 3); lia.
  - apply zeros_dims; lia.
Defined.

(** C4, as stated, fails: the weight is not symmetric under [d -> -d],
    its values at [1] and [-1] differ. *)
Lemma weight_not_symmetric : w (- (1)) <> w 1.
Proof.
  rewrite !w_unit by reflexivity.
  intros H; apply (f_equal Im) in H; simpl in H.
  pose proof PI_RGT_0; lra.
Qed.

(** C4, amended.  The weight of step 4 is conjugate-symmetric under
    [d -> -d]: unchanged for every [d] with [|d| <> 1], of opposite sign
    at [|d| = 1]; it is purely imaginary (zero real part, non-zero
    imaginary part) exactly at [|d| = 1]; and it is zero at every odd [d]
    with [|d| <> 1]. *)
Theorem weight_conjugate_symmetric (d : Z) :
  w (- d) = Cconj (w d) /\
  (Z.abs d <> 1 -> w (- d) = w d) /\
  (Z.abs d = 1 -> w (- d) = (- w d)%C) /\
  (Re (w d) = 0%R /\ Im (w d) <> 0%R <-> Z.abs d = 1) /\
  (Z.odd d = true -> Z.abs d <> 1 -> w d = C0).
Proof.
  assert (Hodd : Z.abs d <> 1 -> d mod 2 <> 0 -> w d = C0 /\ w (- d) = C0).
  { intros H1 H2; split; apply w_odd; try lia.
    rewrite <- odd_mod2 in *; rewrite Z.odd_opp; exact H2. }
  assert (Heven : Z.abs d <> 1 -> d mod 2 = 0 ->
                  w d = RtoC (2 / (1 - IZR d ^ 2)) /\ w (- d) = w d).
  { intros H1 H2; split; [apply w_even; assumption|].
    rewrite !w_even; try lia.
    - rewrite opp_IZR; do 2 f_equal; ring.
    - rewrite Zmod_even in *; rewrite Z.even_opp; exact H2. }
  assert (Hunit : Z.abs d = 1 ->
                  w d = mkC 0 (IZR d * PI / 2) /\
                  w (- d) = mkC 0 (- (IZR d * PI / 2))).
  { intros H1; split; [apply w_unit; exact H1|].
    rewrite w_unit by lia; rewrite opp_IZR; apply C_eq; simpl; field. }
  destruct (Z.eq_dec (Z.abs d) 1) as [H1|H1].
  - destruct (Hunit H1) as [E1 E2]; rewrite E1, E2.
    assert (Hd : (IZR d = 1 \/ IZR d = -1)%R)
      by (destruct (Z.abs_spec d) as [[_ A]|[_ A]];
          [left; f_equal; lia|right; replace d with (-1) by lia; reflexivity]).
    pose proof PI_RGT_0 as Hpi.
    repeat split; try contradiction; simpl.
    + intros _; apply C_eq; simpl; ring.
    + intros _; exact H1.
    + destruct Hd as [-> | ->]; lra.
  - destruct (Z.eq_dec (d mod 2) 0) as [H2|H2].
    + destruct (Heven H1 H2) as [E1 E2]; rewrite E2, E1.
      repeat split; try contradiction; try reflexivity.
      * apply C_eq; simpl; ring.
      * intros [_ Him]; simpl in Him; contradiction.
      * intros Ho _; apply odd_mod2 in Ho; contradiction.
    + destruct (Hodd H1 H2) as [E1 E2]; rewrite E2, E1.
      repeat split; try contradiction; try reflexivity.
      * apply C_eq; simpl; ring.
      * intros [_ Him]; simpl in Him; contradiction.
Qed.

Lemma weight_conjugate_symmetric_witness : w 3 = C0.
Proof.
  apply (proj2 (proj2 (proj2 (proj2 (weight_conjugate_symmetric 3))))).
  - reflexivity.
  - simpl; lia.
Defined.

(** *** The passes of [forward_for_dft] and [inverse_direct] *)

(** C7.  After steps 1 and 2, for every order [m] and colatitude index
    [t], [fm(L+m, L+t)] is the sum over the [2L-1] longitudes of
    [f(t+1, p) * exp(-i*m*phi_p)] divided by [2L-1], and for [t > 0] the
    reflected entry [fm(L+m, L-t)] is [(-1)^m] times that same entry. *)
Theorem steps_1_2_azimuthal_analysis
        (L : Z) (f : matrix) (thetas phis : list R) :
  1 <= L ->
  has_dims f L (2 * L - 1) -> len thetas = L -> len phis = 2 * L - 1 ->
  exists fm,
    steps_1_2 L f thetas phis (zeros (2 * L - 1) (2 * L - 1)) = Ok fm /\
    forall m t, - L + 1 <= m <= L - 1 -> 0 <= t <= L - 1 ->
      mat fm (L + m) (L + t)
      = (Csum (range 1 (2 * L - 1))
              (fun p => mat f (t + 1) p
                        * Cexp (- Ci * RtoC (IZR m) * RtoC (vat 0%R phis p)))
         / RtoC (IZR (2 * L - 1)))%C /\
      (0 < t -> mat fm (L + m) (L - t)
                = (RtoC (powerRZ (-1) m) * mat fm (L + m) (L + t))%C).
Proof.
  intros HL Hf Hth Hph.
  destruct (@steps_1_2_ok L f thetas phis (zeros (2 * L - 1) (2 * L - 1))
              HL Hf Hth Hph) as (fm & Hrun & _ & Hval);
    [apply zeros_dims; lia|].
  exists fm; split; [exact Hrun|].
  intros m t Hm Ht; destruct (Hval m t Hm Ht) as [E1 E2].
  unfold fm_value in *; rewrite Hph in *.
  split; [exact E1|].
  intros Hpos; rewrite E1; apply E2; exact Hpos.
Qed.

Lemma steps_1_2_azimuthal_analysis_witness :
  exists fm,
    steps_1_2 2 (sample_matrix 2 3) (fst (mw_sampling 2))
              (snd (mw_sampling 2))
              (zeros (2 * 2 - 1) (2 * 2 - 1)) = Ok fm /\
    forall m t, - 2 + 1 <= m <= 2 - 1 -> 0 <= t <= 2 - 1 ->
      mat fm (2 + m) (2 + t)
      = (Csum (range 1 (2 * 2 - 1))
              (fun p => mat (sample_matrix 2 3) (t + 1) p
                        * Cexp (- Ci * RtoC (IZR m)
                                * RtoC (vat 0%R (snd (mw_sampling 2)) p)))
         / RtoC (IZR (2 * 2 - 1)))%C /\
      (0 < t -> mat fm (2 + m) (2 - t)
                = (RtoC (powerRZ (-1) m) * mat fm (2 + m) (2 + t))%C).
Proof.
  apply (@steps_1_2_azimuthal_analysis 2 (sample_matrix 2 3)
           (fst (mw_sampling 2)) (snd (mw_sampling 2))).
  - lia.
  - apply (@sample_matrix_dims 2 3); lia.
  - reflexivity.
  - reflexivity.
Defined.

(** C2.  [inverse_direct] returns, at every grid point
    [(theta_j, phi_k)], the sum over [l = 0..L-1] and [m = -l..l] of
    [flm(l,m) * sqrt((2l+1)/(4 pi)) * dl(m+L, L) * exp(i*m*phi_k)], where
    [flm(l,m)] is entry [l*l+l+m+1] of the vector and [dl] is the plane
    reached by advancing [ssht_dl] from [zeros] through the degrees
    [0..l] at the angle [theta_j]. *)
Theorem inverse_direct_synthesis
        (ssht_sampling : Z -> list R * list R)
        (ssht_dl : matrix -> Z -> Z -> R -> matrix)
        (L : Z) (flm : list C) :
  dl_keeps_dims ssht_dl -> sampling_sizes ssht_sampling L ->
  1 <= L -> len flm = L ^ 2 ->
  exists f,
    inverse_direct ssht_sampling ssht_dl L flm = Ok f /\
    has_dims f L (2 * L - 1) /\
    forall j k, 1 <= j <= L -> 1 <= k <= 2 * L - 1 ->
      mat f j k
      = Csum (range 0 (L - 1))
          (fun l =>
             Csum (range (- l) l)
               (fun m =>
                  (vat C0 flm (l * l + l + m + 1)
                   * RtoC (sqrt ((2 * IZR l + 1) / (4 * PI)))
                   * mat (dl_at ssht_dl L
                            (vat 0%R (fst (ssht_sampling L)) j) l)
                         (m + L) L
                   * Cexp (Ci * RtoC (IZR m)
                           * RtoC (vat 0%R (snd (ssht_sampling L)) k)))%C)).
Proof.
  intros Hk Hs HL Hlen.
  exact (@inverse_direct_ok ssht_sampling ssht_dl L flm Hk Hs HL Hlen).
Qed.

Lemma inverse_direct_synthesis_witness :
  exists f,
    inverse_direct mw_sampling wigner_dl 2 [C0; C0; C1; C0] = Ok f /\
    has_dims f 2 (2 * 2 - 1) /\
    forall j k, 1 <= j <= 2 -> 1 <= k <= 2 * 2 - 1 ->
      mat f j k
      = Csum (range 0 (2 - 1))
          (fun l =>
             Csum (range (- l) l)
               (fun m =>
                  (vat C0 [C0; C0; C1; C0] (l * l + l + m + 1)
                   * RtoC (sqrt ((2 * IZR l + 1) / (4 * PI)))
                   * mat (dl_at wigner_dl 2
                            (vat 0%R (fst (mw_sampling 2)) j) l)
                         (m + 2) 2
                   * Cexp (Ci * RtoC (IZR m)
                           * RtoC (vat 0%R (snd (mw_sampling 2)) k)))%C)).
Proof.
  apply (@inverse_direct_synthesis mw_sampling wigner_dl 2 [C0; C0; C1; C0]).
  - exact wigner_dl_keeps_dims.
  - apply mw_sampling_sizes; lia.
  - lia.
  - reflexivity.
Defined.

(** A checked access that returns has stayed inside the array. *)
Lemma mget_in_bounds A i j x :
  mget A i j = Ok x -> 1 <= i <= nrows A /\ 1 <= j <= ncols A.
Proof.
  unfold mget, in_dims.
  destruct (Z.leb_spec 1 i); [|discriminate].
  destruct (Z.leb_spec i (nrows A)); [|discriminate].
  destruct (Z.leb_spec 1 j); [|discriminate].
  destruct (Z.leb_spec j (ncols A)); [|discriminate].
  intros _; lia.
Qed.

Lemma mset_in_bounds A i j x A' :
  mset A i j x = Ok A' -> 1 <= i <= nrows A /\ 1 <= j <= ncols A.
Proof.
  unfold mset, in_dims.
  destruct (Z.leb_spec 1 i); [|discriminate].
  destruct (Z.leb_spec i (nrows A)); [|discriminate].
  destruct (Z.leb_spec 1 j); [|discriminate].
  destruct (Z.leb_spec j (ncols A)); [|discriminate].
  intros _; lia.
Qed.

Lemma vset_in_bounds {A} (v : list A) i x v' :
  vset v i x = Ok v' -> 1 <= i <= len v.
Proof.
  unfold vset, len.
  destruct (Z.leb_spec 1 i); [|discriminate].
  destruct (Z.leb_spec i (Z.of_nat (length v))); [|discriminate].
  intros _; lia.
Qed.

Lemma coefficient_index_onto L i :
  1 <= L -> 1 <= i <= L ^ 2 ->
  exists l m, 0 <= l <= L - 1 /\ - l <= m <= l /\ i = l * l + l + m + 1.
Proof.
  intros HL Hi.
  destruct (@index_of_degree (i - 1)) as (l & m & Hl & Hm & Hq & _); [lia|].
  exists l, m; repeat split; try lia; nia.
Qed.

(** C10.  With [f] of size [L x (2L-1)] (with [flm] of length [L^2]) both
    transforms run to their end: no index leaves its array, every access
    being checked against the declared size.  The arrays [fm], [fmm],
    [gmm] are [(2L-1) x (2L-1)], the extended colatitudes have [2L-1]
    entries, and the index [lmi] of step 5 starts at [1], ends at
    [L^2 + 1] and meets every index [1..L^2]. *)
Theorem transforms_stay_in_bounds
        (ssht_sampling : Z -> list R * list R)
        (ssht_dl : matrix -> Z -> Z -> R -> matrix) (L : Z) :
  dl_keeps_dims ssht_dl -> sampling_sizes ssht_sampling L -> 1 <= L ->
  (forall f, has_dims f L (2 * L - 1) ->
     exists flm,
       forward_for_dft ssht_sampling ssht_dl L f = Ok flm /\
       forward_run ssht_sampling ssht_dl L f flm) /\
  (forall flm, len flm = L ^ 2 ->
     exists f,
       inverse_direct ssht_sampling ssht_dl L flm = Ok f /\
       has_dims f L (2 * L - 1)) /\
  len (extend_thetas (fst (ssht_sampling L))) = 2 * L - 1 /\
  (forall gmm flm0,
     has_dims gmm (2 * L - 1) (2 * L - 1) -> len flm0 = L ^ 2 ->
     exists st,
       step_5 ssht_dl L gmm flm0 = Ok st /\
       len (s5_flm st) = L ^ 2 /\ s5_lmi st = L ^ 2 + 1) /\
  (forall i, 1 <= i <= L ^ 2 ->
     exists l m, 0 <= l <= L - 1 /\ - l <= m <= l /\ i = l * l + l + m + 1).
Proof.
  intros Hk Hs HL; split; [|split; [|split; [|split]]].
  - intros f Hf.
    exact (@forward_for_dft_ok ssht_sampling ssht_dl L f Hk Hs HL Hf).
  - intros flm Hlen.
    destruct (@inverse_direct_ok ssht_sampling ssht_dl L flm Hk Hs HL Hlen)
      as (f & Hrun & Hd & _).
    exists f; split; assumption.
  - destruct Hs as [Hth _]; rewrite extend_thetas_len; lia.
  - intros gmm flm0 Hg Hlen.
    destruct (@step_5_ok ssht_dl L gmm flm0 Hk HL Hg Hlen)
      as (st & Hrun & Hl & Hi & _).
    exists st; repeat split; assumption.
  - intros i Hi; apply coefficient_index_onto; assumption.
Qed.

Lemma transforms_stay_in_bounds_witness :
  (forall f, has_dims f 2 (2 * 2 - 1) ->
     exists flm,
       forward_for_dft mw_sampling wigner_dl 2 f = Ok flm /\
       forward_run mw_sampling wigner_dl 2 f flm) /\
  (forall flm, len flm = 2 ^ 2 ->
     exists f,
       inverse_direct mw_sampling wigner_dl 2 flm = Ok f /\
       has_dims f 2 (2 * 2 - 1)) /\
  len (extend_thetas (fst (mw_sampling 2))) = 2 * 2 - 1 /\
  (forall gmm flm0,
     has_dims gmm (2 * 2 - 1) (2 * 2 - 1) -> len flm0 = 2 ^ 2 ->
     exists st,
       step_5 wigner_dl 2 gmm flm0 = Ok st /\
       len (s5_flm st) = 2 ^ 2 /\ s5_lmi st = 2 ^ 2 + 1) /\
  (forall i, 1 <= i <= 2 ^ 2 ->
     exists l m, 0 <= l <= 2 - 1 /\ - l <= m <= l /\ i = l * l + l + m + 1).
Proof.
  apply (@transforms_stay_in_bounds mw_sampling wigner_dl 2).
  - exact wigner_dl_keeps_dims.
  - apply mw_sampling_sizes; lia.
  - lia.
Defined.

(** *** The sizes of the coefficient vector *)




(** *** The Wigner transform core *)

Lemma is_odd_spec n : is_odd n = Z.odd n.
Proof.
  unfold is_odd.
  pose proof (Z.rem_mod_eq_0 n 2) as H; pose proof (Zmod_odd n) as Ho.
  destruct (Z.eqb_spec (Z.rem n 2) 0) as [E|E]; destruct (Z.odd n);
    cbn [negb]; try reflexivity; lia.
Qed.

(** Collaborators to run the core on: an allocator, two engines of the
    right output size, and an index map. *)
Definition zeroed_malloc (n : Z) : list C := repeat C0 (Z.to_nat n).

Definition sample_inverse_engine (flm : list C) (L spin : Z)
           (method : ssht_dl_method_t) : list C :=
  repeat (at0 flm 0) (Z.to_nat (L * (2 * L - 1))).

Definition sample_forward_engine (f : list C) (L spin : Z)
           (method : ssht_dl_method_t) : list C :=
  repeat (at0 f 0) (Z.to_nat (L * L)).

(** Modelled from the spec: [so3_sampling_elmn2ind] of [so3_sampling.c],
    which is not among the sources.  The slices follow one another in the
    order of the layout ([0, 1, .., N-1, -N+1, .., -1] when zero comes
    first, [-N+1, .., N-1] otherwise), each taking [L^2] entries when
    padded and [L^2 - n^2] when compact; inside a slice the coefficient
    [(el, m)] sits at [el^2 + el + m], less the [n^2] absent entries of a
    compact slice. *)
Fixpoint offset_before (order : list Z) (stride : Z -> Z) (n : Z) : Z :=
  match order with
  | [] => 0
  | k :: rest =>
      if k =? n then 0 else stride k + offset_before rest stride n
  end.

Definition zero_first (storage : so3_storage_t) : bool :=
  match storage with
  | SO3_STORE_ZERO_FIRST_PAD | SO3_STORE_ZERO_FIRST_COMPACT => true
  | _ => false
  end.

Definition elmn2ind_layout (el m n L N : Z) (storage : so3_storage_t) : Z :=
  let order := if zero_first storage
               then range 0 (N - 1) ++ range (- N + 1) (- (1))
               else range (- N + 1) (N - 1) in
  let stride k := if is_compact storage then L * L - k * k else L * L in
  offset_before order stride n
  + (el * el + el + m - (if is_compact storage then n * n else 0)).

Lemma zeroed_malloc_sized : malloc_sized zeroed_malloc.
Proof.
  intros n Hn; unfold zeroed_malloc, len; rewrite repeat_length; lia.
Qed.

Lemma sample_inverse_engine_sized L :
  0 <= L * (2 * L - 1) -> inverse_engine_sized sample_inverse_engine L.
Proof.
  intros HL flm spin method; unfold sample_inverse_engine, len.
  rewrite repeat_length; lia.
Qed.

Lemma sample_forward_engine_sized L :
  forward_engine_sized sample_forward_engine L.
Proof.
  intros f spin method; unfold sample_forward_engine, len.
  rewrite repeat_length; nia.
Qed.

Lemma layout_2_2_in_range :
  slices_in_range elmn2ind_layout 2 2 SO3_STORE_NEG_FIRST_COMPACT 10.
Proof.
  intros n Hn.
  assert (E : n = -1 \/ n = 0 \/ n = 1) by lia.
  destruct E as [-> | [-> | ->]]; vm_compute; repeat split; discriminate.
Qed.

Lemma layout_2_2_disjoint :
  slices_disjoint elmn2ind_layout 2 2 SO3_STORE_NEG_FIRST_COMPACT.
Proof.
  intros n n' Hn Hn' Hne.
  assert (E : n = -1 \/ n = 0 \/ n = 1) by lia.
  assert (E' : n' = -1 \/ n' = 0 \/ n' = 1) by lia.
  destruct E as [-> | [-> | ->]], E' as [-> | [-> | ->]];
    try contradiction; vm_compute;
    first [left; discriminate | right; discriminate].
Qed.

(** C5.  The inverse transform under compact storage.  For every [n] in
    [-N+1 .. N-1]: the [L^2 - n^2] stored coefficients of the slice go
    to the positions [n^2 ..] of a length-[L^2] buffer whose first [n^2]
    entries are zero; the coefficient of degree [l] is multiplied by
    [sqrt((2l+1)/(16 pi^3))]; the inverse engine is called with pole
    order [-n]; its values are negated when [n] is odd; the slice is
    kept at orientation index [n] when [n >= 0] and [n + 2N - 1] when
    [n < 0].  The result is one backward Fourier transform of length
    [2N-1] of these slices, along the orientation. *)
Theorem inverse_via_ssht_slices
        (engine : list C -> Z -> Z -> ssht_dl_method_t -> list C)
        (elmn2ind : Z -> Z -> Z -> Z -> Z -> so3_storage_t -> Z)
        (malloc : Z -> list C)
        (f flmn : list C) (L N : Z) (storage : so3_storage_t) :
  is_compact storage = true -> 1 <= L -> 1 <= N ->
  inverse_engine_sized engine L -> malloc_sized malloc ->
  slices_in_range elmn2ind L N storage (len flmn) ->
  (2 * N - 1) * (L * (2 * L - 1)) <= len f ->
  exists fn f',
    snd (run (so3_core_mw_inverse_via_ssht engine elmn2ind malloc
                f flmn L N storage)) = Ok f' /\
    (forall q, 0 <= q < (2 * N - 1) * (L * (2 * L - 1)) ->
       at0 f' q
       = Csum (range 0 (2 * N - 1 - 1))
           (fun j =>
              (at0 fn (q mod (L * (2 * L - 1)) + j * (L * (2 * L - 1)))
               * Cexp (Ci * RtoC (IZR FFTW_BACKWARD
                                  * (2 * PI * IZR j
                                     * IZR (q / (L * (2 * L - 1))))
                                  / IZR (2 * N - 1))))%C)) /\
    forall n, - N + 1 <= n <= N - 1 ->
      exists loaded scaled,
        len loaded = L * L /\ len scaled = L * L /\
        (forall q, 0 <= q < n * n -> at0 loaded q = C0) /\
        (forall q, n * n <= q < L * L ->
           at0 loaded q
           = at0 flmn (elmn2ind (Z.abs n) (- Z.abs n) n L N storage
                       + (q - n * n))) /\
        (forall l m, 0 <= l < L -> - l <= m <= l ->
           at0 scaled (l * l + l + m)
           = (at0 loaded (l * l + l + m)
              * RtoC (sqrt (IZR (2 * l + 1) / (16 * PI ^ 3))))%C) /\
        window fn ((if n <? 0 then n + 2 * N - 1 else n) * (L * (2 * L - 1)))
               (L * (2 * L - 1))
        = Ok (if Z.odd n
              then map Copp (engine scaled L (- n) SSHT_DL_TRAPANI)
              else engine scaled L (- n) SSHT_DL_TRAPANI).
Proof.
  intros Hc HL HN Heng Hmal Hrange Hf.
  assert (Hsup : supported storage = true)
    by (destruct storage; try discriminate Hc; reflexivity).
  destruct (@so3_inverse_ok engine elmn2ind malloc f flmn L N storage
              Hsup HL HN Heng Hmal Hrange Hf) as (fn & Hlen & Hwin & Hrun).
  set (total := (2 * N - 1) * (L * (2 * L - 1))) in *.
  assert (Htot : 0 < total) by (unfold total; nia).
  exists fn; eexists; split; [rewrite Hrun; reflexivity|]; split.
  - intros q Hq.
    rewrite at0_nth, app_nth1, <- at0_nth by
        (try rewrite length_map, range_length; lia).
    rewrite at0_map_range by lia; reflexivity.
  - intros n Hn.
    exists (map (loaded_entry elmn2ind flmn L N storage n)
                (range 0 (L * L - 1))),
           (scaled_slice elmn2ind flmn L N storage n).
    assert (HLL : 0 < L * L) by nia.
    split; [rewrite len_map_range; lia|].
    split; [unfold scaled_slice; rewrite len_map_range; lia|].
    destruct (Hrange n Hn) as (_ & R1 & _).
    unfold slice_first in R1; rewrite Hc in R1.
    split; [|split; [|split]].
    + intros q Hq; rewrite at0_map_range by lia.
      unfold loaded_entry, slice_first; rewrite Hc.
      destruct (Z.ltb_spec q (n * n)); [reflexivity|lia].
    + intros q Hq; rewrite at0_map_range by nia.
      unfold loaded_entry, slice_first, slice_start; rewrite Hc.
      destruct (Z.ltb_spec q (n * n)); [lia|reflexivity].
    + intros l m Hl Hm; unfold scaled_slice.
      rewrite !at0_map_range by nia.
      rewrite degree_of_index by lia; reflexivity.
    + rewrite <- is_odd_spec; exact (Hwin n Hn).
Qed.

Lemma inverse_via_ssht_slices_witness :
  exists fn f',
    snd (run (so3_core_mw_inverse_via_ssht sample_inverse_engine
                elmn2ind_layout zeroed_malloc
                (repeat C0 18) (repeat C1 10) 2 2
                SO3_STORE_NEG_FIRST_COMPACT)) = Ok f' /\
    (forall q, 0 <= q < (2 * 2 - 1) * (2 * (2 * 2 - 1)) ->
       at0 f' q
       = Csum (range 0 (2 * 2 - 1 - 1))
           (fun j =>
              (at0 fn (q mod (2 * (2 * 2 - 1)) + j * (2 * (2 * 2 - 1)))
               * Cexp (Ci * RtoC (IZR FFTW_BACKWARD
                                  * (2 * PI * IZR j
                                     * IZR (q / (2 * (2 * 2 - 1))))
                                  / IZR (2 * 2 - 1))))%C)) /\
    forall n, - 2 + 1 <= n <= 2 - 1 ->
      exists loaded scaled,
        len loaded = 2 * 2 /\ len scaled = 2 * 2 /\
        (forall q, 0 <= q < n * n -> at0 loaded q = C0) /\
        (forall q, n * n <= q < 2 * 2 ->
           at0 loaded q
           = at0 (repeat C1 10)
                 (elmn2ind_layout (Z.abs n) (- Z.abs n) n 2 2
                    SO3_STORE_NEG_FIRST_COMPACT
                  + (q - n * n))) /\
        (forall l m, 0 <= l < 2 -> - l <= m <= l ->
           at0 scaled (l * l + l + m)
           = (at0 loaded (l * l + l + m)
              * RtoC (sqrt (IZR (2 * l + 1) / (16 * PI ^ 3))))%C) /\
        window fn ((if n <? 0 then n + 2 * 2 - 1 else n) * (2 * (2 * 2 - 1)))
               (2 * (2 * 2 - 1))
        = Ok (if Z.odd n
              then map Copp (sample_inverse_engine scaled 2 (- n)
                               SSHT_DL_TRAPANI)
              else sample_inverse_engine scaled 2 (- n) SSHT_DL_TRAPANI).
Proof.
  apply (@inverse_via_ssht_slices sample_inverse_engine elmn2ind_layout
           zeroed_malloc (repeat C0 18) (repeat C1 10) 2 2
           SO3_STORE_NEG_FIRST_COMPACT).
  - reflexivity.
  - lia.
  - lia.
  - apply sample_inverse_engine_sized; lia.
  - exact zeroed_malloc_sized.
  - exact layout_2_2_in_range.
  - vm_compute; discriminate.
Defined.

(** C6.  The forward transform under compact storage.  The samples are
    Fourier-analysed forward along the orientation (length [2N-1]) and
    every value is multiplied by [2 pi/(2N-1)]; for every [n] the forward
    engine is called with pole order [-n] on the slice kept at
    orientation index [n] ([n + 2N - 1] when [n < 0]); the coefficient of
    degree [l] is multiplied by [sign * sqrt(4 pi/(2l+1))], [sign] being
    [-1] for odd [n] and [1] for even [n]; and only the coefficients with
    [l >= |n|] are written to the output, whose other entries stay. *)
Theorem forward_via_ssht_slices
        (engine : list C -> Z -> Z -> ssht_dl_method_t -> list C)
        (elmn2ind : Z -> Z -> Z -> Z -> Z -> so3_storage_t -> Z)
        (malloc : Z -> list C)
        (flmn f : list C) (L N : Z) (storage : so3_storage_t) :
  is_compact storage = true -> 1 <= L -> 1 <= N ->
  forward_engine_sized engine L -> malloc_sized malloc ->
  slices_in_range elmn2ind L N storage (len flmn) ->
  slices_disjoint elmn2ind L N storage ->
  (2 * N - 1) * (L * (2 * L - 1)) <= len f ->
  exists fn flmn',
    snd (run (so3_core_mw_forward_via_ssht engine elmn2ind malloc
                flmn f L N storage)) = Ok flmn' /\
    len flmn' = len flmn /\
    (forall q, 0 <= q < (2 * N - 1) * (L * (2 * L - 1)) ->
       at0 fn q
       = (Csum (range 0 (2 * N - 1 - 1))
            (fun j =>
               (at0 f (q mod (L * (2 * L - 1)) + j * (L * (2 * L - 1)))
                * Cexp (Ci * RtoC (IZR FFTW_FORWARD
                                   * (2 * PI * IZR j
                                      * IZR (q / (L * (2 * L - 1))))
                                   / IZR (2 * N - 1))))%C)
          * RtoC (2 * PI / IZR (2 * N - 1)))%C) /\
    (forall n, - N + 1 <= n <= N - 1 ->
       exists slice,
         window fn ((if n <? 0 then n + 2 * N - 1 else n)
                    * (L * (2 * L - 1)))
                (L * (2 * L - 1)) = Ok slice /\
         forall l m, Z.abs n <= l < L -> - l <= m <= l ->
           at0 flmn' (elmn2ind (Z.abs n) (- Z.abs n) n L N storage
                      + (l * l + l + m - n * n))
           = (at0 (engine slice L (- n)%Z SSHT_DL_TRAPANI) (l * l + l + m)
              * RtoC (IZR (if Z.odd n then -1 else 1)
                      * sqrt (4 * PI / IZR (2 * l + 1))))%C) /\
    (forall q, 0 <= q ->
       (forall n, - N + 1 <= n <= N - 1 ->
          q < elmn2ind (Z.abs n) (- Z.abs n) n L N storage \/
          elmn2ind (Z.abs n) (- Z.abs n) n L N storage + (L * L - n * n)
            <= q) ->
       at0 flmn' q = at0 flmn q).
Proof.
  intros Hc HL HN Heng Hmal Hrange Hdisj Hf.
  assert (Hsup : supported storage = true)
    by (destruct storage; try discriminate Hc; reflexivity).
  destruct (@so3_forward_ok engine elmn2ind malloc flmn f L N storage
              Hsup HL HN Heng Hmal Hrange Hdisj Hf)
    as (flmn' & Hrun & Hlen & Hw & Ho).
  set (stride := L * (2 * L - 1)) in *.
  assert (Hst : 0 < stride) by (unfold stride; nia).
  set (total := (2 * N - 1) * stride) in *.
  assert (Htot : 0 < total) by (unfold total; nia).
  assert (Hfn : len (analysed f L N) = total)
    by (unfold analysed; fold stride total; rewrite len_map_range; lia).
  exists (analysed f L N), flmn'.
  split; [rewrite Hrun; reflexivity|]; split; [exact Hlen|].
  split; [|split].
  - intros q Hq; unfold analysed; fold stride total.
    rewrite at0_map_range by lia; reflexivity.
  - intros n Hn.
    pose proof (@orientation_index_range N n Hn) as Hor.
    unfold orientation_index in Hor.
    rewrite window_ok by nia.
    eexists; split; [reflexivity|].
    intros l m Hl Hm.
    specialize (Hw n l m Hn).
    unfold first_degree, slice_start, slice_first, sign_of, raw_coeffs,
      forward_factor, orientation_index in Hw.
    rewrite Hc, is_odd_spec in Hw; fold stride in Hw.
    apply Hw; assumption.
  - intros q Hq Hout; apply Ho; [exact Hq|].
    intros n Hn; unfold slice_start, slice_first; rewrite Hc.
    apply Hout; exact Hn.
Qed.

Lemma forward_via_ssht_slices_witness :
  exists fn flmn',
    snd (run (so3_core_mw_forward_via_ssht sample_forward_engine
                elmn2ind_layout zeroed_malloc
                (repeat C0 10) (repeat C1 18) 2 2
                SO3_STORE_NEG_FIRST_COMPACT)) = Ok flmn' /\
    len flmn' = len (repeat C0 10) /\
    (forall q, 0 <= q < (2 * 2 - 1) * (2 * (2 * 2 - 1)) ->
       at0 fn q
       = (Csum (range 0 (2 * 2 - 1 - 1))
            (fun j =>
               (at0 (repeat C1 18)
                    (q mod (2 * (2 * 2 - 1)) + j * (2 * (2 * 2 - 1)))
                * Cexp (Ci * RtoC (IZR FFTW_FORWARD
                                   * (2 * PI * IZR j
                                      * IZR (q / (2 * (2 * 2 - 1))))
                                   / IZR (2 * 2 - 1))))%C)
          * RtoC (2 * PI / IZR (2 * 2 - 1)))%C) /\
    (forall n, - 2 + 1 <= n <= 2 - 1 ->
       exists slice,
         window fn ((if n <? 0 then n + 2 * 2 - 1 else n)
                    * (2 * (2 * 2 - 1)))
                (2 * (2 * 2 - 1)) = Ok slice /\
         forall l m, Z.abs n <= l < 2 -> - l <= m <= l ->
           at0 flmn' (elmn2ind_layout (Z.abs n) (- Z.abs n) n 2 2
                        SO3_STORE_NEG_FIRST_COMPACT
                      + (l * l + l + m - n * n))
           = (at0 (sample_forward_engine slice 2 (- n)%Z SSHT_DL_TRAPANI)
                  (l * l + l + m)
              * RtoC (IZR (if Z.odd n then -1 else 1)
                      * sqrt (4 * PI / IZR (2 * l + 1))))%C) /\
    (forall q, 0 <= q ->
       (forall n, - 2 + 1 <= n <= 2 - 1 ->
          q < elmn2ind_layout (Z.abs n) (- Z.abs n) n 2 2
                SO3_STORE_NEG_FIRST_COMPACT \/
          elmn2ind_layout (Z.abs n) (- Z.abs n) n 2 2
            SO3_STORE_NEG_FIRST_COMPACT + (2 * 2 - n * n) <= q) ->
       at0 flmn' q = at0 (repeat C0 10) q).
Proof.
  apply (@forward_via_ssht_slices sample_forward_engine elmn2ind_layout
           zeroed_malloc (repeat C0 10) (repeat C1 18) 2 2
           SO3_STORE_NEG_FIRST_COMPACT).
  - reflexivity.
  - lia.
  - lia.
  - apply sample_forward_engine_sized.
  - exact zeroed_malloc_sized.
  - exact layout_2_2_in_range.
  - exact layout_2_2_disjoint.
  - vm_compute; discriminate.
Defined.

(** A run that stops with a fatal error before it has allocated any
    transient buffer. *)
Definition fails_before_allocation {A} (r : list event * result A) : Prop :=
  (exists msg, snd r = Err (Fatal msg)) /\
  (forall b, ~ In (Alloc b) (fst r)).

(** C8, as stated, fails: with a storage tag outside the four layouts both
    transforms have allocated transient buffers when they report the
    error. *)
Lemma unsupported_storage_fails_after_allocation :
  ~ fails_before_allocation
      (run (so3_core_mw_inverse_via_ssht sample_inverse_engine
              elmn2ind_layout zeroed_malloc
              (repeat C0 18) (repeat C1 10) 2 2 (SO3_STORE_OTHER 4))) /\
  ~ fails_before_allocation
      (run (so3_core_mw_forward_via_ssht sample_forward_engine
              elmn2ind_layout zeroed_malloc
              (repeat C0 10) (repeat C1 18) 2 2 (SO3_STORE_OTHER 4))).
Proof.
  split.
  - rewrite so3_inverse_unsupported by lia.
    intros [_ H]; apply (H buf_fn); simpl; auto.
  - rewrite so3_forward_unsupported;
      [|lia|lia|exact zeroed_malloc_sized|vm_compute; discriminate].
    intros [_ H]; apply (H buf_fn); simpl; auto.
Qed.

(** C8, amended.  With a storage tag outside the four layouts and
    [N >= 1], both transforms stop with the fatal error
    ["Invalid storage method."], raised in the first pass of the loop
    over [n]: in the inverse after [fn] and [flm] have been allocated, in
    the forward after [ftemp] and [fn] have been allocated and [ftemp]
    freed again. *)
Theorem unsupported_storage_is_fatal
        (inverse_engine forward_engine :
           list C -> Z -> Z -> ssht_dl_method_t -> list C)
        (elmn2ind : Z -> Z -> Z -> Z -> Z -> so3_storage_t -> Z)
        (malloc : Z -> list C)
        (samples coefficients : list C) (L N tag : Z) :
  1 <= L -> 1 <= N -> malloc_sized malloc ->
  (2 * N - 1) * (L * (2 * L - 1)) <= len samples ->
  run (so3_core_mw_inverse_via_ssht inverse_engine elmn2ind malloc
         samples coefficients L N (SO3_STORE_OTHER tag))
  = ([Alloc buf_fn; Alloc buf_flm], Err (Fatal "Invalid storage method."))
  /\
  run (so3_core_mw_forward_via_ssht forward_engine elmn2ind malloc
         coefficients samples L N (SO3_STORE_OTHER tag))
  = ([Alloc buf_ftemp; Alloc buf_fn; Free buf_ftemp],
     Err (Fatal "Invalid storage method.")).
Proof.
  intros HL HN Hmal Hlen; split.
  - apply so3_inverse_unsupported; exact HN.
  - apply so3_forward_unsupported; assumption.
Qed.

Lemma unsupported_storage_is_fatal_witness :
  run (so3_core_mw_inverse_via_ssht sample_inverse_engine elmn2ind_layout
         zeroed_malloc (repeat C1 18) (repeat C0 10) 2 2
         (SO3_STORE_OTHER 4))
  = ([Alloc buf_fn; Alloc buf_flm], Err (Fatal "Invalid storage method."))
  /\
  run (so3_core_mw_forward_via_ssht sample_forward_engine elmn2ind_layout
         zeroed_malloc (repeat C0 10) (repeat C1 18) 2 2
         (SO3_STORE_OTHER 4))
  = ([Alloc buf_ftemp; Alloc buf_fn; Free buf_ftemp],
     Err (Fatal "Invalid storage method.")).
Proof.
  apply (@unsupported_storage_is_fatal sample_inverse_engine
           sample_forward_engine elmn2ind_layout zeroed_malloc
           (repeat C1 18) (repeat C0 10) 2 2 4).
  - lia.
  - lia.
  - exact zeroed_malloc_sized.
  - vm_compute; discriminate.
Defined.

(** *** The round trip of the two reference transforms at [L = 2] *)

Lemma Cexp_imag z t :
  Re z = 0%R -> Im z = t -> Cexp z = mkC (cos t) (sin t).
Proof.
  unfold Cexp; intros -> ->; rewrite exp_0; apply C_eq; simpl; ring.
Qed.

Lemma Cexp_neg_i x y :
  Cexp (- Ci * RtoC x * RtoC y) = mkC (cos (x * y)) (- sin (x * y)).
Proof.
  rewrite (@Cexp_imag _ (- (x * y))%R); [|simpl; ring|simpl; ring].
  rewrite cos_neg, sin_neg; reflexivity.
Qed.

Lemma Cexp_pos_i x y :
  Cexp (Ci * RtoC x * RtoC y) = mkC (cos (x * y)) (sin (x * y)).
Proof.
  apply Cexp_imag; simpl; ring.
Qed.

Lemma mw_thetas_2 : fst (mw_sampling 2) = [(PI / 3)%R; PI].
Proof.
  unfold mw_sampling; cbn [fst].
  change (range 0 (2 - 1)) with [0; 1]; cbn [map].
  change (IZR (2 * 2 - 1)) with 3%R.
  apply f_equal2; [field|apply f_equal2; [field|reflexivity]].
Qed.

Lemma mw_phis_2 :
  snd (mw_sampling 2) = [0%R; (2 * PI / 3)%R; (4 * PI / 3)%R].
Proof.
  unfold mw_sampling; cbn [snd].
  change (range 0 (2 * 2 - 2)) with [0; 1; 2]; cbn [map].
  change (IZR (2 * 2 - 1)) with 3%R.
  apply f_equal2; [field|apply f_equal2; [field|apply f_equal2; [field|reflexivity]]].
Qed.

(** Decide a closed integer test standing in front of real-valued
    branches. *)
Ltac eval_test :=
  match goal with
  | |- context [if ?b then _ else _] =>
      let E := fresh "E" in
      destruct b eqn:E; vm_compute in E; try discriminate E; clear E
  end.

Lemma wigner_d_0 beta : wigner_d 0 0 0 beta = 1%R.
Proof.
  unfold wigner_d; change (range 0 (2 * 0)) with [0]; cbn [fold_right].
  unfold wigner_term; eval_test.
  unfold fact_Z, pow_Z; simpl.
  replace (1 * 1 * 1 * 1)%R with 1%R by ring; rewrite sqrt_1; field.
Qed.

Lemma wigner_d_1_0_0 beta : wigner_d 1 0 0 beta = cos beta.
Proof.
  unfold wigner_d; change (range 0 (2 * 1)) with [0; 1; 2]; cbn [fold_right].
  unfold wigner_term; do 3 eval_test.
  unfold fact_Z, pow_Z; simpl.
  replace (1 * 1 * 1 * 1)%R with 1%R by ring; rewrite sqrt_1.
  replace (cos beta) with (cos (2 * (beta / 2))) by (f_equal; field).
  rewrite cos_2a; field.
Qed.

Lemma dl_at_0 theta i j :
  1 <= i <= 3 -> 1 <= j <= 3 ->
  mat (dl_at wigner_dl 2 theta 0) i j
  = if (i =? 2) && (j =? 2) then C1 else C0.
Proof.
  intros Hi Hj; unfold dl_at; cbn [Z.to_nat dl_after]; unfold wigner_dl.
  change (2 * 2 - 1) with 3.
  rewrite mat_tabulate by lia.
  assert (Ei : i = 1 \/ i = 2 \/ i = 3) by lia.
  assert (Ej : j = 1 \/ j = 2 \/ j = 3) by lia.
  destruct Ei as [-> | [-> | ->]], Ej as [-> | [-> | ->]];
    eval_test; rewrite ?mat_zeros; try reflexivity.
  change (2 - 2) with 0; rewrite wigner_d_0; reflexivity.
Qed.

Lemma dl_at_1_centre theta :
  mat (dl_at wigner_dl 2 theta 1) 2 2 = RtoC (cos theta).
Proof.
  unfold dl_at; change (Z.to_nat 1) with 1%nat; cbn [dl_after].
  unfold wigner_dl at 1.
  change (2 * 2 - 1) with 3.
  rewrite mat_tabulate by lia.
  eval_test.
  change (2 - 2) with 0; rewrite wigner_d_1_0_0; reflexivity.
Qed.

Lemma dl_at_0_L1 theta : mat (dl_at wigner_dl 1 theta 0) 1 1 = C1.
Proof.
  unfold dl_at; cbn [Z.to_nat dl_after]; unfold wigner_dl.
  change (2 * 1 - 1) with 1.
  rewrite mat_tabulate by lia.
  eval_test.
  change (1 - 1) with 0; rewrite wigner_d_0; reflexivity.
Qed.

Lemma sqrt_inv_4PI_sqr :
  (sqrt (1 / (4 * PI)) * sqrt (1 / (4 * PI)) = 1 / (4 * PI))%R.
Proof.
  pose proof PI_RGT_0.
  apply sqrt_sqrt, Rlt_le, Rdiv_lt_0_compat; lra.
Qed.

(** At [L = 1] the slip is invisible: the round trip returns the single
    coefficient it was given. *)
Lemma round_trip_at_L1 (c : C) :
  exists f,
    inverse_direct mw_sampling wigner_dl 1 [c] = Ok f /\
    forward_for_dft mw_sampling wigner_dl 1 f = Ok [c].
Proof.
  destruct (@inverse_direct_ok mw_sampling wigner_dl 1 [c])
    as (f & Hinv & Hd & Hval);
    [exact wigner_dl_keeps_dims|apply mw_sampling_sizes; lia|lia|reflexivity|].
  destruct (@forward_for_dft_ok mw_sampling wigner_dl 1 f)
    as (flm' & Hfwd & Hrun);
    [exact wigner_dl_keeps_dims|apply mw_sampling_sizes; lia|lia|exact Hd|].
  exists f; split; [exact Hinv|]; rewrite Hfwd; f_equal.
  set (b := sqrt (1 / (4 * PI))).
  assert (F : mat f 1 1 = (c * RtoC b)%C).
  { rewrite (Hval 1 1) by lia; unfold point_value.
    change (range 0 (1 - 1)) with [0]; cbn [Csum fold_right].
    change (range (- 0) 0) with [0]; cbn [Csum fold_right].
    unfold harmonic_term.
    change (vat C0 [c] (0 * 0 + 0 + 0 + 1)) with c.
    change (0 + 1) with 1.
    rewrite dl_at_0_L1, Cexp_pos_i, Rmult_0_l, cos_0, sin_0.
    replace (2 * 0 + 1)%R with 1%R by ring; fold b.
    apply C_eq; simpl; ring. }
  destruct Hrun as [fm fmm gmm Dfm Dfmm Dgmm Hlen Hfm Hfmm Hgmm Hflm].
  destruct (Hfm 0 0) as [E1 _]; [lia|lia|].
  pose proof (Hfmm 0 0 ltac:(lia) ltac:(lia)) as E2.
  pose proof (Hgmm 0 0 ltac:(lia) ltac:(lia)) as E3.
  pose proof (Hflm 0 0 ltac:(lia) ltac:(lia)) as E4.
  unfold fm_value in E1; unfold fmm_value in E2; unfold gmm_value in E3;
    unfold flm_value in E4.
  change (range 1 (len (snd (mw_sampling 1)))) with [1] in E1.
  change (range 0 (len (extend_thetas (fst (mw_sampling 1))) - 1))
    with [0] in E2.
  change (range (- (1) + 1) (1 - 1)) with [0] in E3, E4.
  cbn [Csum fold_right] in E1, E2, E3, E4.
  change (mat f (0 + 1) 1) with (mat f 1 1) in E1.
  change (mat fm (1 + 0) (0 + 1)) with (mat fm (1 + 0) (1 + 0)) in E2.
  change (0 - 0) with 0 in E3.
  rewrite F, Cexp_neg_i, Rmult_0_l, cos_0, sin_0 in E1.
  rewrite E1, Cexp_neg_i, Rmult_0_l, cos_0, sin_0 in E2.
  rewrite E2, (@w_even 0) in E3 by (try reflexivity; discriminate).
  change (mat (dl_at wigner_dl 1 (PI / 2) 0) (1 + 0) (1 + 0))
    with (mat (dl_at wigner_dl 1 (PI / 2) 0) 1 1) in E4.
  change (mat (dl_at wigner_dl 1 (PI / 2) 0) (1 + 0) 1)
    with (mat (dl_at wigner_dl 1 (PI / 2) 0) 1 1) in E4.
  rewrite dl_at_0_L1, E3 in E4.
  change (IZR (2 * 1 - 1)) with 1%R in E4.
  rewrite !Cdiv_RtoC_r in E4 by lra.
  change (vat C0 flm' (0 * 0 + 0 + 0 + 1)) with (vat C0 flm' 1) in E4.
  replace (2 * 0 + 1)%R with 1%R in E4 by ring; fold b in E4.
  assert (V : vat C0 flm' 1 = c).
  { rewrite E4; pose proof sqrt_inv_4PI_sqr as Hb; fold b in Hb.
    pose proof PI_RGT_0 as Hpi.
    assert (Hbb : (4 * PI * (b * b) = 1)%R) by (rewrite Hb; field; lra).
    destruct c as [cr ci]; apply C_eq; simpl.
    - transitivity (cr * (4 * PI * (b * b)))%R; [field|rewrite Hbb; ring].
    - transitivity (ci * (4 * PI * (b * b)))%R; [field|rewrite Hbb; ring]. }
  unfold len in Hlen; change (1 ^ 2) with 1 in Hlen.
  destruct flm' as [|v [|v' r]]; cbn [length] in Hlen; try lia.
  change (vat C0 [v] 1) with v in V; rewrite V; reflexivity.
Qed.

(** The coefficient vector of the single harmonic [(l, m) = (1, 0)] at
    [L = 2]. *)
Definition probe : list C := [C0; C0; C1; C0].

Lemma point_value_probe theta phi :
  point_value wigner_dl 2 probe theta phi
  = RtoC (sqrt (3 / (4 * PI)) * cos theta).
Proof.
  unfold point_value.
  change (range 0 (2 - 1)) with [0; 1]; cbn [Csum fold_right].
  change (range (- 0) 0) with [0].
  change (range (- (1)) 1) with [-1; 0; 1]; cbn [Csum fold_right].
  unfold harmonic_term.
  change (vat C0 probe (0 * 0 + 0 + 0 + 1)) with C0.
  change (vat C0 probe (1 * 1 + 1 + -1 + 1)) with C0.
  change (vat C0 probe (1 * 1 + 1 + 0 + 1)) with C1.
  change (vat C0 probe (1 * 1 + 1 + 1 + 1)) with C0.
  change (0 + 2) with 2.
  rewrite dl_at_1_centre, Cexp_pos_i.
  rewrite Rmult_0_l, cos_0, sin_0.
  replace (2 * 1 + 1)%R with 3%R by ring.
  apply C_eq; simpl; ring.
Qed.

Lemma fm_value_const f phis t v :
  len phis = 3 ->
  (forall k, 1 <= k <= 3 -> mat f (t + 1) k = RtoC v) ->
  fm_value 2 f phis 0 t = RtoC v.
Proof.
  intros Hlen H; unfold fm_value; rewrite Hlen.
  change (range 1 3) with [1; 2; 3]; cbn [Csum fold_right].
  rewrite !H by lia; rewrite !Cexp_neg_i, !Rmult_0_l, cos_0, sin_0.
  change (IZR (2 * 2 - 1)) with 3%R.
  rewrite Cdiv_RtoC_r by lra; apply C_eq; simpl; field.
Qed.

Lemma cos_2PI_minus a : cos (2 * PI - a) = cos a.
Proof. rewrite cos_minus, cos_2PI, sin_2PI; ring. Qed.

Lemma sin_2PI_minus a : sin (2 * PI - a) = (- sin a)%R.
Proof. rewrite sin_minus, cos_2PI, sin_2PI; ring. Qed.

Lemma extend_thetas_2 :
  extend_thetas (fst (mw_sampling 2))
  = [(PI / 3)%R; PI; (2 * PI - PI / 3)%R].
Proof. rewrite mw_thetas_2; reflexivity. Qed.

(** The coefficient [(0, 0)] that [forward_for_dft] returns at [L = 2] for
    samples that do not depend on the longitude: [x] on the first
    colatitude, [y] on the second. *)
Section FirstCoefficient.

Variables (f : matrix) (x y : R) (flm' : list C).
Hypothesis Hf : has_dims f 2 3.
Hypothesis Hx : forall k, 1 <= k <= 3 -> mat f 1 k = RtoC x.
Hypothesis Hy : forall k, 1 <= k <= 3 -> mat f 2 k = RtoC y.
Hypothesis Hrun : forward_run mw_sampling wigner_dl 2 f flm'.

Lemma first_coefficient :
  vat C0 flm' 1
  = RtoC (4 * PI * ((x + 2 * y) / 3) * sqrt (1 / (4 * PI))).
Proof.
  destruct Hrun as [fm fmm gmm Dfm Dfmm Dgmm Hlen Hfm Hfmm Hgmm Hflm].
  rewrite mw_phis_2 in Hfm; rewrite extend_thetas_2 in Hfmm.
  (* row 2 of fm *)
  assert (F2 : mat fm 2 2 = RtoC x).
  { destruct (Hfm 0 0) as [E _]; [lia|lia|].
    rewrite (@fm_value_const f _ 0 x) in E; [exact E|reflexivity|exact Hx]. }
  assert (F3 : mat fm 2 3 = RtoC y /\ mat fm 2 1 = RtoC y).
  { destruct (Hfm 0 1) as [E1 E2]; [lia|lia|].
    rewrite (@fm_value_const f _ 1 y) in E1, E2;
      [|reflexivity|exact Hy|reflexivity|exact Hy].
    split; [exact E1|].
    specialize (E2 ltac:(lia)).
    change (mat fm 2 1 = (RtoC (powerRZ (-1) 0) * RtoC y)%C) in E2.
    rewrite E2; apply C_eq; simpl; ring. }
  destruct F3 as [F3 F1].
  (* row 2 of fmm *)
  set (c := ((2 * y * cos (PI / 3) - x) / 3)%R).
  assert (M : mat fmm 2 1 = RtoC c /\
              mat fmm 2 2 = RtoC ((x + 2 * y) / 3) /\
              mat fmm 2 3 = RtoC c).
  { pose proof (Hfmm 0 (-1) ltac:(lia) ltac:(lia)) as Em.
    pose proof (Hfmm 0 0 ltac:(lia) ltac:(lia)) as E0.
    pose proof (Hfmm 0 1 ltac:(lia) ltac:(lia)) as Ep.
    unfold fmm_value in Em, E0, Ep.
    change (mat fmm (2 + 0) (2 + -1)) with (mat fmm 2 1) in Em.
    change (mat fmm (2 + 0) (2 + 0)) with (mat fmm 2 2) in E0.
    change (mat fmm (2 + 0) (2 + 1)) with (mat fmm 2 3) in Ep.
    change (range 0 (len [(PI / 3)%R; PI; (2 * PI - PI / 3)%R] - 1))
      with [0; 1; 2] in Em, E0, Ep.
    cbn [Csum fold_right] in Em, E0, Ep.
    change (mat fm (2 + 0) (0 + 1)) with (mat fm 2 1) in Em, E0, Ep.
    change (mat fm (2 + 0) (1 + 1)) with (mat fm 2 2) in Em, E0, Ep.
    change (mat fm (2 + 0) (2 + 1)) with (mat fm 2 3) in Em, E0, Ep.
    rewrite F1, F2, F3, !Cexp_neg_i in Em, E0, Ep.
    change (vat 0%R [(PI / 3)%R; PI; (2 * PI - PI / 3)%R] (0 + 1))
      with (PI / 3)%R in Em, E0, Ep.
    change (vat 0%R [(PI / 3)%R; PI; (2 * PI - PI / 3)%R] (1 + 1))
      with PI in Em, E0, Ep.
    change (vat 0%R [(PI / 3)%R; PI; (2 * PI - PI / 3)%R] (2 + 1))
      with (2 * PI - PI / 3)%R in Em, E0, Ep.
    change (IZR (2 * 2 - 1)) with 3%R in Em, E0, Ep.
    rewrite Cdiv_RtoC_r in Em, E0, Ep by lra.
    split; [|split].
    - rewrite Em.
      replace (-1 * (PI / 3))%R with (- (PI / 3))%R by ring.
      replace (-1 * PI)%R with (- PI)%R by ring.
      replace (-1 * (2 * PI - PI / 3))%R with (- (2 * PI - PI / 3))%R by ring.
      rewrite !cos_neg, !sin_neg, cos_2PI_minus, sin_2PI_minus, cos_PI, sin_PI.
      unfold c; apply C_eq; simpl; field.
    - rewrite E0.
      rewrite !Rmult_0_l, cos_0, sin_0; apply C_eq; simpl; field.
    - rewrite Ep.
      rewrite !Rmult_1_l, cos_2PI_minus, sin_2PI_minus, cos_PI, sin_PI.
      unfold c; apply C_eq; simpl; field. }
  destruct M as (M1 & M2 & M3).
  (* the centre of gmm *)
  assert (G : mat gmm 2 2 = RtoC (4 * PI * ((x + 2 * y) / 3))).
  { pose proof (Hgmm 0 0 ltac:(lia) ltac:(lia)) as E.
    unfold gmm_value in E.
    change (mat gmm (2 + 0) (2 + 0)) with (mat gmm 2 2) in E.
    change (range (- (2) + 1) (2 - 1)) with [-1; 0; 1] in E.
    cbn [Csum fold_right] in E.
    change (mat fmm (2 + 0) (2 + -1)) with (mat fmm 2 1) in E.
    change (mat fmm (2 + 0) (2 + 0)) with (mat fmm 2 2) in E.
    change (mat fmm (2 + 0) (2 + 1)) with (mat fmm 2 3) in E.
    rewrite M1, M2, M3 in E.
    change (-1 - 0) with (-1) in E; change (0 - 0) with 0 in E;
      change (1 - 0) with 1 in E.
    rewrite (@w_unit (-1)), (@w_unit 1), (@w_even 0) in E
      by (try reflexivity; discriminate).
    rewrite E.
    apply C_eq; simpl; field. }
  (* the first coefficient *)
  pose proof (Hflm 0 0 ltac:(lia) ltac:(lia)) as E.
  change (vat C0 flm' (0 * 0 + 0 + 0 + 1)) with (vat C0 flm' 1) in E.
  rewrite E; unfold flm_value.
  change (range (- (2) + 1) (2 - 1)) with [-1; 0; 1].
  cbn [Csum fold_right].
  rewrite !dl_at_0 by lia.
  repeat eval_test.
  change (mat gmm (2 + 0) (2 + 0)) with (mat gmm 2 2); rewrite G.
  replace (2 * 0 + 1)%R with 1%R by ring.
  apply C_eq; simpl; ring.
Qed.

End FirstCoefficient.

Lemma sqrt_3_over_4PI :
  (sqrt (3 / (4 * PI)) * sqrt (1 / (4 * PI)) = sqrt 3 / (4 * PI))%R.
Proof.
  pose proof PI_RGT_0 as Hpi.
  assert (H4 : (0 < 4 * PI)%R) by lra.
  rewrite <- sqrt_mult by (apply Rlt_le, Rdiv_lt_0_compat; lra).
  replace (3 / (4 * PI) * (1 / (4 * PI)))%R
    with (3 * (/ (4 * PI) * / (4 * PI)))%R by (field; lra).
  rewrite sqrt_mult; [|lra|].
  - rewrite sqrt_square; [field; lra|].
    apply Rlt_le, Rinv_0_lt_compat; exact H4.
  - apply Rlt_le, Rmult_lt_0_compat; apply Rinv_0_lt_compat; exact H4.
Qed.

(** C1, at [L = 2] on the McEwen-Wiaux grid with Wigner's d-functions:
    for the coefficients [(0, 0, 1, 0)] of the harmonic [(1, 0)] both
    transforms return, and the coefficient [(0, 0)] that
    [forward_for_dft] gives back for the samples of [inverse_direct] is
    [- sqrt(3)/2], not the [0] it started from: the round trip does not
    return the original vector. *)
Theorem forward_of_inverse_probe :
  exists f flm',
    inverse_direct mw_sampling wigner_dl 2 probe = Ok f /\
    forward_for_dft mw_sampling wigner_dl 2 f = Ok flm' /\
    vat C0 flm' 1 = RtoC (- sqrt 3 / 2) /\
    vat C0 probe 1 = C0 /\
    flm' <> probe.
Proof.
  destruct (@inverse_direct_ok mw_sampling wigner_dl 2 probe)
    as (f & Hinv & Hd & Hval);
    [exact wigner_dl_keeps_dims|apply mw_sampling_sizes; lia|lia|reflexivity|].
  destruct (@forward_for_dft_ok mw_sampling wigner_dl 2 f)
    as (flm' & Hfwd & Hrun);
    [exact wigner_dl_keeps_dims|apply mw_sampling_sizes; lia|lia|exact Hd|].
  rewrite mw_thetas_2 in Hval.
  set (a := sqrt (3 / (4 * PI))).
  assert (Hx : forall k, 1 <= k <= 3 -> mat f 1 k = RtoC (a * (1 / 2))).
  { intros k Hk; rewrite (Hval 1 k) by lia.
    rewrite point_value_probe.
    change (vat 0%R [(PI / 3)%R; PI] 1) with (PI / 3)%R.
    rewrite cos_PI3; reflexivity. }
  assert (Hy : forall k, 1 <= k <= 3 -> mat f 2 k = RtoC (a * -1)).
  { intros k Hk; rewrite (Hval 2 k) by lia.
    rewrite point_value_probe.
    change (vat 0%R [(PI / 3)%R; PI] 2) with PI.
    rewrite cos_PI; reflexivity. }
  pose proof (@first_coefficient f _ _ flm' Hx Hy Hrun) as E.
  assert (E' : vat C0 flm' 1 = RtoC (- sqrt 3 / 2)).
  { rewrite E; f_equal; pose proof PI_RGT_0.
    replace (4 * PI * ((a * (1 / 2) + 2 * (a * -1)) / 3)
             * sqrt (1 / (4 * PI)))%R
      with (- (2 * PI) * (a * sqrt (1 / (4 * PI))))%R by (field; lra).
    unfold a; rewrite sqrt_3_over_4PI; field; lra. }
  exists f, flm'; repeat split; try assumption.
  intros Heq; rewrite Heq in E'.
  change (vat C0 probe 1) with (RtoC 0) in E'.
  apply RtoC_inj in E'.
  pose proof (sqrt_lt_R0 3 ltac:(lra)); lra.
Qed.

(** ** Further properties of the reference transforms on the sphere *)

(** *** The size checks of [forward_for_dft] and [inverse_direct] *)

(** X1.  [forward_for_dft] checks the size of [f] and nothing else: with
    [L >= 1] it stops with the error
    ['Parameter f has to contain L * (2*L-1) coefficients.'] exactly when
    [f] is not [L x (2L-1)], and returns a vector of [L^2] coefficients
    exactly when it is. *)
Theorem forward_for_dft_size_check
        (ssht_sampling : Z -> list R * list R)
        (ssht_dl : matrix -> Z -> Z -> R -> matrix)
        (L : Z) (f : matrix) :
  dl_keeps_dims ssht_dl -> sampling_sizes ssht_sampling L -> 1 <= L ->
  len (mdata f) = nrows f * ncols f ->
  (forward_for_dft ssht_sampling ssht_dl L f
   = Err (Fatal "Parameter f has to contain L * (2*L-1) coefficients.")
   <-> nrows f <> L \/ ncols f <> 2 * L - 1) /\
  ((exists flm, forward_for_dft ssht_sampling ssht_dl L f = Ok flm /\
                len flm = L ^ 2)
   <-> nrows f = L /\ ncols f = 2 * L - 1).
Proof.
  intros Hk Hs HL Hwf.
  destruct (Z.eq_dec (nrows f) L) as [Er|Er];
    [destruct (Z.eq_dec (ncols f) (2 * L - 1)) as [Ec|Ec]|].
  - assert (Hf : has_dims f L (2 * L - 1)).
    { unfold has_dims; repeat split; try assumption.
      unfold len in Hwf; rewrite Hwf, Er, Ec; reflexivity. }
    destruct (@forward_for_dft_ok ssht_sampling ssht_dl L f Hk Hs HL Hf)
      as (flm & Hrun & Hfr).
    destruct Hfr as [fm fmm gmm _ _ _ Hlen _ _ _ _].
    rewrite Hrun; split; split.
    + discriminate.
    + intros [H|H]; contradiction.
    + intros _; split; assumption.
    + intros _; exists flm; split; [reflexivity|exact Hlen].
  - assert (E : forward_for_dft ssht_sampling ssht_dl L f
                = Err (Fatal
                  "Parameter f has to contain L * (2*L-1) coefficients.")).
    { unfold forward_for_dft.
      destruct (Z.eqb_spec (ncols f) (2 * L - 1)); [contradiction|].
      rewrite orb_true_r; reflexivity. }
    rewrite E; split; split.
    + intros _; right; exact Ec.
    + reflexivity.
    + intros (flm & H & _); discriminate H.
    + intros [_ H]; contradiction.
  - assert (E : forward_for_dft ssht_sampling ssht_dl L f
                = Err (Fatal
                  "Parameter f has to contain L * (2*L-1) coefficients.")).
    { unfold forward_for_dft.
      destruct (Z.eqb_spec (nrows f) L); [contradiction|reflexivity]. }
    rewrite E; split; split.
    + intros _; left; exact Er.
    + reflexivity.
    + intros (flm & H & _); discriminate H.
    + intros [H _]; contradiction.
Qed.

Lemma forward_for_dft_size_check_witness :
  (forward_for_dft mw_sampling wigner_dl 2 (zeros 2 2)
   = Err (Fatal "Parameter f has to contain L * (2*L-1) coefficients.")
   <-> nrows (zeros 2 2) <> 2 \/ ncols (zeros 2 2) <> 2 * 2 - 1) /\
  ((exists flm, forward_for_dft mw_sampling wigner_dl 2 (zeros 2 2) = Ok flm /\
                len flm = 2 ^ 2)
   <-> nrows (zeros 2 2) = 2 /\ ncols (zeros 2 2) = 2 * 2 - 1).
Proof.
  apply (@forward_for_dft_size_check mw_sampling wigner_dl 2 (zeros 2 2)).
  - exact wigner_dl_keeps_dims.
  - apply mw_sampling_sizes; lia.
  - lia.
  - reflexivity.
Defined.

(** X2.  [inverse_direct] checks the length of [flm] and nothing else: with
    [L >= 1] it stops with the error
    ['Parameter flm has to contain L^2 coefficients.'] exactly when [flm]
    does not have [L^2] entries, and returns an [L x (2L-1)] array of
    samples exactly when it has. *)
Theorem inverse_direct_size_check
        (ssht_sampling : Z -> list R * list R)
        (ssht_dl : matrix -> Z -> Z -> R -> matrix)
        (L : Z) (flm : list C) :
  dl_keeps_dims ssht_dl -> sampling_sizes ssht_sampling L -> 1 <= L ->
  (inverse_direct ssht_sampling ssht_dl L flm
   = Err (Fatal "Parameter flm has to contain L^2 coefficients.")
   <-> len flm <> L ^ 2) /\
  ((exists f, inverse_direct ssht_sampling ssht_dl L flm = Ok f /\
              has_dims f L (2 * L - 1))
   <-> len flm = L ^ 2).
Proof.
  intros Hk Hs HL.
  destruct (Z.eq_dec (len flm) (L ^ 2)) as [E|E].
  - destruct (@inverse_direct_ok ssht_sampling ssht_dl L flm Hk Hs HL E)
      as (f & Hrun & Hd & _).
    rewrite Hrun; split; split.
    + discriminate.
    + intros H; contradiction.
    + intros _; exact E.
    + intros _; exists f; split; [reflexivity|exact Hd].
  - assert (Hrun : inverse_direct ssht_sampling ssht_dl L flm
                   = Err (Fatal
                       "Parameter flm has to contain L^2 coefficients.")).
    { unfold inverse_direct.
      destruct (Z.eqb_spec (len flm) (L ^ 2)); [contradiction|reflexivity]. }
    rewrite Hrun; split; split.
    + intros _; exact E.
    + reflexivity.
    + intros (f & H & _); discriminate H.
    + intros H; contradiction.
Qed.

Lemma inverse_direct_size_check_witness :
  (inverse_direct mw_sampling wigner_dl 2 [C1; C0; C0]
   = Err (Fatal "Parameter flm has to contain L^2 coefficients.")
   <-> len [C1; C0; C0] <> 2 ^ 2) /\
  ((exists f, inverse_direct mw_sampling wigner_dl 2 [C1; C0; C0] = Ok f /\
              has_dims f 2 (2 * 2 - 1))
   <-> len [C1; C0; C0] = 2 ^ 2).
Proof.
  apply (@inverse_direct_size_check mw_sampling wigner_dl 2 [C1; C0; C0]).
  - exact wigner_dl_keeps_dims.
  - apply mw_sampling_sizes; lia.
  - lia.
Defined.

Lemma upd_repeat {A} (x : A) n k :
  (n < k)%nat -> upd n x (repeat x k) = repeat x k.
Proof.
  revert k; induction n as [|n IH]; intros k H;
    (destruct k as [|k]; [lia|]).
  - reflexivity.
  - change (upd (S n) x (repeat x (S k))) with (x :: upd n x (repeat x k)).
    rewrite IH by lia; reflexivity.
Qed.

Lemma mset_zeros r c j k :
  1 <= j <= r -> 1 <= k <= c -> mset (zeros r c) j k C0 = Ok (zeros r c).
Proof.
  intros Hj Hk.
  assert (Hd : has_dims (zeros r c) r c) by (apply zeros_dims; lia).
  pose proof (lin_bounds Hd Hj Hk) as Hl.
  unfold mset; rewrite (in_dims_true Hd Hj Hk), (vset_ok _ _ Hl).
  cbn [bind]; unfold zeros in *; cbn [nrows ncols mdata] in *.
  rewrite repeat_length in Hl.
  rewrite upd_repeat by lia; reflexivity.
Qed.

(** X3.  Neither transform asks for a positive band-limit.  With [L <= 0]
    [forward_for_dft] rejects every array, since no array has [2L-1]
    columns; [inverse_direct] accepts a vector of [L^2] coefficients (the
    empty one for [L = 0]) and, its loops over the degree being empty,
    returns the all-zero array on the grid [ssht_sampling] gave. *)
Theorem nonpositive_band_limit
        (ssht_sampling : Z -> list R * list R)
        (ssht_dl : matrix -> Z -> Z -> R -> matrix)
        (L : Z) (f : matrix) (flm : list C) :
  L <= 0 -> 0 <= ncols f -> len flm = L ^ 2 ->
  forward_for_dft ssht_sampling ssht_dl L f
  = Err (Fatal "Parameter f has to contain L * (2*L-1) coefficients.") /\
  inverse_direct ssht_sampling ssht_dl L flm
  = Ok (zeros (len (fst (ssht_sampling L))) (len (snd (ssht_sampling L)))).
Proof.
  intros HL Hc Hlen; split.
  - unfold forward_for_dft.
    destruct (Z.eqb_spec (ncols f) (2 * L - 1)); [lia|].
    rewrite orb_true_r; reflexivity.
  - unfold inverse_direct; rewrite Hlen, Z.eqb_refl; cbn [negb].
    destruct (ssht_sampling L) as [thetas phis]; cbn [fst snd].
    set (Z0 := zeros (len thetas) (len phis)).
    destruct (@for_range_inv matrix (fun _ g => g = Z0)
                (fun j f0 =>
                   theta <- vget thetas j ;;
                   for_each (range 1 (len phis))
                     (fun k f1 =>
                        phi <- vget phis k ;;
                        st <- synthesise_point ssht_dl L flm theta phi ;;
                        mset f1 j k (pt_sum st)) f0)
                1 (len thetas) Z0) as (g & Hrun & Hg).
    + unfold len; lia.
    + reflexivity.
    + intros j g Hj ->.
      rewrite (vget_ok 0%R) by (unfold len in Hj; lia); cbn [bind].
      destruct (@for_range_inv matrix (fun _ g => g = Z0)
                  (fun k f1 =>
                     phi <- vget phis k ;;
                     st <- synthesise_point ssht_dl L flm
                             (vat 0%R thetas j) phi ;;
                     mset f1 j k (pt_sum st))
                  1 (len phis) Z0) as (g & Hrun & Hg).
      * unfold len; lia.
      * reflexivity.
      * intros k g Hk ->.
        rewrite (vget_ok 0%R) by (unfold len in Hk; lia); cbn [bind].
        unfold synthesise_point; rewrite range_nil by lia.
        cbn [for_each bind pt_sum].
        exists Z0; split; [|reflexivity].
        apply mset_zeros; assumption.
      * exists g; split; assumption.
    + rewrite Hrun, Hg; reflexivity.
Qed.

Lemma nonpositive_band_limit_witness :
  forward_for_dft mw_sampling wigner_dl (- (1)) (zeros 0 0)
  = Err (Fatal "Parameter f has to contain L * (2*L-1) coefficients.") /\
  inverse_direct mw_sampling wigner_dl (- (1)) [C1]
  = Ok (zeros (len (fst (mw_sampling (- (1)))))
              (len (snd (mw_sampling (- (1)))))).
Proof.
  apply (@nonpositive_band_limit mw_sampling wigner_dl (- (1)) (zeros 0 0)
           [C1]).
  - lia.
  - simpl; lia.
  - reflexivity.
Defined.

(** *** The extended colatitudes *)

(** X4.  [thetasExt = [thetas; 2*pi - thetas(end-1:-1:1)]] has [2L-1]
    entries for [L] colatitudes: the first [L] are the colatitudes
    themselves, and entry [L + t], for [t = 1 .. L-1], is
    [2 pi - thetas(L - t)]; the last colatitude is not repeated. *)
Theorem extended_colatitudes (thetas : list R) (L : Z) :
  1 <= L -> len thetas = L ->
  len (extend_thetas thetas) = 2 * L - 1 /\
  (forall t, 1 <= t <= L ->
     vat 0%R (extend_thetas thetas) t = vat 0%R thetas t) /\
  (forall t, 1 <= t <= L - 1 ->
     vat 0%R (extend_thetas thetas) (L + t)
     = (2 * PI - vat 0%R thetas (L - t))%R).
Proof.
  intros HL Hlen; split; [rewrite extend_thetas_len; lia|].
  unfold extend_thetas, vat, len in *; split.
  - intros t Ht; apply app_nth1; lia.
  - intros t Ht.
    rewrite app_nth2 by lia.
    assert (Hrl : length (removelast thetas) = Z.to_nat (L - 1)).
    { rewrite removelast_firstn_len, length_firstn; lia. }
    rewrite (nth_indep _ 0%R (2 * PI - 0)%R)
      by (rewrite length_map, length_rev; lia).
    rewrite (map_nth (fun x => (2 * PI - x)%R)).
    rewrite rev_nth by lia.
    rewrite removelast_firstn_len, nth_firstn.
    destruct (Nat.ltb_spec
                (length (firstn (Init.Nat.pred (length thetas)) thetas)
                 - S (Z.to_nat (L + t - 1) - length thetas))
                (Init.Nat.pred (length thetas))) as [Hlt|Hge].
    + do 2 f_equal; rewrite length_firstn; lia.
    + rewrite length_firstn in Hge; lia.
Qed.

Lemma extended_colatitudes_witness :
  len (extend_thetas [1%R; 2%R; 3%R]) = 2 * 3 - 1 /\
  (forall t, 1 <= t <= 3 ->
     vat 0%R (extend_thetas [1%R; 2%R; 3%R]) t
     = vat 0%R [1%R; 2%R; 3%R] t) /\
  (forall t, 1 <= t <= 3 - 1 ->
     vat 0%R (extend_thetas [1%R; 2%R; 3%R]) (3 + t)
     = (2 * PI - vat 0%R [1%R; 2%R; 3%R] (3 - t))%R).
Proof.
  apply (@extended_colatitudes [1%R; 2%R; 3%R] 3).
  - lia.
  - reflexivity.
Defined.

(** *** Steps 3 and 5 of [forward_for_dft] *)

(** X5.  Step 3 of [forward_for_dft]: every entry [fmm(L+m, L+mp)] is the
    sum over [t = 0 .. 2L-2] of [fm(L+m, t+1) * exp(-i mp thetasExt(t+1))],
    divided by [2L-1]; column [t+1] of [fm] is the one read against the
    extended colatitude [t+1].  Whatever [fmm] held before is
    overwritten. *)
Theorem step_3_polar_analysis (L : Z) (thetasExt : list R)
        (fm fmm0 : matrix) :
  1 <= L -> len thetasExt = 2 * L - 1 ->
  has_dims fm (2 * L - 1) (2 * L - 1) ->
  has_dims fmm0 (2 * L - 1) (2 * L - 1) ->
  exists fmm,
    step_3 L thetasExt fm fmm0 = Ok fmm /\
    has_dims fmm (2 * L - 1) (2 * L - 1) /\
    forall m mp, - L + 1 <= m <= L - 1 -> - L + 1 <= mp <= L - 1 ->
      mat fmm (L + m) (L + mp)
      = (Csum (range 0 (2 * L - 2))
           (fun t => mat fm (L + m) (t + 1)
                     * Cexp (- Ci * RtoC (IZR mp)
                             * RtoC (vat 0%R thetasExt (t + 1))))
         / RtoC (IZR (2 * L - 1)))%C.
Proof.
  intros HL Hlen Hfm H0.
  destruct (@step_3_ok L thetasExt fm fmm0 HL Hlen Hfm H0)
    as (fmm & Hrun & Hd & Hv).
  exists fmm; split; [exact Hrun|]; split; [exact Hd|].
  intros m mp Hm Hmp; rewrite (Hv m mp Hm Hmp); unfold fmm_value.
  rewrite Hlen; replace (2 * L - 1 - 1) with (2 * L - 2) by lia.
  reflexivity.
Qed.

Lemma step_3_polar_analysis_witness :
  exists fmm,
    step_3 2 [0%R; 1%R; 2%R] (sample_matrix 3 3) (zeros 3 3) = Ok fmm /\
    has_dims fmm (2 * 2 - 1) (2 * 2 - 1) /\
    forall m mp, - 2 + 1 <= m <= 2 - 1 -> - 2 + 1 <= mp <= 2 - 1 ->
      mat fmm (2 + m) (2 + mp)
      = (Csum (range 0 (2 * 2 - 2))
           (fun t => mat (sample_matrix 3 3) (2 + m) (t + 1)
                     * Cexp (- Ci * RtoC (IZR mp)
                             * RtoC (vat 0%R [0%R; 1%R; 2%R] (t + 1))))
         / RtoC (IZR (2 * 2 - 1)))%C.
Proof.
  apply (@step_3_polar_analysis 2 [0%R; 1%R; 2%R] (sample_matrix 3 3)
           (zeros 3 3)).
  - lia.
  - reflexivity.
  - apply (@sample_matrix_dims 3 3); lia.
  - apply (@zeros_dims 3 3); lia.
Defined.

(** X6.  Step 5 of [forward_for_dft]: the running index [lmi] puts the
    coefficient of degree [l] and order [m] at [l^2 + l + m + 1], and its
    value is the sum over [mp] of [dl(L+mp, L+m) * dl(L+mp, L) *
    gmm(L+m, L+mp)] times [i^m * sqrt((2l+1)/(4 pi))], [dl] being the
    plane of degree [l] at [pi/2] reached by advancing [ssht_dl] from the
    zero plane.  All [L^2] entries of [flm] are written, so what [flm]
    held before does not matter. *)
Theorem step_5_coefficients
        (ssht_dl : matrix -> Z -> Z -> R -> matrix)
        (L : Z) (gmm : matrix) (flm0 : list C) :
  dl_keeps_dims ssht_dl -> 1 <= L ->
  has_dims gmm (2 * L - 1) (2 * L - 1) -> len flm0 = L ^ 2 ->
  exists st,
    step_5 ssht_dl L gmm flm0 = Ok st /\
    len (s5_flm st) = L ^ 2 /\
    (forall l m, 0 <= l <= L - 1 -> - l <= m <= l ->
       vat C0 (s5_flm st) (l * l + l + m + 1)
       = (Csum (range (- L + 1) (L - 1))
            (fun mp => mat (dl_at ssht_dl L (PI / 2) l) (L + mp) (L + m)
                       * mat (dl_at ssht_dl L (PI / 2) l) (L + mp) L
                       * mat gmm (L + m) (L + mp))
          * CpowZ Ci m
          * RtoC (sqrt ((2 * IZR l + 1) / (4 * PI))))%C) /\
    (forall flm1, len flm1 = L ^ 2 ->
       exists st1, step_5 ssht_dl L gmm flm1 = Ok st1 /\
                   s5_flm st1 = s5_flm st).
Proof.
  intros Hk HL Hg Hlen.
  destruct (@step_5_ok ssht_dl L gmm flm0 Hk HL Hg Hlen)
    as (st & Hrun & Hl & _ & Hv).
  exists st; split; [exact Hrun|]; split; [exact Hl|]; split.
  - intros l m Hl' Hm; rewrite (Hv l m Hl' Hm); reflexivity.
  - intros flm1 Hlen1.
    destruct (@step_5_ok ssht_dl L gmm flm1 Hk HL Hg Hlen1)
      as (st1 & Hrun1 & Hl1 & _ & Hv1).
    exists st1; split; [exact Hrun1|].
    apply (nth_ext _ _ C0 C0); [unfold len in *; lia|].
    intros k Hk'.
    destruct (@coefficient_index_onto L (Z.of_nat k + 1))
      as (l & m & Hl' & Hm & Hi); [lia|unfold len in *; lia|].
    pose proof (Hv l m Hl' Hm) as E; pose proof (Hv1 l m Hl' Hm) as E1.
    rewrite <- Hi in E, E1; unfold vat in E, E1.
    replace (Z.to_nat (Z.of_nat k + 1 - 1)) with k in E, E1 by lia.
    congruence.
Qed.

Lemma step_5_coefficients_witness :
  exists st,
    step_5 wigner_dl 2 (sample_matrix 3 3) [C1; C1; C1; C1] = Ok st /\
    len (s5_flm st) = 2 ^ 2 /\
    (forall l m, 0 <= l <= 2 - 1 -> - l <= m <= l ->
       vat C0 (s5_flm st) (l * l + l + m + 1)
       = (Csum (range (- 2 + 1) (2 - 1))
            (fun mp => mat (dl_at wigner_dl 2 (PI / 2) l) (2 + mp) (2 + m)
                       * mat (dl_at wigner_dl 2 (PI / 2) l) (2 + mp) 2
                       * mat (sample_matrix 3 3) (2 + m) (2 + mp))
          * CpowZ Ci m
          * RtoC (sqrt ((2 * IZR l + 1) / (4 * PI))))%C) /\
    (forall flm1, len flm1 = 2 ^ 2 ->
       exists st1, step_5 wigner_dl 2 (sample_matrix 3 3) flm1 = Ok st1 /\
                   s5_flm st1 = s5_flm st).
Proof.
  apply (@step_5_coefficients wigner_dl 2 (sample_matrix 3 3)
           [C1; C1; C1; C1]).
  - exact wigner_dl_keeps_dims.
  - lia.
  - apply (@sample_matrix_dims 3 3); lia.
  - reflexivity.
Defined.

(** *** Linearity *)

Lemma Csum_lin l (F G H : Z -> C) a b :
  (forall x, In x l -> H x = (a * F x + b * G x)%C) ->
  Csum l H = (a * Csum l F + b * Csum l G)%C.
Proof.
  induction l as [|x l IH]; intros E; cbn [Csum fold_right].
  - ring.
  - fold (Csum l H); fold (Csum l F); fold (Csum l G).
    rewrite (E x) by (simpl; auto).
    rewrite IH by (intros y Hy; apply E; simpl; auto).
    ring.
Qed.

Lemma Cdiv_lin a b x y n :
  ((a * x + b * y) / n = a * (x / n) + b * (y / n))%C.
Proof. unfold Cdiv; ring. Qed.

Section ForwardLinear.

Variable ssht_sampling : Z -> list R * list R.
Variable ssht_dl : matrix -> Z -> Z -> R -> matrix.
Variables (L : Z) (f g h : matrix) (a b : C).
Hypothesis HL : 1 <= L.
Hypothesis Hcomb :
  forall j k, 1 <= j <= L -> 1 <= k <= 2 * L - 1 ->
    mat h j k = (a * mat f j k + b * mat g j k)%C.

Lemma fm_value_lin phis m t :
  len phis = 2 * L - 1 -> 0 <= t <= L - 1 ->
  fm_value L h phis m t
  = (a * fm_value L f phis m t + b * fm_value L g phis m t)%C.
Proof.
  intros Hp Ht; unfold fm_value; rewrite <- Cdiv_lin; f_equal.
  apply Csum_lin; intros p Hin; apply range_In in Hin.
  rewrite Hcomb by lia; ring.
Qed.

Variables (F G H : list C).
Hypothesis HF : forward_run ssht_sampling ssht_dl L f F.
Hypothesis HG : forward_run ssht_sampling ssht_dl L g G.
Hypothesis HH : forward_run ssht_sampling ssht_dl L h H.
Hypothesis Hs : sampling_sizes ssht_sampling L.

Lemma forward_run_lin i :
  1 <= i <= L ^ 2 ->
  vat C0 H i = (a * vat C0 F i + b * vat C0 G i)%C.
Proof.
  intros Hi.
  destruct Hs as (Hth & Hph).
  destruct HF as [fm1 fmm1 gmm1 _ _ _ _ Hfm1 Hfmm1 Hgmm1 Hflm1].
  destruct HG as [fm2 fmm2 gmm2 _ _ _ _ Hfm2 Hfmm2 Hgmm2 Hflm2].
  destruct HH as [fm3 fmm3 gmm3 _ _ _ _ Hfm3 Hfmm3 Hgmm3 Hflm3].
  assert (Efm : forall m c, - L + 1 <= m <= L - 1 -> 1 <= c <= 2 * L - 1 ->
            mat fm3 (L + m) c
            = (a * mat fm1 (L + m) c + b * mat fm2 (L + m) c)%C).
  { intros m c Hm Hc.
    destruct (Z_le_gt_dec L c) as [Hge|Hlt].
    - destruct (Hfm1 m (c - L)) as [E1 _]; [lia|lia|].
      destruct (Hfm2 m (c - L)) as [E2 _]; [lia|lia|].
      destruct (Hfm3 m (c - L)) as [E3 _]; [lia|lia|].
      replace (L + (c - L)) with c in E1, E2, E3 by lia.
      rewrite E1, E2, E3; apply fm_value_lin; lia.
    - destruct (Hfm1 m (L - c)) as [_ E1]; [lia|lia|].
      destruct (Hfm2 m (L - c)) as [_ E2]; [lia|lia|].
      destruct (Hfm3 m (L - c)) as [_ E3]; [lia|lia|].
      replace (L - (L - c)) with c in E1, E2, E3 by lia.
      rewrite E1, E2, E3 by lia.
      rewrite (@fm_value_lin _ m (L - c)) by lia; ring. }
  assert (Hext : len (extend_thetas (fst (ssht_sampling L))) = 2 * L - 1)
    by (rewrite extend_thetas_len; lia).
  assert (Efmm : forall m mp, - L + 1 <= m <= L - 1 ->
            - L + 1 <= mp <= L - 1 ->
            mat fmm3 (L + m) (L + mp)
            = (a * mat fmm1 (L + m) (L + mp)
               + b * mat fmm2 (L + m) (L + mp))%C).
  { intros m mp Hm Hmp.
    rewrite Hfmm1, Hfmm2, Hfmm3 by assumption; unfold fmm_value.
    rewrite <- Cdiv_lin; f_equal.
    apply Csum_lin; intros t Hin; apply range_In in Hin.
    rewrite Efm by lia; ring. }
  assert (Egmm : forall m mp, - L + 1 <= m <= L - 1 ->
            - L + 1 <= mp <= L - 1 ->
            mat gmm3 (L + m) (L + mp)
            = (a * mat gmm1 (L + m) (L + mp)
               + b * mat gmm2 (L + m) (L + mp))%C).
  { intros m mp Hm Hmp.
    rewrite Hgmm1, Hgmm2, Hgmm3 by assumption; unfold gmm_value.
    rewrite (@Csum_lin _ (fun mpp => mat fmm1 (L + m) (L + mpp) * w (mpp - mp))%C
                         (fun mpp => mat fmm2 (L + m) (L + mpp) * w (mpp - mp))%C
                         _ a b).
    - ring.
    - intros mpp Hin; apply range_In in Hin.
      rewrite Efmm by lia; ring. }
  destruct (@coefficient_index_onto L i HL Hi) as (l & m & Hl & Hm & ->).
  rewrite Hflm1, Hflm2, Hflm3 by assumption; unfold flm_value.
  rewrite (@Csum_lin _
             (fun mp => mat (dl_at ssht_dl L (PI / 2) l) (L + mp) (L + m)
                        * mat (dl_at ssht_dl L (PI / 2) l) (L + mp) L
                        * mat gmm1 (L + m) (L + mp))%C
             (fun mp => mat (dl_at ssht_dl L (PI / 2) l) (L + mp) (L + m)
                        * mat (dl_at ssht_dl L (PI / 2) l) (L + mp) L
                        * mat gmm2 (L + m) (L + mp))%C
             _ a b).
  - ring.
  - intros mp Hin; apply range_In in Hin.
    rewrite Egmm by lia; ring.
Qed.

End ForwardLinear.

(** X7.  [forward_for_dft] is linear: the coefficients of the samples
    [a*f + b*g] are [a] times the coefficients of [f] plus [b] times the
    coefficients of [g], for all complex [a] and [b]. *)
Theorem forward_for_dft_linear
        (ssht_sampling : Z -> list R * list R)
        (ssht_dl : matrix -> Z -> Z -> R -> matrix)
        (L : Z) (f g h : matrix) (a b : C) :
  dl_keeps_dims ssht_dl -> sampling_sizes ssht_sampling L -> 1 <= L ->
  has_dims f L (2 * L - 1) -> has_dims g L (2 * L - 1) ->
  has_dims h L (2 * L - 1) ->
  (forall j k, 1 <= j <= L -> 1 <= k <= 2 * L - 1 ->
     mat h j k = (a * mat f j k + b * mat g j k)%C) ->
  exists F G H,
    forward_for_dft ssht_sampling ssht_dl L f = Ok F /\
    forward_for_dft ssht_sampling ssht_dl L g = Ok G /\
    forward_for_dft ssht_sampling ssht_dl L h = Ok H /\
    len H = L ^ 2 /\
    forall i, 1 <= i <= L ^ 2 ->
      vat C0 H i = (a * vat C0 F i + b * vat C0 G i)%C.
Proof.
  intros Hk Hs HL Hf Hg Hh Hcomb.
  destruct (@forward_for_dft_ok ssht_sampling ssht_dl L f Hk Hs HL Hf)
    as (F & RF & HF).
  destruct (@forward_for_dft_ok ssht_sampling ssht_dl L g Hk Hs HL Hg)
    as (G & RG & HG).
  destruct (@forward_for_dft_ok ssht_sampling ssht_dl L h Hk Hs HL Hh)
    as (H & RH & HH).
  exists F, G, H; repeat split; try assumption.
  - destruct HH; assumption.
  - intros i Hi.
    exact (@forward_run_lin ssht_sampling ssht_dl L f g h a b HL Hcomb
             F G H HF HG HH Hs i Hi).
Qed.

Lemma forward_for_dft_linear_witness :
  exists F G H,
    forward_for_dft mw_sampling wigner_dl 2 (sample_matrix 2 3) = Ok F /\
    forward_for_dft mw_sampling wigner_dl 2
      (tabulate 2 3 (fun i j => mkC (IZR j) (IZR i))) = Ok G /\
    forward_for_dft mw_sampling wigner_dl 2
      (tabulate 2 3
         (fun i j => (Ci * mkC (IZR i) (IZR j)
                      + RtoC 2 * mkC (IZR j) (IZR i))%C)) = Ok H /\
    len H = 2 ^ 2 /\
    forall i, 1 <= i <= 2 ^ 2 ->
      vat C0 H i = (Ci * vat C0 F i + RtoC 2 * vat C0 G i)%C.
Proof.
  apply (@forward_for_dft_linear mw_sampling wigner_dl 2
           (sample_matrix 2 3)
           (tabulate 2 3 (fun i j => mkC (IZR j) (IZR i)))
           (tabulate 2 3
              (fun i j => (Ci * mkC (IZR i) (IZR j)
                           + RtoC 2 * mkC (IZR j) (IZR i))%C))
           Ci (RtoC 2)).
  - exact wigner_dl_keeps_dims.
  - apply mw_sampling_sizes; lia.
  - lia.
  - apply (@sample_matrix_dims 2 3); lia.
  - apply (@tabulate_dims 2 3); lia.
  - apply (@tabulate_dims 2 3); lia.
  - intros j k Hj Hk; unfold sample_matrix.
    rewrite !mat_tabulate by lia; reflexivity.
Defined.

(** X8.  [inverse_direct] is linear: the samples synthesised from the
    coefficients [a*u + b*v] are [a] times the samples of [u] plus [b]
    times the samples of [v], at every point of the grid. *)
Theorem inverse_direct_linear
        (ssht_sampling : Z -> list R * list R)
        (ssht_dl : matrix -> Z -> Z -> R -> matrix)
        (L : Z) (u v x : list C) (a b : C) :
  dl_keeps_dims ssht_dl -> sampling_sizes ssht_sampling L -> 1 <= L ->
  len u = L ^ 2 -> len v = L ^ 2 -> len x = L ^ 2 ->
  (forall i, 1 <= i <= L ^ 2 ->
     vat C0 x i = (a * vat C0 u i + b * vat C0 v i)%C) ->
  exists fu fv fx,
    inverse_direct ssht_sampling ssht_dl L u = Ok fu /\
    inverse_direct ssht_sampling ssht_dl L v = Ok fv /\
    inverse_direct ssht_sampling ssht_dl L x = Ok fx /\
    has_dims fx L (2 * L - 1) /\
    forall j k, 1 <= j <= L -> 1 <= k <= 2 * L - 1 ->
      mat fx j k = (a * mat fu j k + b * mat fv j k)%C.
Proof.
  intros Hk Hs HL Hu Hv Hx Hcomb.
  destruct (@inverse_direct_ok ssht_sampling ssht_dl L u Hk Hs HL Hu)
    as (fu & Ru & _ & Vu).
  destruct (@inverse_direct_ok ssht_sampling ssht_dl L v Hk Hs HL Hv)
    as (fv & Rv & _ & Vv).
  destruct (@inverse_direct_ok ssht_sampling ssht_dl L x Hk Hs HL Hx)
    as (fx & Rx & Dx & Vx).
  exists fu, fv, fx; repeat split; try assumption; try apply Dx.
  intros j k Hj Hk'.
  rewrite Vu, Vv, Vx by assumption; unfold point_value.
  apply Csum_lin; intros l Hl; apply range_In in Hl.
  apply Csum_lin; intros m Hm; apply range_In in Hm.
  unfold harmonic_term; rewrite Hcomb by nia; ring.
Qed.

Lemma inverse_direct_linear_witness :
  exists fu fv fx,
    inverse_direct mw_sampling wigner_dl 1 [C1] = Ok fu /\
    inverse_direct mw_sampling wigner_dl 1 [Ci] = Ok fv /\
    inverse_direct mw_sampling wigner_dl 1 [mkC 2 3] = Ok fx /\
    has_dims fx 1 (2 * 1 - 1) /\
    forall j k, 1 <= j <= 1 -> 1 <= k <= 2 * 1 - 1 ->
      mat fx j k = (RtoC 2 * mat fu j k + RtoC 3 * mat fv j k)%C.
Proof.
  apply (@inverse_direct_linear mw_sampling wigner_dl 1
           [C1] [Ci] [mkC 2 3] (RtoC 2) (RtoC 3)).
  - exact wigner_dl_keeps_dims.
  - apply mw_sampling_sizes; lia.
  - lia.
  - reflexivity.
  - reflexivity.
  - reflexivity.
  - intros i Hi; replace i with 1 by lia.
    apply C_eq; simpl; ring.
Defined.

(** *** The round trip at band-limit 1 *)

(** X9.  At [L = 1] the two transforms are inverse to each other: for
    whatever grid [ssht_sampling] returns, and for every [ssht_dl] whose
    plane of degree 0 holds [d(0; 0, 0) = 1], [forward_for_dft] applied
    to the sample [inverse_direct] synthesises from a coefficient [c]
    returns [c] again. *)
Theorem round_trip_band_limit_1
        (ssht_sampling : Z -> list R * list R)
        (ssht_dl : matrix -> Z -> Z -> R -> matrix) (c : C) :
  dl_keeps_dims ssht_dl -> sampling_sizes ssht_sampling 1 ->
  (forall theta, mat (dl_at ssht_dl 1 theta 0) 1 1 = C1) ->
  exists f,
    inverse_direct ssht_sampling ssht_dl 1 [c] = Ok f /\
    forward_for_dft ssht_sampling ssht_dl 1 f = Ok [c].
Proof.
  intros Hk Hs Hd0.
  destruct (@inverse_direct_ok ssht_sampling ssht_dl 1 [c])
    as (f & Hinv & Hd & Hval); [exact Hk|exact Hs|lia|reflexivity|].
  destruct (@forward_for_dft_ok ssht_sampling ssht_dl 1 f)
    as (flm' & Hfwd & Hrun); [exact Hk|exact Hs|lia|exact Hd|].
  exists f; split; [exact Hinv|]; rewrite Hfwd; f_equal.
  destruct Hs as (Hth & Hph).
  assert (Hext : len (extend_thetas (fst (ssht_sampling 1))) = 1)
    by (rewrite extend_thetas_len; lia).
  set (b := sqrt (1 / (4 * PI))).
  assert (F : mat f 1 1 = (c * RtoC b)%C).
  { rewrite (Hval 1 1) by lia; unfold point_value.
    change (range 0 (1 - 1)) with [0]; cbn [Csum fold_right].
    change (range (- 0) 0) with [0]; cbn [Csum fold_right].
    unfold harmonic_term.
    change (vat C0 [c] (0 * 0 + 0 + 0 + 1)) with c.
    change (0 + 1) with 1.
    rewrite Hd0, Cexp_pos_i, Rmult_0_l, cos_0, sin_0.
    replace (2 * 0 + 1)%R with 1%R by ring; fold b.
    apply C_eq; simpl; ring. }
  destruct Hrun as [fm fmm gmm Dfm Dfmm Dgmm Hlen Hfm Hfmm Hgmm Hflm].
  destruct (Hfm 0 0) as [E1 _]; [lia|lia|].
  pose proof (Hfmm 0 0 ltac:(lia) ltac:(lia)) as E2.
  pose proof (Hgmm 0 0 ltac:(lia) ltac:(lia)) as E3.
  pose proof (Hflm 0 0 ltac:(lia) ltac:(lia)) as E4.
  unfold fm_value in E1; unfold fmm_value in E2; unfold gmm_value in E3;
    unfold flm_value in E4.
  rewrite Hph in E1; rewrite Hext in E2.
  change (range 1 (2 * 1 - 1)) with [1] in E1.
  change (range 0 (1 - 1)) with [0] in E2.
  change (range (- (1) + 1) (1 - 1)) with [0] in E3, E4.
  cbn [Csum fold_right] in E1, E2, E3, E4.
  change (mat f (0 + 1) 1) with (mat f 1 1) in E1.
  change (mat fm (1 + 0) (0 + 1)) with (mat fm (1 + 0) (1 + 0)) in E2.
  change (0 - 0) with 0 in E3.
  rewrite F, Cexp_neg_i, Rmult_0_l, cos_0, sin_0 in E1.
  rewrite E1, Cexp_neg_i, Rmult_0_l, cos_0, sin_0 in E2.
  rewrite E2, (@w_even 0) in E3 by (try reflexivity; discriminate).
  change (mat (dl_at ssht_dl 1 (PI / 2) 0) (1 + 0) (1 + 0))
    with (mat (dl_at ssht_dl 1 (PI / 2) 0) 1 1) in E4.
  change (mat (dl_at ssht_dl 1 (PI / 2) 0) (1 + 0) 1)
    with (mat (dl_at ssht_dl 1 (PI / 2) 0) 1 1) in E4.
  rewrite Hd0, E3 in E4.
  change (IZR (2 * 1 - 1)) with 1%R in E4.
  rewrite !Cdiv_RtoC_r in E4 by lra.
  change (vat C0 flm' (0 * 0 + 0 + 0 + 1)) with (vat C0 flm' 1) in E4.
  replace (2 * 0 + 1)%R with 1%R in E4 by ring; fold b in E4.
  assert (V : vat C0 flm' 1 = c).
  { rewrite E4; pose proof sqrt_inv_4PI_sqr as Hb; fold b in Hb.
    pose proof PI_RGT_0 as Hpi.
    assert (Hbb : (4 * PI * (b * b) = 1)%R) by (rewrite Hb; field; lra).
    destruct c as [cr ci]; apply C_eq; simpl.
    - transitivity (cr * (4 * PI * (b * b)))%R; [field|rewrite Hbb; ring].
    - transitivity (ci * (4 * PI * (b * b)))%R; [field|rewrite Hbb; ring]. }
  unfold len in Hlen; change (1 ^ 2) with 1 in Hlen.
  destruct flm' as [|v [|v' r]]; cbn [length] in Hlen; try lia.
  change (vat C0 [v] 1) with v in V; rewrite V; reflexivity.
Qed.

Lemma round_trip_band_limit_1_witness :
  exists f,
    inverse_direct mw_sampling wigner_dl 1 [mkC 2 3] = Ok f /\
    forward_for_dft mw_sampling wigner_dl 1 f = Ok [mkC 2 3].
Proof.
  apply (@round_trip_band_limit_1 mw_sampling wigner_dl (mkC 2 3)).
  - exact wigner_dl_keeps_dims.
  - apply mw_sampling_sizes; lia.
  - exact dl_at_0_L1.
Defined.

(** ** Further properties of the Wigner transform core *)

(** *** Sums over the orientation *)

Lemma Csum_map (g : Z -> Z) l F :
  Csum (map g l) F = Csum l (fun x => F (g x)).
Proof.
  induction l as [|x l IH]; cbn [map Csum fold_right]; [reflexivity|].
  fold (Csum (map g l) F); fold (Csum l (fun x => F (g x))).
  rewrite IH; reflexivity.
Qed.

Lemma range_shift a b c :
  range (a + c) (b + c) = map (fun x => x + c) (range a b).
Proof.
  unfold range; rewrite map_map.
  replace (b + c - (a + c) + 1) with (b - a + 1) by lia.
  apply map_ext; intros k; lia.
Qed.

Lemma range_app a k b :
  a <= k <= b + 1 -> range a b = range a (k - 1) ++ range k b.
Proof.
  intros H.
  remember (Z.to_nat (k - a)) as n eqn:Hn.
  revert a H Hn; induction n as [|n IH]; intros a H Hn.
  - replace k with a by lia.
    rewrite (@range_nil a (a - 1)) by lia; reflexivity.
  - rewrite (@range_cons a b) by lia.
    rewrite (@range_cons a (k - 1)) by lia.
    cbn [app]; f_equal; apply IH; lia.
Qed.

(** The sum over the orientation indices [0 .. 2N-2] is the sum over the
    orders [n = -N+1 .. N-1], each taken at its index
    [n < 0 ? n + 2*N-1 : n]. *)
Lemma Csum_orientation N (G : Z -> C) :
  1 <= N ->
  Csum (range 0 (2 * N - 2)) G
  = Csum (range (- N + 1) (N - 1)) (fun n => G (orientation_index N n)).
Proof.
  intros HN.
  rewrite (@range_app 0 N (2 * N - 2)) by lia.
  rewrite (@range_app (- N + 1) 0 (N - 1)) by lia.
  rewrite !Csum_app.
  replace (0 - 1) with (- (1)) by lia.
  rewrite (@Csum_ext (range 0 (N - 1))
             (fun n => G (orientation_index N n)) G).
  2:{ intros n Hn; apply range_In in Hn; unfold orientation_index.
      destruct (Z.ltb_spec n 0); [lia|reflexivity]. }
  rewrite (@Csum_ext (range (- N + 1) (- (1)))
             (fun n => G (orientation_index N n))
             (fun n => G (n + (2 * N - 1)))).
  2:{ intros n Hn; apply range_In in Hn; unfold orientation_index.
      destruct (Z.ltb_spec n 0); [f_equal; lia|lia]. }
  rewrite <- (@Csum_map (fun x => x + (2 * N - 1))), <- range_shift.
  replace (- N + 1 + (2 * N - 1)) with N by lia.
  replace (- (1) + (2 * N - 1)) with (2 * N - 2) by lia.
  ring.
Qed.

Lemma Cexp_turns x k :
  Cexp (Ci * RtoC (x + 2 * PI * IZR k)) = Cexp (Ci * RtoC x).
Proof.
  rewrite (@Cexp_imag _ (x + 2 * PI * IZR k)%R) by (simpl; ring).
  rewrite (@Cexp_imag (Ci * RtoC x)%C x) by (simpl; ring).
  destruct (Z_le_gt_dec 0 k) as [Hk|Hk].
  - replace (x + 2 * PI * IZR k)%R
      with (x + 2 * INR (Z.to_nat k) * PI)%R
      by (rewrite INR_IZR_INZ, Z2Nat.id by lia; ring).
    rewrite cos_period, sin_period; reflexivity.
  - set (y := (x + 2 * PI * IZR k)%R).
    replace x with (y + 2 * INR (Z.to_nat (- k)) * PI)%R.
    + rewrite cos_period, sin_period; reflexivity.
    + unfold y; rewrite INR_IZR_INZ, Z2Nat.id, opp_IZR by lia; ring.
Qed.

(** Along the orientation the phase of order [n] may be taken at [n]
    itself instead of its index [n + 2N - 1]: they differ by whole
    turns. *)
Lemma orientation_phase sign N n k :
  1 <= N ->
  Cexp (Ci * RtoC (IZR sign * (2 * PI * IZR (orientation_index N n) * IZR k)
                   / IZR (2 * N - 1)))
  = Cexp (Ci * RtoC (IZR sign * (2 * PI * IZR n * IZR k)
                     / IZR (2 * N - 1))).
Proof.
  intros HN; unfold orientation_index.
  destruct (Z.ltb_spec n 0); [|reflexivity].
  assert (HM : IZR (2 * N - 1) <> 0%R) by (apply not_0_IZR; lia).
  rewrite <- (@Cexp_turns (IZR sign * (2 * PI * IZR n * IZR k)
                           / IZR (2 * N - 1)) (sign * k)).
  do 3 f_equal.
  replace (n + 2 * N - 1) with (n + (2 * N - 1)) by lia.
  rewrite plus_IZR, mult_IZR; field; exact HM.
Qed.

Lemma window_at0 v off n s i :
  window v off n = Ok s -> 0 <= i < n -> at0 s i = at0 v (off + i).
Proof.
  unfold window.
  destruct (Z.leb_spec 0 off); [|discriminate].
  destruct (Z.leb_spec 0 n); [|discriminate].
  destruct (Z.leb_spec (off + n) (len v)); [|discriminate].
  cbn [andb]; intros E Hi; inversion E; subst.
  apply at0_window; lia.
Qed.

Lemma at0_app_l u v q : 0 <= q < len u -> at0 (u ++ v) q = at0 u q.
Proof.
  intros Hq; rewrite !at0_nth by lia.
  apply app_nth1; unfold len in Hq; lia.
Qed.

Lemma at0_app_skipn (u v : list C) q :
  len u <= q -> len u <= len v ->
  at0 (u ++ skipn (length u) v) q = at0 v q.
Proof.
  intros Hq Hl; rewrite !at0_nth by (unfold len in *; lia).
  rewrite app_nth2 by (unfold len in *; lia).
  rewrite nth_skipn; f_equal; unfold len in *; lia.
Qed.

(** The result of the inverse, orientation by orientation, in terms of
    the slices [slice_samples]. *)
Lemma so3_inverse_series
        (engine : list C -> Z -> Z -> ssht_dl_method_t -> list C)
        (elmn2ind : Z -> Z -> Z -> Z -> Z -> so3_storage_t -> Z)
        (malloc : Z -> list C)
        (f flmn : list C) (L N : Z) (storage : so3_storage_t) :
  supported storage = true -> 1 <= L -> 1 <= N ->
  inverse_engine_sized engine L -> malloc_sized malloc ->
  slices_in_range elmn2ind L N storage (len flmn) ->
  (2 * N - 1) * (L * (2 * L - 1)) <= len f ->
  exists f',
    snd (run (so3_core_mw_inverse_via_ssht engine elmn2ind malloc
                f flmn L N storage)) = Ok f' /\
    len f' = len f /\
    (forall k i, 0 <= k <= 2 * N - 2 -> 0 <= i < L * (2 * L - 1) ->
       at0 f' (k * (L * (2 * L - 1)) + i)
       = Csum (range (- N + 1) (N - 1))
           (fun n =>
              (at0 (slice_samples engine elmn2ind flmn L N storage n) i
               * Cexp (Ci * RtoC (IZR n * (2 * PI * IZR k
                                           / IZR (2 * N - 1)))))%C)) /\
    (forall q, (2 * N - 1) * (L * (2 * L - 1)) <= q -> at0 f' q = at0 f q).
Proof.
  intros Hsup HL HN Heng Hmal Hrange Hf.
  destruct (@so3_inverse_ok engine elmn2ind malloc f flmn L N storage
              Hsup HL HN Heng Hmal Hrange Hf) as (fn & Hlen & Hwin & Hrun).
  set (stride := L * (2 * L - 1)) in *.
  assert (Hst : 0 < stride) by (unfold stride; nia).
  set (total := (2 * N - 1) * stride) in *.
  assert (Htot : 0 < total) by (unfold total; nia).
  assert (Hmap : len (map (dft_value FFTW_BACKWARD (2 * N - 1) stride fn)
                          (range 0 (total - 1))) = total)
    by (rewrite len_map_range; lia).
  eexists; split; [rewrite Hrun; reflexivity|]; split; [|split].
  - unfold len in *; rewrite length_app, length_skipn; lia.
  - intros k i Hk Hi.
    assert (Hq : 0 <= k * stride + i < total) by (unfold total; nia).
    rewrite at0_app_l by (rewrite Hmap; lia).
    rewrite at0_map_range by lia.
    unfold dft_value.
    replace ((k * stride + i) mod stride) with i
      by (rewrite Z.add_comm, Z.mod_add, Z.mod_small; lia).
    replace ((k * stride + i) / stride) with k
      by (rewrite Z.add_comm, Z.div_add, Z.div_small; lia).
    replace (2 * N - 1 - 1) with (2 * N - 2) by lia.
    rewrite (@Csum_orientation N) by exact HN.
    apply Csum_ext; intros n Hn; apply range_In in Hn.
    rewrite (@orientation_phase FFTW_BACKWARD N n k HN).
    rewrite (@window_at0 _ _ _ _ _ (Hwin n Hn) Hi).
    rewrite (Z.add_comm i).
    f_equal; do 3 f_equal; unfold FFTW_BACKWARD.
    assert (HM : IZR (2 * N - 1) <> 0%R) by (apply not_0_IZR; lia).
    field; exact HM.
  - intros q Hq.
    replace (Z.to_nat total)
      with (length (map (dft_value FFTW_BACKWARD (2 * N - 1) stride fn)
                        (range 0 (total - 1))))
      by (unfold len in Hmap; lia).
    apply at0_app_skipn; lia.
Qed.

(** X10.  The inverse Wigner transform as a Fourier series in the third
    angle.  For every supported layout the sample at orientation [k] and
    position [i] of the sphere is the sum over [n = -N+1 .. N-1] of the
    sample of slice [n] (the inverse engine at pole order [-n], negated
    for odd [n]) times [exp(i n gamma_k)], [gamma_k = 2 pi k/(2N-1)]: the
    permutation of the negative orders to the indices [n + 2N-1]
    followed by the backward transform of FFTW amounts to exactly this
    sum.  The result does not depend on what [malloc] returned nor on
    what [f] held, and entries of [f] beyond the
    [(2N-1) L (2L-1)] samples stay. *)
Theorem inverse_via_ssht_fourier_series
        (engine : list C -> Z -> Z -> ssht_dl_method_t -> list C)
        (elmn2ind : Z -> Z -> Z -> Z -> Z -> so3_storage_t -> Z)
        (malloc : Z -> list C)
        (f flmn : list C) (L N : Z) (storage : so3_storage_t) :
  supported storage = true -> 1 <= L -> 1 <= N ->
  inverse_engine_sized engine L -> malloc_sized malloc ->
  slices_in_range elmn2ind L N storage (len flmn) ->
  (2 * N - 1) * (L * (2 * L - 1)) <= len f ->
  exists f',
    snd (run (so3_core_mw_inverse_via_ssht engine elmn2ind malloc
                f flmn L N storage)) = Ok f' /\
    len f' = len f /\
    (forall k i, 0 <= k <= 2 * N - 2 -> 0 <= i < L * (2 * L - 1) ->
       at0 f' (k * (L * (2 * L - 1)) + i)
       = Csum (range (- N + 1) (N - 1))
           (fun n =>
              (at0 (slice_samples engine elmn2ind flmn L N storage n) i
               * Cexp (Ci * RtoC (IZR n * (2 * PI * IZR k
                                           / IZR (2 * N - 1)))))%C)) /\
    (forall q, (2 * N - 1) * (L * (2 * L - 1)) <= q -> at0 f' q = at0 f q).
Proof.
  intros Hsup HL HN Heng Hmal Hrange Hf.
  exact (@so3_inverse_series engine elmn2ind malloc f flmn L N storage
           Hsup HL HN Heng Hmal Hrange Hf).
Qed.

Lemma inverse_via_ssht_fourier_series_witness :
  exists f',
    snd (run (so3_core_mw_inverse_via_ssht sample_inverse_engine
                elmn2ind_layout zeroed_malloc
                (repeat C0 18) (repeat C1 10) 2 2
                SO3_STORE_NEG_FIRST_COMPACT)) = Ok f' /\
    len f' = len (repeat C0 18) /\
    (forall k i, 0 <= k <= 2 * 2 - 2 -> 0 <= i < 2 * (2 * 2 - 1) ->
       at0 f' (k * (2 * (2 * 2 - 1)) + i)
       = Csum (range (- 2 + 1) (2 - 1))
           (fun n =>
              (at0 (slice_samples sample_inverse_engine elmn2ind_layout
                      (repeat C1 10) 2 2 SO3_STORE_NEG_FIRST_COMPACT n) i
               * Cexp (Ci * RtoC (IZR n * (2 * PI * IZR k
                                           / IZR (2 * 2 - 1)))))%C)) /\
    (forall q, (2 * 2 - 1) * (2 * (2 * 2 - 1)) <= q ->
       at0 f' q = at0 (repeat C0 18) q).
Proof.
  apply (@inverse_via_ssht_fourier_series sample_inverse_engine
           elmn2ind_layout zeroed_malloc (repeat C0 18) (repeat C1 10) 2 2
           SO3_STORE_NEG_FIRST_COMPACT).
  - reflexivity.
  - lia.
  - lia.
  - apply sample_inverse_engine_sized; lia.
  - exact zeroed_malloc_sized.
  - exact layout_2_2_in_range.
  - vm_compute; discriminate.
Defined.

Lemma analysed_entry f L N n i :
  1 <= L -> 1 <= N -> - N + 1 <= n <= N - 1 -> 0 <= i < L * (2 * L - 1) ->
  at0 (analysed f L N) (orientation_index N n * (L * (2 * L - 1)) + i)
  = (Csum (range 0 (2 * N - 2))
       (fun k => at0 f (k * (L * (2 * L - 1)) + i)
                 * Cexp (- Ci * RtoC (IZR n * (2 * PI * IZR k
                                               / IZR (2 * N - 1)))))
     * RtoC (2 * PI / IZR (2 * N - 1)))%C.
Proof.
  intros HL HN Hn Hi.
  pose proof (@orientation_index_range N n Hn) as Ho.
  set (o := orientation_index N n) in *.
  set (stride := L * (2 * L - 1)) in *.
  assert (Hst : 0 < stride) by (unfold stride; nia).
  unfold analysed; fold stride.
  rewrite at0_map_range by nia.
  f_equal; unfold dft_value.
  replace ((o * stride + i) mod stride) with i
    by (rewrite Z.add_comm, Z.mod_add, Z.mod_small; lia).
  replace ((o * stride + i) / stride) with o
    by (rewrite Z.add_comm, Z.div_add, Z.div_small; lia).
  replace (2 * N - 1 - 1) with (2 * N - 2) by lia.
  apply Csum_ext; intros k Hk.
  rewrite (Z.add_comm i); f_equal.
  replace (IZR FFTW_FORWARD * (2 * PI * IZR k * IZR o) / IZR (2 * N - 1))%R
    with (IZR FFTW_FORWARD * (2 * PI * IZR o * IZR k) / IZR (2 * N - 1))%R
    by (unfold Rdiv; ring).
  unfold o; rewrite (@orientation_phase FFTW_FORWARD N n k HN).
  f_equal; unfold FFTW_FORWARD.
  assert (HM : IZR (2 * N - 1) <> 0%R) by (apply not_0_IZR; lia).
  apply C_eq; simpl; field; exact HM.
Qed.

(** X11.  The forward Wigner transform as a Fourier analysis in the third
    angle.  For every supported layout the slice handed to the forward
    engine for the order [n] (at pole order [-n]) holds, at every
    position [i] of the sphere, [2 pi/(2N-1)] times the sum over the
    orientations [k] of the sample at [(k, i)] times
    [exp(-i n gamma_k)], [gamma_k = 2 pi k/(2N-1)]; the coefficient of
    degree [l] the engine returns is multiplied by
    [sign * sqrt(4 pi/(2l+1))] and stored at its place in [flmn].  The
    result does not depend on what [malloc] returned. *)
Theorem forward_via_ssht_fourier_analysis
        (engine : list C -> Z -> Z -> ssht_dl_method_t -> list C)
        (elmn2ind : Z -> Z -> Z -> Z -> Z -> so3_storage_t -> Z)
        (malloc : Z -> list C)
        (flmn f : list C) (L N : Z) (storage : so3_storage_t) :
  supported storage = true -> 1 <= L -> 1 <= N ->
  forward_engine_sized engine L -> malloc_sized malloc ->
  slices_in_range elmn2ind L N storage (len flmn) ->
  slices_disjoint elmn2ind L N storage ->
  (2 * N - 1) * (L * (2 * L - 1)) <= len f ->
  exists flmn',
    snd (run (so3_core_mw_forward_via_ssht engine elmn2ind malloc
                flmn f L N storage)) = Ok flmn' /\
    len flmn' = len flmn /\
    forall n, - N + 1 <= n <= N - 1 ->
      exists slice,
        len slice = L * (2 * L - 1) /\
        (forall i, 0 <= i < L * (2 * L - 1) ->
           at0 slice i
           = (Csum (range 0 (2 * N - 2))
                (fun k =>
                   at0 f (k * (L * (2 * L - 1)) + i)
                   * Cexp (- Ci * RtoC (IZR n * (2 * PI * IZR k
                                                 / IZR (2 * N - 1)))))
              * RtoC (2 * PI / IZR (2 * N - 1)))%C) /\
        forall l m, first_degree storage n <= l < L -> - l <= m <= l ->
          at0 flmn' (slice_start elmn2ind L N storage n
                     + (l * l + l + m - slice_first storage n))
          = (at0 (engine slice L (- n)%Z SSHT_DL_TRAPANI) (l * l + l + m)
             * RtoC (forward_factor (sign_of n) l))%C.
Proof.
  intros Hsup HL HN Heng Hmal Hrange Hdisj Hf.
  destruct (@so3_forward_ok engine elmn2ind malloc flmn f L N storage
              Hsup HL HN Heng Hmal Hrange Hdisj Hf)
    as (flmn' & Hrun & Hlen & Hw & _).
  exists flmn'; split; [rewrite Hrun; reflexivity|]; split; [exact Hlen|].
  intros n Hn.
  pose proof (@orientation_index_range N n Hn) as Ho.
  assert (Hst : 0 < L * (2 * L - 1)) by nia.
  assert (Hfn : len (analysed f L N) = (2 * N - 1) * (L * (2 * L - 1)))
    by (unfold analysed; rewrite len_map_range by nia; lia).
  exists (firstn (Z.to_nat (L * (2 * L - 1)))
            (skipn (Z.to_nat (orientation_index N n * (L * (2 * L - 1))))
                   (analysed f L N))).
  split; [|split].
  - apply len_window; nia.
  - intros i Hi.
    rewrite at0_window by nia.
    apply analysed_entry; assumption.
  - intros l m Hl Hm; exact (Hw n l m Hn Hl Hm).
Qed.

Lemma forward_via_ssht_fourier_analysis_witness :
  exists flmn',
    snd (run (so3_core_mw_forward_via_ssht sample_forward_engine
                elmn2ind_layout zeroed_malloc
                (repeat C0 10) (repeat C1 18) 2 2
                SO3_STORE_NEG_FIRST_COMPACT)) = Ok flmn' /\
    len flmn' = len (repeat C0 10) /\
    forall n, - 2 + 1 <= n <= 2 - 1 ->
      exists slice,
        len slice = 2 * (2 * 2 - 1) /\
        (forall i, 0 <= i < 2 * (2 * 2 - 1) ->
           at0 slice i
           = (Csum (range 0 (2 * 2 - 2))
                (fun k =>
                   at0 (repeat C1 18) (k * (2 * (2 * 2 - 1)) + i)
                   * Cexp (- Ci * RtoC (IZR n * (2 * PI * IZR k
                                                 / IZR (2 * 2 - 1)))))
              * RtoC (2 * PI / IZR (2 * 2 - 1)))%C) /\
        forall l m,
          first_degree SO3_STORE_NEG_FIRST_COMPACT n <= l < 2 ->
          - l <= m <= l ->
          at0 flmn' (slice_start elmn2ind_layout 2 2
                       SO3_STORE_NEG_FIRST_COMPACT n
                     + (l * l + l + m
                        - slice_first SO3_STORE_NEG_FIRST_COMPACT n))
          = (at0 (sample_forward_engine slice 2 (- n)%Z SSHT_DL_TRAPANI)
                 (l * l + l + m)
             * RtoC (forward_factor (sign_of n) l))%C.
Proof.
  apply (@forward_via_ssht_fourier_analysis sample_forward_engine
           elmn2ind_layout zeroed_malloc (repeat C0 10) (repeat C1 18) 2 2
           SO3_STORE_NEG_FIRST_COMPACT).
  - reflexivity.
  - lia.
  - lia.
  - apply sample_forward_engine_sized.
  - exact zeroed_malloc_sized.
  - exact layout_2_2_in_range.
  - exact layout_2_2_disjoint.
  - vm_compute; discriminate.
Defined.

(** *** The discrete Fourier transform along the orientation and its
        inverse *)

(** [exp(i n gamma_k)] with [gamma_k = 2 pi k / M]. *)
Definition turn (M n k : Z) : C :=
  Cexp (Ci * RtoC (IZR n * (2 * PI * IZR k / IZR M))).

Lemma Cexp_add_imag x y :
  Cexp (Ci * RtoC (x + y)) = (Cexp (Ci * RtoC x) * Cexp (Ci * RtoC y))%C.
Proof.
  rewrite (@Cexp_imag _ (x + y)%R) by (simpl; ring).
  rewrite (@Cexp_imag (Ci * RtoC x)%C x) by (simpl; ring).
  rewrite (@Cexp_imag (Ci * RtoC y)%C y) by (simpl; ring).
  rewrite cos_plus, sin_plus; apply C_eq; simpl; ring.
Qed.

Lemma turn_add M a b k : (turn M (a + b) k = turn M a k * turn M b k)%C.
Proof.
  unfold turn; rewrite <- Cexp_add_imag; do 3 f_equal.
  rewrite plus_IZR; ring.
Qed.

Lemma turn_0 M k : turn M 0 k = C1.
Proof.
  unfold turn; rewrite (@Cexp_imag _ 0%R) by (simpl; ring).
  rewrite cos_0, sin_0; reflexivity.
Qed.

Lemma turn_at_0 M d : turn M d 0 = C1.
Proof.
  unfold turn; rewrite (@Cexp_imag _ 0%R) by (simpl; unfold Rdiv; ring).
  rewrite cos_0, sin_0; reflexivity.
Qed.

Lemma turn_succ M d k : (turn M d (k + 1) = turn M d k * turn M d 1)%C.
Proof.
  unfold turn; rewrite <- Cexp_add_imag; do 3 f_equal.
  rewrite plus_IZR; unfold Rdiv; ring.
Qed.

Lemma turn_full M d : M <> 0 -> turn M d M = C1.
Proof.
  intros HM; unfold turn.
  assert (IZR M <> 0%R) by (apply not_0_IZR; exact HM).
  replace (IZR d * (2 * PI * IZR M / IZR M))%R
    with (0 + 2 * PI * IZR d)%R by (field; assumption).
  rewrite Cexp_turns, (@Cexp_imag _ 0%R) by (simpl; ring).
  rewrite cos_0, sin_0; reflexivity.
Qed.

Lemma cos_lt_1 x : (0 < x < 2 * PI)%R -> (cos x < 1)%R.
Proof.
  intros Hx.
  replace x with (2 * (x / 2))%R by field.
  rewrite cos_2a_sin.
  assert (0 < sin (x / 2))%R by (apply sin_gt_0; lra).
  nra.
Qed.

Lemma turn_ne_1 M d : 0 < Z.abs d < M -> turn M d 1 <> C1.
Proof.
  intros Hd E; unfold turn in E.
  rewrite (@Cexp_imag _ (IZR d * (2 * PI * 1 / IZR M))%R) in E
    by (simpl; ring).
  apply (f_equal Re) in E; cbn [Re C1 RtoC] in E.
  assert (HM : (0 < IZR M)%R) by (apply IZR_lt; lia).
  pose proof PI_RGT_0 as Hpi.
  assert (Hpos : forall e, 0 < e < M ->
            (cos (IZR e * (2 * PI * 1 / IZR M)) < 1)%R).
  { intros e He; apply cos_lt_1.
    assert (0 < IZR e)%R by (apply IZR_lt; lia).
    assert (IZR e < IZR M)%R by (apply IZR_lt; lia).
    split.
    - apply Rmult_lt_0_compat; [assumption|].
      apply Rdiv_lt_0_compat; lra.
    - replace (2 * PI)%R with (IZR M * (2 * PI * 1 / IZR M))%R at 2
        by (field; lra).
      apply Rmult_lt_compat_r; [apply Rdiv_lt_0_compat; lra|assumption]. }
  destruct (Z_lt_le_dec 0 d) as [Hp|Hn].
  - specialize (Hpos d ltac:(lia)); lra.
  - specialize (Hpos (- d) ltac:(lia)).
    rewrite opp_IZR, Ropp_mult_distr_l_reverse, cos_neg in Hpos; lra.
Qed.

Lemma Cmul_integral a b : (a * b)%C = C0 -> a = C0 \/ b = C0.
Proof.
  intros E.
  pose proof (f_equal Re E) as Er; pose proof (f_equal Im E) as Ei.
  destruct a as [ar ai], b as [br bi]; cbn in Er, Ei.
  assert (P : ((ar * ar + ai * ai) * (br * br + bi * bi) = 0)%R) by nra.
  apply Rmult_integral in P; destruct P as [P|P]; [left|right];
    apply C_eq; cbn; nra.
Qed.

Lemma Csum_plus l F G :
  Csum l (fun x => (F x + G x)%C) = (Csum l F + Csum l G)%C.
Proof.
  induction l as [|x l IH]; cbn [Csum fold_right]; [ring|].
  fold (Csum l (fun x => (F x + G x)%C)); fold (Csum l F); fold (Csum l G).
  rewrite IH; ring.
Qed.

Lemma Csum_scal_l l F c : (c * Csum l F)%C = Csum l (fun x => (c * F x)%C).
Proof.
  induction l as [|x l IH]; cbn [Csum fold_right]; [ring|].
  fold (Csum l F); fold (Csum l (fun x => (c * F x)%C)).
  rewrite <- IH; ring.
Qed.

Lemma Csum_swap l1 l2 (F : Z -> Z -> C) :
  Csum l1 (fun a => Csum l2 (fun b => F a b))
  = Csum l2 (fun b => Csum l1 (fun a => F a b)).
Proof.
  induction l1 as [|x l1 IH]; cbn [Csum fold_right].
  - symmetry; apply Csum_zero; reflexivity.
  - fold (Csum l1 (fun a => Csum l2 (fun b => F a b))).
    rewrite IH, <- Csum_plus; reflexivity.
Qed.

Lemma Csum_single a b n (G : Z -> C) :
  a <= n <= b ->
  (forall x, a <= x <= b -> x <> n -> G x = C0) ->
  Csum (range a b) G = G n.
Proof.
  intros Hn Hz.
  rewrite (@range_app a n b) by lia.
  rewrite (@range_cons n b) by lia.
  rewrite Csum_app; cbn [Csum fold_right].
  fold (Csum (range (n + 1) b) G); fold (Csum (range a (n - 1)) G).
  rewrite !Csum_zero.
  - ring.
  - intros x Hx; apply range_In in Hx; apply Hz; lia.
  - intros x Hx; apply range_In in Hx; apply Hz; lia.
Qed.

Lemma Csum_const a b c :
  a <= b + 1 -> Csum (range a b) (fun _ => c) = (RtoC (IZR (b - a + 1)) * c)%C.
Proof.
  intros Hab.
  remember (Z.to_nat (b - a + 1)) as n eqn:Hn.
  revert b Hab Hn; induction n as [|n IH]; intros b Hab Hn.
  - rewrite range_nil by lia; replace (b - a + 1) with 0 by lia.
    cbn [Csum fold_right]; apply C_eq; simpl; ring.
  - rewrite Csum_snoc by lia.
    rewrite (IH (b - 1)) by lia.
    replace (b - a + 1) with ((b - 1 - a + 1) + 1) by lia.
    rewrite !plus_IZR; apply C_eq; simpl; ring.
Qed.

(** The orthogonality of the phases along the orientation. *)
Lemma turn_sum M d :
  1 <= M -> Z.abs d < M ->
  Csum (range 0 (M - 1)) (turn M d)
  = if d =? 0 then RtoC (IZR M) else C0.
Proof.
  intros HM Hd.
  destruct (Z.eqb_spec d 0) as [->|Hne].
  - rewrite (@Csum_ext _ (turn M 0) (fun _ => C1))
      by (intros; apply turn_0).
    rewrite Csum_const by lia.
    replace (M - 1 - 0 + 1) with M by lia; ring.
  - set (S := Csum (range 0 (M - 1)) (turn M d)).
    assert (E : (turn M d 1 * S = S)%C).
    { unfold S; rewrite Csum_scal_l.
      rewrite (@Csum_ext _ (fun x => (turn M d 1 * turn M d x)%C)
                 (fun x => turn M d (x + 1)))
        by (intros; rewrite turn_succ; ring).
      rewrite <- (@Csum_map (fun x => x + 1) _ (turn M d)).
      rewrite <- range_shift.
      replace (M - 1 + 1) with M by lia.
      rewrite (@Csum_snoc (0 + 1) M) by lia.
      rewrite turn_full by lia.
      rewrite (@range_cons 0 (M - 1)) by lia.
      cbn [Csum fold_right]; rewrite turn_at_0.
      fold (Csum (range (0 + 1) (M - 1)) (turn M d)); ring. }
    assert (E' : ((turn M d 1 - C1) * S)%C = C0)
      by (replace ((turn M d 1 - C1) * S)%C with (turn M d 1 * S - S)%C
            by ring; rewrite E; ring).
    apply Cmul_integral in E'; destruct E' as [E'|E']; [|exact E'].
    exfalso; apply (@turn_ne_1 M d); [lia|].
    replace (turn M d 1) with (turn M d 1 - C1 + C1)%C by ring.
    rewrite E'; ring.
Qed.

Lemma Cexp_neg_turn M n k :
  Cexp (- Ci * RtoC (IZR n * (2 * PI * IZR k / IZR M))) = turn M (- n) k.
Proof.
  unfold turn; f_equal; rewrite opp_IZR; apply C_eq; simpl; ring.
Qed.

(** Analysing along the orientation what was synthesised along it gives
    back the slice of each order, times [2 pi]. *)
Lemma analysed_of_series (S : Z -> list C) f L N n i :
  1 <= L -> 1 <= N -> - N + 1 <= n <= N - 1 -> 0 <= i < L * (2 * L - 1) ->
  (forall k j, 0 <= k <= 2 * N - 2 -> 0 <= j < L * (2 * L - 1) ->
     at0 f (k * (L * (2 * L - 1)) + j)
     = Csum (range (- N + 1) (N - 1))
         (fun n' => (at0 (S n') j
                     * Cexp (Ci * RtoC (IZR n' * (2 * PI * IZR k
                                                  / IZR (2 * N - 1)))))%C)) ->
  at0 (analysed f L N) (orientation_index N n * (L * (2 * L - 1)) + i)
  = (RtoC (2 * PI) * at0 (S n) i)%C.
Proof.
  intros HL HN Hn Hi Hf.
  rewrite analysed_entry by assumption.
  set (M := 2 * N - 1).
  assert (HM : IZR M <> 0%R) by (apply not_0_IZR; unfold M; lia).
  rewrite (@Csum_ext _ _
             (fun k => Csum (range (- N + 1) (N - 1))
                         (fun n' => (at0 (S n') i * turn M (n' - n) k)%C))).
  2:{ intros k Hk; apply range_In in Hk.
      rewrite Hf by lia; fold M.
      rewrite Cexp_neg_turn, Csum_scal_r.
      apply Csum_ext; intros n' _.
      replace (n' - n) with (n' + - n) by lia.
      rewrite turn_add; unfold turn; ring. }
  rewrite Csum_swap.
  rewrite (@Csum_ext _ _
             (fun n' => (at0 (S n') i
                         * (if n' - n =? 0 then RtoC (IZR M) else C0))%C)).
  2:{ intros n' Hn'; apply range_In in Hn'.
      rewrite <- Csum_scal_l; f_equal.
      replace (2 * N - 2) with (M - 1) by (unfold M; lia).
      apply turn_sum; unfold M; lia. }
  rewrite (@Csum_single _ _ n) by
    first [lia | intros x Hx Hne;
                 destruct (Z.eqb_spec (x - n) 0); [lia|ring]].
  replace (n - n) with 0 by lia; cbn [Z.eqb].
  rewrite <- Cmul_assoc, RtoC_mul.
  replace (IZR M * (2 * PI / IZR M))%R with (2 * PI)%R by (field; exact HM).
  ring.
Qed.

Lemma at0_map_mul c v i : at0 (map (Cmul c) v) i = (c * at0 v i)%C.
Proof.
  unfold at0, vat.
  replace C0 with (Cmul c C0) at 1 by ring.
  apply map_nth.
Qed.

Lemma slice_samples_signed
      (engine : list C -> Z -> Z -> ssht_dl_method_t -> list C)
      (elmn2ind : Z -> Z -> Z -> Z -> Z -> so3_storage_t -> Z)
      flmn L N storage n :
  slice_samples engine elmn2ind flmn L N storage n
  = map (Cmul (RtoC (IZR (sign_of n))))
        (engine (scaled_slice elmn2ind flmn L N storage n) L (- n)
                SSHT_DL_TRAPANI).
Proof.
  unfold slice_samples, sign_of; cbv zeta.
  destruct (is_odd n).
  - apply map_ext; intros x; apply C_eq; simpl; ring.
  - rewrite <- (map_id (engine _ L (- n) SSHT_DL_TRAPANI)) at 1.
    apply map_ext; intros x; apply C_eq; simpl; ring.
Qed.

Lemma factors_cancel l s :
  0 <= l -> s = 1 \/ s = -1 ->
  (2 * PI * IZR s * inverse_factor l * forward_factor s l = 1)%R.
Proof.
  intros Hl Hs; unfold inverse_factor, forward_factor.
  pose proof PI_RGT_0 as Hpi.
  assert (Ha : (0 < IZR (2 * l + 1))%R) by (apply IZR_lt; lia).
  set (a := IZR (2 * l + 1)) in *.
  assert (H3 : (0 < PI ^ 3)%R) by (apply pow_lt; lra).
  assert (E : (sqrt (a / (16 * PI ^ 3)) * sqrt (4 * PI / a)
               = / (2 * PI))%R).
  { rewrite <- sqrt_mult.
    - apply sqrt_lem_1.
      + apply Rmult_le_pos; apply Rlt_le, Rdiv_lt_0_compat; lra.
      + apply Rlt_le, Rinv_0_lt_compat; lra.
      + field; split; lra.
    - apply Rlt_le, Rdiv_lt_0_compat; lra.
    - apply Rlt_le, Rdiv_lt_0_compat; lra. }
  transitivity (2 * PI * (IZR s * IZR s)
                * (sqrt (a / (16 * PI ^ 3)) * sqrt (4 * PI / a)))%R;
    [ring|].
  rewrite E.
  replace (IZR s * IZR s)%R with 1%R
    by (destruct Hs as [-> | ->]; simpl; ring).
  field; lra.
Qed.

Lemma sign_of_cases n : sign_of n = 1 \/ sign_of n = -1.
Proof. unfold sign_of; destruct (is_odd n); auto. Qed.

Section RoundTrip.

Variables inverse_engine forward_engine :
  list C -> Z -> Z -> ssht_dl_method_t -> list C.
Variable elmn2ind : Z -> Z -> Z -> Z -> Z -> so3_storage_t -> Z.
Variable malloc : Z -> list C.
Variables (L N : Z) (storage : so3_storage_t).

(** The forward engine commutes with the multiplication by a constant. *)
Definition forward_engine_homogeneous : Prop :=
  forall c s spin,
    forward_engine (map (Cmul c) s) L spin SSHT_DL_TRAPANI
    = map (Cmul c) (forward_engine s L spin SSHT_DL_TRAPANI).

(** The two engines are inverse to each other on the coefficients of a
    signal of pole order [spin]: those of degree below [|spin|] are
    zero. *)
Definition engines_round_trip : Prop :=
  forall flm spin,
    Z.abs spin < L -> len flm = L * L ->
    (forall q, 0 <= q < spin * spin -> at0 flm q = C0) ->
    forward_engine (inverse_engine flm L spin SSHT_DL_TRAPANI) L spin
                   SSHT_DL_TRAPANI
    = flm.

Hypothesis Hc : is_compact storage = true.
Hypothesis HL : 1 <= L.
Hypothesis HN : 1 <= N <= L.
Hypothesis Hinv : inverse_engine_sized inverse_engine L.
Hypothesis Hfwd : forward_engine_sized forward_engine L.
Hypothesis Hhom : forward_engine_homogeneous.
Hypothesis Hrt : engines_round_trip.

Lemma raw_coeffs_of_series f flmn n :
  - N + 1 <= n <= N - 1 ->
  slices_in_range elmn2ind L N storage (len flmn) ->
  (forall k j, 0 <= k <= 2 * N - 2 -> 0 <= j < L * (2 * L - 1) ->
     at0 f (k * (L * (2 * L - 1)) + j)
     = Csum (range (- N + 1) (N - 1))
         (fun n' =>
            (at0 (slice_samples inverse_engine elmn2ind flmn L N storage n')
                 j
             * Cexp (Ci * RtoC (IZR n' * (2 * PI * IZR k
                                          / IZR (2 * N - 1)))))%C)) ->
  raw_coeffs forward_engine f L N n
  = map (Cmul (RtoC (2 * PI * IZR (sign_of n))))
        (scaled_slice elmn2ind flmn L N storage n).
Proof.
  intros Hn Hrange Hf.
  pose proof (@orientation_index_range N n Hn) as Ho.
  assert (Hst : 0 < L * (2 * L - 1)) by nia.
  assert (Hfn : len (analysed f L N) = (2 * N - 1) * (L * (2 * L - 1)))
    by (unfold analysed; rewrite len_map_range by nia; lia).
  unfold raw_coeffs.
  set (s := inverse_engine (scaled_slice elmn2ind flmn L N storage n) L
              (- n) SSHT_DL_TRAPANI).
  assert (Hs : len s = L * (2 * L - 1)) by apply Hinv.
  assert (E : firstn (Z.to_nat (L * (2 * L - 1)))
                (skipn (Z.to_nat (orientation_index N n * (L * (2 * L - 1))))
                       (analysed f L N))
              = map (Cmul (RtoC (2 * PI * IZR (sign_of n)))) s).
  { apply at0_ext.
    - rewrite len_window by nia.
      unfold len in *; rewrite length_map; lia.
    - intros q Hq; rewrite len_window in Hq by nia.
      rewrite at0_window by nia.
      rewrite (@analysed_of_series
                 (slice_samples inverse_engine elmn2ind flmn L N storage)
                 f L N n q) by (try assumption; lia).
      rewrite slice_samples_signed; fold s.
      rewrite !at0_map_mul, Cmul_assoc, RtoC_mul; reflexivity. }
  rewrite E, Hhom; f_equal.
  destruct (Hrange n Hn) as (_ & R1 & _).
  unfold slice_first in R1; rewrite Hc in R1.
  apply Hrt.
  - lia.
  - unfold scaled_slice; rewrite len_map_range; nia.
  - intros q Hq; unfold scaled_slice.
    rewrite at0_map_range by nia.
    unfold loaded_entry, slice_first; rewrite Hc.
    destruct (Z.ltb_spec q (n * n)); [ring|nia].
Qed.

End RoundTrip.

(** X12.  The two Wigner transforms are inverse to each other under the
    compact layouts.  Let the two SSHT engines be inverse to each other
    on coefficients that vanish below degree [|spin|], and let the
    forward engine commute with the multiplication by a constant.  Then,
    for [1 <= N <= L], the forward transform applied to the samples the
    inverse transform computes from [flmn] writes every stored
    coefficient of [flmn] back at its place: the permutation of the
    orders, the two Fourier transforms with the factor [2 pi/(2N-1)],
    the signs for odd [n] and the two degree-wise factors cancel
    exactly.  Entries in no slice keep the value the output buffer
    had. *)
Theorem wigner_round_trip_compact
        (inverse_engine forward_engine :
           list C -> Z -> Z -> ssht_dl_method_t -> list C)
        (elmn2ind : Z -> Z -> Z -> Z -> Z -> so3_storage_t -> Z)
        (malloc : Z -> list C)
        (L N : Z) (storage : so3_storage_t) (f0 flmn flmn0 : list C) :
  is_compact storage = true -> 1 <= L -> 1 <= N <= L ->
  inverse_engine_sized inverse_engine L ->
  forward_engine_sized forward_engine L ->
  forward_engine_homogeneous forward_engine L ->
  engines_round_trip inverse_engine forward_engine L ->
  malloc_sized malloc ->
  slices_in_range elmn2ind L N storage (len flmn) ->
  slices_disjoint elmn2ind L N storage ->
  (2 * N - 1) * (L * (2 * L - 1)) <= len f0 ->
  len flmn0 = len flmn ->
  exists f flmn',
    snd (run (so3_core_mw_inverse_via_ssht inverse_engine elmn2ind malloc
                f0 flmn L N storage)) = Ok f /\
    snd (run (so3_core_mw_forward_via_ssht forward_engine elmn2ind malloc
                flmn0 f L N storage)) = Ok flmn' /\
    len flmn' = len flmn /\
    (forall n l m, - N + 1 <= n <= N - 1 ->
       Z.abs n <= l < L -> - l <= m <= l ->
       at0 flmn' (elmn2ind (Z.abs n) (- Z.abs n) n L N storage
                  + (l * l + l + m - n * n))
       = at0 flmn (elmn2ind (Z.abs n) (- Z.abs n) n L N storage
                   + (l * l + l + m - n * n))) /\
    (forall q, 0 <= q ->
       (forall n, - N + 1 <= n <= N - 1 ->
          q < elmn2ind (Z.abs n) (- Z.abs n) n L N storage \/
          elmn2ind (Z.abs n) (- Z.abs n) n L N storage + (L * L - n * n)
            <= q) ->
       at0 flmn' q = at0 flmn0 q).
Proof.
  intros Hc HL HN Hinv Hfwd Hhom Hrt Hmal Hrange Hdisj Hf0 Hlen0.
  assert (Hsup : supported storage = true)
    by (destruct storage; try discriminate Hc; reflexivity).
  destruct (@so3_inverse_series inverse_engine elmn2ind malloc f0 flmn L N
              storage Hsup HL ltac:(lia) Hinv Hmal Hrange Hf0)
    as (f & Hrun & Hlenf & Hser & _).
  assert (Hrange0 : slices_in_range elmn2ind L N storage (len flmn0))
    by (rewrite Hlen0; exact Hrange).
  destruct (@so3_forward_ok forward_engine elmn2ind malloc flmn0 f L N
              storage Hsup HL ltac:(lia) Hfwd Hmal Hrange0 Hdisj
              ltac:(lia))
    as (flmn' & Hrun' & Hlen' & Hw & Ho).
  exists f, flmn'; split; [exact Hrun|]; split; [rewrite Hrun'; reflexivity|].
  split; [lia|]; split.
  - intros n l m Hn Hl Hm.
    specialize (Hw n l m Hn).
    unfold first_degree, slice_start, slice_first in Hw; rewrite Hc in Hw.
    rewrite (Hw Hl Hm).
    rewrite (@raw_coeffs_of_series inverse_engine forward_engine elmn2ind
               L N storage Hc HL HN Hinv Hhom Hrt f flmn n Hn Hrange Hser).
    rewrite at0_map_mul; unfold scaled_slice.
    assert (Hidx : n * n <= l * l + l + m < L * L) by nia.
    rewrite at0_map_range by lia.
    rewrite degree_of_index by lia.
    unfold loaded_entry, slice_first, slice_start; rewrite Hc.
    destruct (Z.ltb_spec (l * l + l + m) (n * n)); [lia|].
    set (x := at0 flmn _).
    transitivity (x * RtoC (2 * PI * IZR (sign_of n) * inverse_factor l
                            * forward_factor (sign_of n) l))%C.
    + rewrite <- !RtoC_mul; ring.
    + rewrite factors_cancel by (try apply sign_of_cases; lia).
      apply Cmul_1_r.
  - intros q Hq Hout; apply Ho; [exact Hq|].
    intros n Hn; unfold slice_start, slice_first; rewrite Hc.
    apply Hout; exact Hn.
Qed.

(** Two engines that are inverse to each other, to run the round trip on:
    the inverse one pads the [L^2] coefficients with zeros up to the
    [L (2L-1)] samples of a slice, the forward one keeps the first [L^2]
    samples. *)
Definition padding_engine (flm : list C) (L spin : Z)
           (method : ssht_dl_method_t) : list C :=
  map (at0 flm) (range 0 (L * L - 1))
  ++ repeat C0 (Z.to_nat (L * (2 * L - 1) - L * L)).

Definition truncating_engine (f : list C) (L spin : Z)
           (method : ssht_dl_method_t) : list C :=
  map (at0 f) (range 0 (L * L - 1)).

Lemma padding_engine_sized L :
  1 <= L -> inverse_engine_sized padding_engine L.
Proof.
  intros HL flm spin method; unfold padding_engine, len.
  rewrite length_app, length_map, range_length, repeat_length; nia.
Qed.

Lemma truncating_engine_sized L :
  1 <= L -> forward_engine_sized truncating_engine L.
Proof.
  intros HL f spin method; unfold truncating_engine, len.
  rewrite length_map, range_length; nia.
Qed.

Lemma truncating_engine_homogeneous L :
  forward_engine_homogeneous truncating_engine L.
Proof.
  intros c s spin; unfold truncating_engine.
  rewrite map_map; apply map_ext; intros q; apply at0_map_mul.
Qed.

Lemma padding_round_trip L :
  1 <= L -> engines_round_trip padding_engine truncating_engine L.
Proof.
  intros HL flm spin _ Hlen _; unfold truncating_engine, padding_engine.
  apply at0_ext.
  - rewrite len_map_range; nia.
  - intros q Hq; rewrite len_map_range in Hq by nia.
    rewrite at0_map_range by lia.
    rewrite at0_app_l by (rewrite len_map_range; nia).
    apply at0_map_range; lia.
Qed.

Lemma wigner_round_trip_compact_witness :
  exists f flmn',
    snd (run (so3_core_mw_inverse_via_ssht padding_engine elmn2ind_layout
                zeroed_malloc (repeat C0 18)
                (map (fun q => mkC (IZR q) 1) (range 1 10)) 2 2
                SO3_STORE_NEG_FIRST_COMPACT)) = Ok f /\
    snd (run (so3_core_mw_forward_via_ssht truncating_engine
                elmn2ind_layout zeroed_malloc (repeat C0 10) f 2 2
                SO3_STORE_NEG_FIRST_COMPACT)) = Ok flmn' /\
    len flmn' = len (map (fun q => mkC (IZR q) 1) (range 1 10)) /\
    (forall n l m, - 2 + 1 <= n <= 2 - 1 ->
       Z.abs n <= l < 2 -> - l <= m <= l ->
       at0 flmn' (elmn2ind_layout (Z.abs n) (- Z.abs n) n 2 2
                    SO3_STORE_NEG_FIRST_COMPACT
                  + (l * l + l + m - n * n))
       = at0 (map (fun q => mkC (IZR q) 1) (range 1 10))
             (elmn2ind_layout (Z.abs n) (- Z.abs n) n 2 2
                SO3_STORE_NEG_FIRST_COMPACT
              + (l * l + l + m - n * n))) /\
    (forall q, 0 <= q ->
       (forall n, - 2 + 1 <= n <= 2 - 1 ->
          q < elmn2ind_layout (Z.abs n) (- Z.abs n) n 2 2
                SO3_STORE_NEG_FIRST_COMPACT \/
          elmn2ind_layout (Z.abs n) (- Z.abs n) n 2 2
            SO3_STORE_NEG_FIRST_COMPACT + (2 * 2 - n * n) <= q) ->
       at0 flmn' q = at0 (repeat C0 10) q).
Proof.
  apply (@wigner_round_trip_compact padding_engine truncating_engine
           elmn2ind_layout zeroed_malloc 2 2 SO3_STORE_NEG_FIRST_COMPACT
           (repeat C0 18) (map (fun q => mkC (IZR q) 1) (range 1 10))
           (repeat C0 10)).
  - reflexivity.
  - lia.
  - lia.
  - apply padding_engine_sized; lia.
  - apply truncating_engine_sized; lia.
  - apply truncating_engine_homogeneous.
  - apply padding_round_trip; lia.
  - exact zeroed_malloc_sized.
  - exact layout_2_2_in_range.
  - exact layout_2_2_disjoint.
  - vm_compute; discriminate.
  - reflexivity.
Defined.

(** *** The padded layouts *)

Lemma padded_slices_in_range
      (elmn2ind : Z -> Z -> Z -> Z -> Z -> so3_storage_t -> Z)
      L N storage size :
  is_compact storage = false -> 1 <= L ->
  (forall n, - N + 1 <= n <= N - 1 ->
     0 <= elmn2ind 0 0 n L N storage /\
     elmn2ind 0 0 n L N storage + L * L <= size) ->
  slices_in_range elmn2ind L N storage size.
Proof.
  intros Hc HL H n Hn; unfold slice_start, slice_first; rewrite Hc.
  destruct (H n Hn); repeat split; nia.
Qed.

(** X13.  The inverse transform under the padded layouts.  For every
    [n] in [-N+1 .. N-1] the whole block of [L^2] coefficients that
    starts at the index of [(el, m, n) = (0, 0, n)] is copied as it is:
    nothing is set to zero, the entries of degree [l < |n|] included,
    and every entry is multiplied by [sqrt((2l+1)/(16 pi^3))] before the
    engine is called with pole order [-n].  The samples of the slice are
    negated for odd [n] and kept at orientation index [n] ([n + 2N-1]
    for [n < 0]); the result is the backward Fourier transform of the
    slices.  [fn] and [flm] are allocated, and freed before the run
    returns. *)
Theorem inverse_via_ssht_padded
        (engine : list C -> Z -> Z -> ssht_dl_method_t -> list C)
        (elmn2ind : Z -> Z -> Z -> Z -> Z -> so3_storage_t -> Z)
        (malloc : Z -> list C)
        (f flmn : list C) (L N : Z) (storage : so3_storage_t) :
  storage = SO3_STORE_ZERO_FIRST_PAD \/ storage = SO3_STORE_NEG_FIRST_PAD ->
  1 <= L -> 1 <= N ->
  inverse_engine_sized engine L -> malloc_sized malloc ->
  (forall n, - N + 1 <= n <= N - 1 ->
     0 <= elmn2ind 0 0 n L N storage /\
     elmn2ind 0 0 n L N storage + L * L <= len flmn) ->
  (2 * N - 1) * (L * (2 * L - 1)) <= len f ->
  exists fn f',
    run (so3_core_mw_inverse_via_ssht engine elmn2ind malloc
           f flmn L N storage)
    = ([Alloc buf_fn; Alloc buf_flm; Free buf_flm; Free buf_fn], Ok f') /\
    (forall q, 0 <= q < (2 * N - 1) * (L * (2 * L - 1)) ->
       at0 f' q
       = Csum (range 0 (2 * N - 1 - 1))
           (fun j =>
              (at0 fn (q mod (L * (2 * L - 1)) + j * (L * (2 * L - 1)))
               * Cexp (Ci * RtoC (IZR FFTW_BACKWARD
                                  * (2 * PI * IZR j
                                     * IZR (q / (L * (2 * L - 1))))
                                  / IZR (2 * N - 1))))%C)) /\
    forall n, - N + 1 <= n <= N - 1 ->
      exists scaled,
        len scaled = L * L /\
        (forall l m, 0 <= l < L -> - l <= m <= l ->
           at0 scaled (l * l + l + m)
           = (at0 flmn (elmn2ind 0 0 n L N storage + (l * l + l + m))
              * RtoC (sqrt (IZR (2 * l + 1) / (16 * PI ^ 3))))%C) /\
        window fn ((if n <? 0 then n + 2 * N - 1 else n) * (L * (2 * L - 1)))
               (L * (2 * L - 1))
        = Ok (if Z.odd n
              then map Copp (engine scaled L (- n) SSHT_DL_TRAPANI)
              else engine scaled L (- n) SSHT_DL_TRAPANI).
Proof.
  intros Hst HL HN Heng Hmal Hblocks Hf.
  assert (Hc : is_compact storage = false)
    by (destruct Hst as [-> | ->]; reflexivity).
  assert (Hsup : supported storage = true)
    by (destruct Hst as [-> | ->]; reflexivity).
  pose proof (@padded_slices_in_range elmn2ind L N storage (len flmn)
                Hc HL Hblocks) as Hrange.
  destruct (@so3_inverse_ok engine elmn2ind malloc f flmn L N storage
              Hsup HL HN Heng Hmal Hrange Hf) as (fn & Hlen & Hwin & Hrun).
  set (total := (2 * N - 1) * (L * (2 * L - 1))) in *.
  assert (Htot : 0 < total) by (unfold total; nia).
  exists fn; eexists; split; [exact Hrun|]; split.
  - intros q Hq.
    rewrite at0_app_l by (rewrite len_map_range; lia).
    rewrite at0_map_range by lia; reflexivity.
  - intros n Hn.
    exists (scaled_slice elmn2ind flmn L N storage n).
    assert (HLL : 0 < L * L) by nia.
    split; [unfold scaled_slice; rewrite len_map_range; lia|]; split.
    + intros l m Hl Hm; unfold scaled_slice.
      rewrite at0_map_range by nia.
      rewrite degree_of_index by lia.
      unfold loaded_entry, slice_first, slice_start; rewrite Hc.
      destruct (Z.ltb_spec (l * l + l + m) 0); [nia|].
      rewrite Z.sub_0_r; reflexivity.
    + rewrite <- is_odd_spec; exact (Hwin n Hn).
Qed.

(** A padded index map to run the transforms on: slice [n] starts at
    [(n + N - 1) * L^2]. *)
Definition padded_blocks (el m n L N : Z) (storage : so3_storage_t) : Z :=
  (n + N - 1) * (L * L) + (el * el + el + m).

Lemma inverse_via_ssht_padded_witness :
  exists fn f',
    run (so3_core_mw_inverse_via_ssht sample_inverse_engine padded_blocks
           zeroed_malloc (repeat C0 18) (repeat C1 12) 2 2
           SO3_STORE_NEG_FIRST_PAD)
    = ([Alloc buf_fn; Alloc buf_flm; Free buf_flm; Free buf_fn], Ok f') /\
    (forall q, 0 <= q < (2 * 2 - 1) * (2 * (2 * 2 - 1)) ->
       at0 f' q
       = Csum (range 0 (2 * 2 - 1 - 1))
           (fun j =>
              (at0 fn (q mod (2 * (2 * 2 - 1)) + j * (2 * (2 * 2 - 1)))
               * Cexp (Ci * RtoC (IZR FFTW_BACKWARD
                                  * (2 * PI * IZR j
                                     * IZR (q / (2 * (2 * 2 - 1))))
                                  / IZR (2 * 2 - 1))))%C)) /\
    forall n, - 2 + 1 <= n <= 2 - 1 ->
      exists scaled,
        len scaled = 2 * 2 /\
        (forall l m, 0 <= l < 2 -> - l <= m <= l ->
           at0 scaled (l * l + l + m)
           = (at0 (repeat C1 12)
                  (padded_blocks 0 0 n 2 2 SO3_STORE_NEG_FIRST_PAD
                   + (l * l + l + m))
              * RtoC (sqrt (IZR (2 * l + 1) / (16 * PI ^ 3))))%C) /\
        window fn ((if n <? 0 then n + 2 * 2 - 1 else n) * (2 * (2 * 2 - 1)))
               (2 * (2 * 2 - 1))
        = Ok (if Z.odd n
              then map Copp (sample_inverse_engine scaled 2 (- n)
                               SSHT_DL_TRAPANI)
              else sample_inverse_engine scaled 2 (- n) SSHT_DL_TRAPANI).
Proof.
  apply (@inverse_via_ssht_padded sample_inverse_engine padded_blocks
           zeroed_malloc (repeat C0 18) (repeat C1 12) 2 2
           SO3_STORE_NEG_FIRST_PAD).
  - right; reflexivity.
  - lia.
  - lia.
  - apply sample_inverse_engine_sized; lia.
  - exact zeroed_malloc_sized.
  - intros n Hn; unfold padded_blocks, len; simpl; lia.
  - vm_compute; discriminate.
Defined.

(** X14.  The forward transform under the padded layouts.  For every
    [n] the forward engine, called with pole order [-n] on the slice at
    orientation index [n] ([n + 2N-1] for [n < 0]), writes its whole
    block of [L^2] coefficients at the index of [(el, m, n) = (0, 0, n)],
    and every coefficient of every degree [l >= 0] is then multiplied by
    [sign * sqrt(4 pi/(2l+1))], [sign] being [-1] for odd [n]: also the
    entries of degree [l < |n|] hold what the engine returned, not the
    value they had.  No [flm] buffer is allocated; [ftemp] and [fn] are
    allocated and freed. *)
Theorem forward_via_ssht_padded
        (engine : list C -> Z -> Z -> ssht_dl_method_t -> list C)
        (elmn2ind : Z -> Z -> Z -> Z -> Z -> so3_storage_t -> Z)
        (malloc : Z -> list C)
        (flmn f : list C) (L N : Z) (storage : so3_storage_t) :
  storage = SO3_STORE_ZERO_FIRST_PAD \/ storage = SO3_STORE_NEG_FIRST_PAD ->
  1 <= L -> 1 <= N ->
  forward_engine_sized engine L -> malloc_sized malloc ->
  (forall n, - N + 1 <= n <= N - 1 ->
     0 <= elmn2ind 0 0 n L N storage /\
     elmn2ind 0 0 n L N storage + L * L <= len flmn) ->
  (forall n n', - N + 1 <= n <= N - 1 -> - N + 1 <= n' <= N - 1 ->
     n <> n' ->
     elmn2ind 0 0 n L N storage + L * L <= elmn2ind 0 0 n' L N storage \/
     elmn2ind 0 0 n' L N storage + L * L <= elmn2ind 0 0 n L N storage) ->
  (2 * N - 1) * (L * (2 * L - 1)) <= len f ->
  exists fn flmn',
    run (so3_core_mw_forward_via_ssht engine elmn2ind malloc
           flmn f L N storage)
    = ([Alloc buf_ftemp; Alloc buf_fn; Free buf_ftemp; Free buf_fn],
       Ok flmn') /\
    len flmn' = len flmn /\
    (forall q, 0 <= q < (2 * N - 1) * (L * (2 * L - 1)) ->
       at0 fn q
       = (Csum (range 0 (2 * N - 1 - 1))
            (fun j =>
               (at0 f (q mod (L * (2 * L - 1)) + j * (L * (2 * L - 1)))
                * Cexp (Ci * RtoC (IZR FFTW_FORWARD
                                   * (2 * PI * IZR j
                                      * IZR (q / (L * (2 * L - 1))))
                                   / IZR (2 * N - 1))))%C)
          * RtoC (2 * PI / IZR (2 * N - 1)))%C) /\
    (forall n, - N + 1 <= n <= N - 1 ->
       exists slice,
         window fn ((if n <? 0 then n + 2 * N - 1 else n)
                    * (L * (2 * L - 1)))
                (L * (2 * L - 1)) = Ok slice /\
         forall l m, 0 <= l < L -> - l <= m <= l ->
           at0 flmn' (elmn2ind 0 0 n L N storage + (l * l + l + m))
           = (at0 (engine slice L (- n)%Z SSHT_DL_TRAPANI) (l * l + l + m)
              * RtoC (IZR (if Z.odd n then -1 else 1)
                      * sqrt (4 * PI / IZR (2 * l + 1))))%C) /\
    (forall q, 0 <= q ->
       (forall n, - N + 1 <= n <= N - 1 ->
          q < elmn2ind 0 0 n L N storage \/
          elmn2ind 0 0 n L N storage + L * L <= q) ->
       at0 flmn' q = at0 flmn q).
Proof.
  intros Hst HL HN Heng Hmal Hblocks Hapart Hf.
  assert (Hc : is_compact storage = false)
    by (destruct Hst as [-> | ->]; reflexivity).
  assert (Hsup : supported storage = true)
    by (destruct Hst as [-> | ->]; reflexivity).
  pose proof (@padded_slices_in_range elmn2ind L N storage (len flmn)
                Hc HL Hblocks) as Hrange.
  assert (Hdisj : slices_disjoint elmn2ind L N storage).
  { intros n n' Hn Hn' Hne; unfold slice_start, slice_first; rewrite Hc.
    destruct (Hapart n n' Hn Hn' Hne); [left|right]; lia. }
  destruct (@so3_forward_ok engine elmn2ind malloc flmn f L N storage
              Hsup HL HN Heng Hmal Hrange Hdisj Hf)
    as (flmn' & Hrun & Hlen & Hw & Ho).
  unfold forward_trace in Hrun; rewrite Hc in Hrun; cbn [app] in Hrun.
  set (stride := L * (2 * L - 1)) in *.
  assert (Hstr : 0 < stride) by (unfold stride; nia).
  set (total := (2 * N - 1) * stride) in *.
  assert (Htot : 0 < total) by (unfold total; nia).
  assert (Hfn : len (analysed f L N) = total)
    by (unfold analysed; fold stride total; rewrite len_map_range; lia).
  exists (analysed f L N), flmn'.
  split; [exact Hrun|]; split; [exact Hlen|].
  split; [|split].
  - intros q Hq; unfold analysed; fold stride total.
    rewrite at0_map_range by lia; reflexivity.
  - intros n Hn.
    pose proof (@orientation_index_range N n Hn) as Hor.
    unfold orientation_index in Hor.
    rewrite window_ok by nia.
    eexists; split; [reflexivity|].
    intros l m Hl Hm.
    specialize (Hw n l m Hn).
    unfold first_degree, slice_start, slice_first, sign_of, raw_coeffs,
      forward_factor, orientation_index in Hw.
    rewrite Hc, is_odd_spec, Z.sub_0_r in Hw; fold stride in Hw.
    apply Hw; assumption.
  - intros q Hq Hout; apply Ho; [exact Hq|].
    intros n Hn; unfold slice_start, slice_first; rewrite Hc.
    destruct (Hout n Hn); [left|right]; lia.
Qed.

Lemma forward_via_ssht_padded_witness :
  exists fn flmn',
    run (so3_core_mw_forward_via_ssht sample_forward_engine padded_blocks
           zeroed_malloc (repeat C0 12) (repeat C1 18) 2 2
           SO3_STORE_NEG_FIRST_PAD)
    = ([Alloc buf_ftemp; Alloc buf_fn; Free buf_ftemp; Free buf_fn],
       Ok flmn') /\
    len flmn' = len (repeat C0 12) /\
    (forall q, 0 <= q < (2 * 2 - 1) * (2 * (2 * 2 - 1)) ->
       at0 fn q
       = (Csum (range 0 (2 * 2 - 1 - 1))
            (fun j =>
               (at0 (repeat C1 18)
                    (q mod (2 * (2 * 2 - 1)) + j * (2 * (2 * 2 - 1)))
                * Cexp (Ci * RtoC (IZR FFTW_FORWARD
                                   * (2 * PI * IZR j
                                      * IZR (q / (2 * (2 * 2 - 1))))
                                   / IZR (2 * 2 - 1))))%C)
          * RtoC (2 * PI / IZR (2 * 2 - 1)))%C) /\
    (forall n, - 2 + 1 <= n <= 2 - 1 ->
       exists slice,
         window fn ((if n <? 0 then n + 2 * 2 - 1 else n)
                    * (2 * (2 * 2 - 1)))
                (2 * (2 * 2 - 1)) = Ok slice /\
         forall l m, 0 <= l < 2 -> - l <= m <= l ->
           at0 flmn' (padded_blocks 0 0 n 2 2 SO3_STORE_NEG_FIRST_PAD
                      + (l * l + l + m))
           = (at0 (sample_forward_engine slice 2 (- n)%Z SSHT_DL_TRAPANI)
                  (l * l + l + m)
              * RtoC (IZR (if Z.odd n then -1 else 1)
                      * sqrt (4 * PI / IZR (2 * l + 1))))%C) /\
    (forall q, 0 <= q ->
       (forall n, - 2 + 1 <= n <= 2 - 1 ->
          q < padded_blocks 0 0 n 2 2 SO3_STORE_NEG_FIRST_PAD \/
          padded_blocks 0 0 n 2 2 SO3_STORE_NEG_FIRST_PAD + 2 * 2 <= q) ->
       at0 flmn' q = at0 (repeat C0 12) q).
Proof.
  apply (@forward_via_ssht_padded sample_forward_engine padded_blocks
           zeroed_malloc (repeat C0 12) (repeat C1 18) 2 2
           SO3_STORE_NEG_FIRST_PAD).
  - right; reflexivity.
  - lia.
  - lia.
  - apply sample_forward_engine_sized.
  - exact zeroed_malloc_sized.
  - intros n Hn; unfold padded_blocks, len; simpl; lia.
  - intros n n' Hn Hn' Hne; unfold padded_blocks; lia.
  - vm_compute; discriminate.
Defined.

(** *** The transient buffers *)

Definition buffer_eqb (a b : buffer) : bool :=
  match a, b with
  | buf_fn, buf_fn | buf_flm, buf_flm | buf_ftemp, buf_ftemp => true
  | _, _ => false
  end.

(** The buffers alive after a trace that starts with the buffers [live]
    alive; [None] when the trace allocates a buffer that is alive or
    frees one that is not. *)
Fixpoint live_after (t : list event) (live : list buffer)
  : option (list buffer) :=
  match t with
  | [] => Some live
  | Alloc b :: t' =>
      if existsb (buffer_eqb b) live then None
      else live_after t' (b :: live)
  | Free b :: t' =>
      if existsb (buffer_eqb b) live
      then live_after t' (filter (fun x => negb (buffer_eqb b x)) live)
      else None
  end.

(** X15.  A run of either transform that returns has released every
    transient buffer it allocated, each once and none before its
    allocation: the inverse allocates [fn] and [flm]; the forward
    allocates [ftemp] and [fn], and [flm] exactly under the compact
    layouts. *)
Theorem transient_buffers_released
        (inverse_engine forward_engine :
           list C -> Z -> Z -> ssht_dl_method_t -> list C)
        (elmn2ind : Z -> Z -> Z -> Z -> Z -> so3_storage_t -> Z)
        (malloc : Z -> list C)
        (samples coefficients : list C) (L N : Z)
        (storage : so3_storage_t) :
  supported storage = true -> 1 <= L -> 1 <= N ->
  inverse_engine_sized inverse_engine L ->
  forward_engine_sized forward_engine L -> malloc_sized malloc ->
  slices_in_range elmn2ind L N storage (len coefficients) ->
  slices_disjoint elmn2ind L N storage ->
  (2 * N - 1) * (L * (2 * L - 1)) <= len samples ->
  (exists t f',
     run (so3_core_mw_inverse_via_ssht inverse_engine elmn2ind malloc
            samples coefficients L N storage) = (t, Ok f') /\
     live_after t [] = Some [] /\
     In (Alloc buf_fn) t /\ In (Alloc buf_flm) t /\
     ~ In (Alloc buf_ftemp) t) /\
  (exists t flmn',
     run (so3_core_mw_forward_via_ssht forward_engine elmn2ind malloc
            coefficients samples L N storage) = (t, Ok flmn') /\
     live_after t [] = Some [] /\
     In (Alloc buf_ftemp) t /\ In (Alloc buf_fn) t /\
     (In (Alloc buf_flm) t <-> is_compact storage = true)).
Proof.
  intros Hsup HL HN Hinv Hfwd Hmal Hrange Hdisj Hlen; split.
  - destruct (@so3_inverse_ok inverse_engine elmn2ind malloc samples
                coefficients L N storage Hsup HL HN Hinv Hmal Hrange Hlen)
      as (fn & _ & _ & Hrun).
    do 2 eexists; split; [exact Hrun|].
    split; [reflexivity|].
    split; [simpl; auto|].
    split; [simpl; auto|].
    simpl; intros [H|[H|[H|[H|H]]]]; try discriminate H; contradiction.
  - destruct (@so3_forward_ok forward_engine elmn2ind malloc coefficients
                samples L N storage Hsup HL HN Hfwd Hmal Hrange Hdisj Hlen)
      as (flmn' & Hrun & _).
    do 2 eexists; split; [exact Hrun|].
    unfold forward_trace; destruct (is_compact storage); cbn [app].
    + split; [reflexivity|].
      split; [simpl; auto|].
      split; [simpl; auto|].
      split; [reflexivity|simpl; auto].
    + split; [reflexivity|].
      split; [simpl; auto|].
      split; [simpl; auto|].
      split; [|discriminate].
      simpl; intros [H|[H|[H|[H|H]]]]; try discriminate H; contradiction.
Qed.

Lemma transient_buffers_released_witness :
  (exists t f',
     run (so3_core_mw_inverse_via_ssht sample_inverse_engine
            elmn2ind_layout zeroed_malloc (repeat C1 18) (repeat C0 10)
            2 2 SO3_STORE_NEG_FIRST_COMPACT) = (t, Ok f') /\
     live_after t [] = Some [] /\
     In (Alloc buf_fn) t /\ In (Alloc buf_flm) t /\
     ~ In (Alloc buf_ftemp) t) /\
  (exists t flmn',
     run (so3_core_mw_forward_via_ssht sample_forward_engine
            elmn2ind_layout zeroed_malloc (repeat C0 10) (repeat C1 18)
            2 2 SO3_STORE_NEG_FIRST_COMPACT) = (t, Ok flmn') /\
     live_after t [] = Some [] /\
     In (Alloc buf_ftemp) t /\ In (Alloc buf_fn) t /\
     (In (Alloc buf_flm) t
      <-> is_compact SO3_STORE_NEG_FIRST_COMPACT = true)).
Proof.
  apply (@transient_buffers_released sample_inverse_engine
           sample_forward_engine elmn2ind_layout zeroed_malloc
           (repeat C1 18) (repeat C0 10) 2 2 SO3_STORE_NEG_FIRST_COMPACT).
  - reflexivity.
  - lia.
  - lia.
  - apply sample_inverse_engine_sized; lia.
  - apply sample_forward_engine_sized.
  - exact zeroed_malloc_sized.
  - exact layout_2_2_in_range.
  - exact layout_2_2_disjoint.
  - vm_compute; discriminate.
Defined.

(** ** Further properties of the gateway [so3_forward_mex.c] *)

(** *** The coefficient vector and the slices of the core *)

(** Sums of integers over a list of indices. *)
Definition Zsum (l : list Z) (F : Z -> Z) : Z :=
  fold_right (fun x acc => F x + acc) 0 l.

Lemma Zsum_app l1 l2 F : Zsum (l1 ++ l2) F = Zsum l1 F + Zsum l2 F.
Proof.
  induction l1 as [|x l1 IH]; cbn [app Zsum fold_right]; [reflexivity|].
  fold (Zsum (l1 ++ l2) F); fold (Zsum l1 F); rewrite IH; lia.
Qed.

Lemma Zsum_sub l c F :
  Zsum l (fun n => c - F n) = Z.of_nat (length l) * c - Zsum l F.
Proof.
  induction l as [|x l IH]; [reflexivity|].
  cbn [Zsum fold_right length].
  fold (Zsum l (fun n => c - F n)); fold (Zsum l F); rewrite IH; lia.
Qed.

Lemma Zsum_zero l : Zsum l (fun _ => 0) = 0.
Proof.
  induction l as [|x l IH]; [reflexivity|].
  cbn [Zsum fold_right]; fold (Zsum l (fun _ : Z => 0)); rewrite IH; lia.
Qed.

(** The squares of the orders [-N+1 .. N-1] add up to twice the sum of
    the squares below [N]. *)
Lemma Zsum_cons x l F : Zsum (x :: l) F = F x + Zsum l F.
Proof. reflexivity. Qed.

Lemma Zsum_squares k :
  Zsum (range (- Z.of_nat k + 1) (Z.of_nat k - 1)) (fun n => n * n)
  = 2 * sum_squares k.
Proof.
  induction k as [|k IH]; [reflexivity|].
  destruct k as [|k]; [reflexivity|].
  rewrite (@range_cons (- Z.of_nat (S (S k)) + 1)) by lia.
  rewrite (@range_snoc (- Z.of_nat (S (S k)) + 1 + 1)) by lia.
  rewrite Zsum_cons, Zsum_app, Zsum_cons.
  replace (- Z.of_nat (S (S k)) + 1 + 1) with (- Z.of_nat (S k) + 1) by lia.
  replace (Z.of_nat (S (S k)) - 1 - 1) with (Z.of_nat (S k) - 1) by lia.
  rewrite IH.
  change (Zsum [] (fun n => n * n)) with 0.
  change (sum_squares (S (S k)))
    with (sum_squares (S k) + Z.of_nat (S k) * Z.of_nat (S k)).
  lia.
Qed.

Lemma slice_lengths_sum L N storage :
  1 <= N ->
  3 * Zsum (range (- N + 1) (N - 1)) (fun n => L * L - slice_first storage n)
  = 3 * flmn_size (is_compact storage) false L N.
Proof.
  intros HN; unfold slice_first, flmn_size.
  pose proof (Zsum_squares (Z.to_nat N)) as Hsq.
  pose proof (six_sum_squares (Z.to_nat N)) as H6.
  rewrite Z2Nat.id in Hsq, H6 by lia.
  destruct (is_compact storage).
  - rewrite (@Zsum_sub _ (L * L) (fun n => n * n)), Hsq, range_length.
    rewrite compact_complex_exact, Z2Nat.id by lia; nia.
  - rewrite (@Zsum_sub _ (L * L) (fun _ => 0)), Zsum_zero, range_length.
    rewrite Z2Nat.id by lia; nia.
Qed.

(** X16.  The size [mexFunction] computes for the complex transform is
    the room the slices of the core take.  For [1 <= N <= L] with
    [6*L*L*N <= INT_MAX], where no operation of [int] wraps around, and
    a storage string and an order string among the four macros, a size
    and a storage method are computed: the method is one of the four
    the core knows, and [flmn_size] is the sum, over [n = -N+1 .. N-1],
    of the number of coefficients the core copies for slice [n] under
    that method ([L^2] when padded, [L^2 - n^2] when compact).  It is
    positive and at most the padded size [(2N-1) L^2]. *)
Theorem coefficient_vector_holds_the_slices
        (SO3_STORAGE_PADDED SO3_STORAGE_COMPACT : string)
        (SO3_ORDER_ZEROFIRST SO3_ORDER_NEGFIRST : string)
        (storage_str order_str : string) (L N : Z) :
  1 <= N <= L -> 6 * L * L * N <= INT_MAX ->
  same storage_str SO3_STORAGE_PADDED = true \/
  same storage_str SO3_STORAGE_COMPACT = true ->
  same order_str SO3_ORDER_ZEROFIRST = true \/
  same order_str SO3_ORDER_NEGFIRST = true ->
  exists size storage_method,
    storage_of_strings SO3_STORAGE_PADDED SO3_STORAGE_COMPACT
      SO3_ORDER_ZEROFIRST SO3_ORDER_NEGFIRST storage_str order_str
      false L N
    = Ok (size, storage_method) /\
    supported storage_method = true /\
    size = Zsum (range (- N + 1) (N - 1))
                (fun n => L * L - slice_first storage_method n) /\
    0 < size <= (2 * N - 1) * L * L.
Proof.
  intros HN Hfit Hs Ho.
  pose proof (@storage_of_strings_accepts SO3_STORAGE_PADDED
                SO3_STORAGE_COMPACT SO3_ORDER_ZEROFIRST SO3_ORDER_NEGFIRST
                storage_str order_str false L N Hs Ho) as Hrun.
  do 2 eexists; split; [exact Hrun|].
  destruct (@storage_of_strings_size _ _ _ _ _ _ _ _ _ _ _ Hrun)
    as (Hsup & Hsize).
  set (storage_method := method_of_strings SO3_STORAGE_PADDED
                           SO3_ORDER_ZEROFIRST storage_str order_str) in *.
  rewrite Hsize, (@flmn_size_int_agrees _ false L N HN Hfit).
  pose proof (@slice_lengths_sum L N storage_method ltac:(lia)) as Hsum.
  split; [exact Hsup|]; split; [lia|].
  unfold flmn_size.
  destruct (is_compact storage_method); [|nia].
  pose proof (compact_complex_exact L N) as Hex.
  assert (HNN : 0 <= N * (N - 1) < L * L) by nia.
  assert (P : 0 < (2 * N - 1) * (3 * L * L - N * (N - 1)))
    by (apply Z.mul_pos_pos; lia).
  assert (Q : 0 <= (2 * N - 1) * (N * (N - 1)))
    by (apply Z.mul_nonneg_nonneg; lia).
  lia.
Qed.

Lemma coefficient_vector_holds_the_slices_witness :
  exists size storage_method,
    storage_of_strings "padded" "compact" "zerofirst" "negfirst"
      "compact" "negfirst" false 64 8
    = Ok (size, storage_method) /\
    supported storage_method = true /\
    size = Zsum (range (- 8 + 1) (8 - 1))
                (fun n => 64 * 64 - slice_first storage_method n) /\
    0 < size <= (2 * 8 - 1) * 64 * 64.
Proof.
  apply (@coefficient_vector_holds_the_slices
           "padded" "compact" "zerofirst" "negfirst" "compact" "negfirst"
           64 8).
  - lia.
  - vm_compute; discriminate.
  - right; reflexivity.
  - right; reflexivity.
Defined.

(** X17.  In the arithmetic of a 32-bit [int] the four size formulas are
    evaluated without any wrap-around, operation by operation in the
    order C evaluates them, while [6 L^2 N <= INT_MAX] and
    [1 <= N <= L]; the size is then positive and fits an [int]. *)
Theorem flmn_size_without_overflow (compact reality : bool) (L N : Z) :
  1 <= N <= L -> 6 * L * L * N <= INT_MAX ->
  flmn_size_int compact reality L N = flmn_size compact reality L N /\
  0 < flmn_size compact reality L N <= INT_MAX.
Proof.
  intros HN Hfit; split; [apply flmn_size_int_agrees; assumption|].
  unfold flmn_size.
  pose proof (compact_real_exact L N) as Hr.
  pose proof (compact_complex_exact L N) as Hc.
  assert (HLL : 1 <= N * N <= L * L) by nia.
  destruct compact, reality; nia.
Qed.

Lemma flmn_size_without_overflow_witness :
  flmn_size_int true false 64 8 = flmn_size true false 64 8 /\
  0 < flmn_size true false 64 8 <= INT_MAX.
Proof.
  apply (@flmn_size_without_overflow true false 64 8).
  - lia.
  - vm_compute; discriminate.
Defined.

(** *** The copy of the samples *)

(** A [double] array of MATLAB, read from C: indexed from 0. *)
Definition rget (v : list R) (i : Z) : result R := vget v (i + 1).

Section Samples.

Variable A : Type.

(** The two copy loops of [mexFunction],
    [for (g ...) for (b ...) for (a ...)
       out[g*f_na*f_nb + b*f_na + a] = value at a*f_ng*f_nb + b*f_ng + g],
    which differ in the value they store: [value i] is the right-hand
    side of the assignment read at index [i] of the MATLAB array.  The
    indices are computed in the integers, as [int] computes them for an
    array of fewer than [2^31] entries. *)
Variable value : Z -> result A.

Definition reorder_samples (out : list A) (f_ng f_nb f_na : Z)
  : result (list A) :=
  for_each (range 0 (f_ng - 1))
    (fun g out =>
       for_each (range 0 (f_nb - 1))
         (fun b out =>
            for_each (range 0 (f_na - 1))
              (fun a out =>
                 x <- value (a * f_ng * f_nb + b * f_ng + g) ;;
                 vset out (g * f_na * f_nb + b * f_na + a + 1) x)
              out)
         out)
    out.

End Samples.

(** The samples as the core takes them: real ones for the real transform,
    complex ones otherwise. *)
Inductive samples : Type :=
| RealSamples (fr : list R)
| ComplexSamples (f : list C).

(** [if (reality) { fr = malloc(...); ... } else { f = malloc(...); ... }]:
    [f_imag] is there when the MATLAB array is complex. *)
Definition load_samples (malloc_double : Z -> list R) (malloc : Z -> list C)
           (reality : bool) (f_real : list R) (f_imag : option (list R))
           (f_ng f_nb f_na : Z) : result samples :=
  if reality then
    fr <- reorder_samples (rget f_real)
            (malloc_double (f_ng * f_nb * f_na)) f_ng f_nb f_na ;;
    Ok (RealSamples fr)
  else
    f <- reorder_samples
           (fun i =>
              re <- rget f_real i ;;
              im <- match f_imag with
                    | Some v => rget v i
                    | None => Ok 0%R
                    end ;;
              Ok (RtoC re + Ci * RtoC im)%C)
           (malloc (f_ng * f_nb * f_na)) f_ng f_nb f_na ;;
    Ok (ComplexSamples f).

(** The two index maps. *)
Lemma euclid_unique q r q' r' d :
  0 <= r < d -> 0 <= r' < d -> q * d + r = q' * d + r' ->
  q = q' /\ r = r'.
Proof. intros Hr Hr' E; assert (q = q') by nia; subst; lia. Qed.

Lemma index_below x n y :
  0 <= x < n -> 0 <= y -> 0 <= x * y <= (n - 1) * y.
Proof.
  intros Hx Hy; split; [apply Z.mul_nonneg_nonneg; lia|].
  apply Z.mul_le_mono_nonneg_r; lia.
Qed.

Lemma source_index_range ng nb na g b a :
  0 <= g < ng -> 0 <= b < nb -> 0 <= a < na ->
  0 <= a * ng * nb + b * ng + g < ng * nb * na.
Proof.
  intros Hg Hb Ha.
  pose proof (@index_below a na (ng * nb) Ha ltac:(nia)).
  pose proof (@index_below b nb ng Hb ltac:(lia)).
  lia.
Qed.

Lemma target_index_range ng nb na g b a :
  0 <= g < ng -> 0 <= b < nb -> 0 <= a < na ->
  0 <= g * na * nb + b * na + a < ng * nb * na.
Proof.
  intros Hg Hb Ha.
  pose proof (@index_below g ng (na * nb) Hg ltac:(nia)).
  pose proof (@index_below b nb na Hb ltac:(lia)).
  lia.
Qed.

Lemma target_index_inj nb na g b a g' b' a' :
  0 <= b < nb -> 0 <= a < na -> 0 <= b' < nb -> 0 <= a' < na ->
  g * na * nb + b * na + a = g' * na * nb + b' * na + a' ->
  g = g' /\ b = b' /\ a = a'.
Proof.
  intros Hb Ha Hb' Ha' E.
  destruct (@euclid_unique (g * nb + b) a (g' * nb + b') a' na)
    as [E1 E2]; [lia|lia|lia|].
  destruct (@euclid_unique g b g' b' nb) as [E3 E4]; [lia|lia|lia|].
  auto.
Qed.

Lemma target_index_onto ng nb na p :
  0 <= p < ng * nb * na -> 0 <= ng -> 0 <= nb -> 0 <= na ->
  exists g b a, 0 <= g < ng /\ 0 <= b < nb /\ 0 <= a < na /\
                p = g * na * nb + b * na + a.
Proof.
  intros Hp Hg Hb Ha.
  assert (0 < na) by nia; assert (0 < nb) by nia.
  exists (p / na / nb), ((p / na) mod nb), (p mod na).
  pose proof (Z.div_mod p na ltac:(lia)) as E1.
  pose proof (Z.div_mod (p / na) nb ltac:(lia)) as E2.
  pose proof (Z.mod_pos_bound p na ltac:(lia)).
  pose proof (Z.mod_pos_bound (p / na) nb ltac:(lia)).
  assert (0 <= p / na) by (apply Z.div_pos; lia).
  assert (0 <= p / na / nb) by (apply Z.div_pos; lia).
  assert (p / na < ng * nb) by (apply Z.div_lt_upper_bound; nia).
  assert (p / na / nb < ng) by (apply Z.div_lt_upper_bound; nia).
  repeat split; try lia; nia.
Qed.

Section Reorder.

Variable A : Type.
Variable d : A.
Variable value : Z -> result A.
Variable V : Z -> A.
Variables ng nb na : Z.
Hypothesis Hng : 0 <= ng.
Hypothesis Hnb : 0 <= nb.
Hypothesis Hna : 0 <= na.
Hypothesis Hvalue :
  forall i, 0 <= i < ng * nb * na -> value i = Ok (V i).

(** [(g, b, a)] comes before [(g', b', a')] in the order of the loops. *)
Definition before (g' b' a' g b a : Z) : Prop :=
  g < g' \/ (g = g' /\ (b < b' \/ (b = b' /\ a < a'))).

Definition copied (g' b' a' : Z) (out : list A) : Prop :=
  len out = ng * nb * na /\
  forall g b a, 0 <= g < ng -> 0 <= b < nb -> 0 <= a < na ->
    before g' b' a' g b a ->
    vat d out (g * na * nb + b * na + a + 1)
    = V (a * ng * nb + b * ng + g).

Lemma reorder_step g b a out :
  0 <= g < ng -> 0 <= b < nb -> 0 <= a < na -> copied g b a out ->
  exists out',
    (x <- value (a * ng * nb + b * ng + g) ;;
     vset out (g * na * nb + b * na + a + 1) x) = Ok out' /\
    copied g b (a + 1) out'.
Proof.
  intros Hg Hb Ha (Hlen & Hdone).
  assert (Hsrc : 0 <= a * ng * nb + b * ng + g < ng * nb * na)
    by (apply source_index_range; assumption).
  assert (Hdst : 0 <= g * na * nb + b * na + a < ng * nb * na)
    by (apply target_index_range; assumption).
  rewrite (Hvalue Hsrc); cbn [bind].
  rewrite vset_ok by (unfold len in Hlen; lia).
  eexists; split; [reflexivity|]; split.
  - unfold len in *; rewrite upd_length; lia.
  - intros g0 b0 a0 Hg0 Hb0 Ha0 Hbef.
    destruct (Z.eq_dec (g0 * na * nb + b0 * na + a0)
                       (g * na * nb + b * na + a)) as [E|E].
    + destruct (@target_index_inj nb na g0 b0 a0 g b a) as (-> & -> & ->);
        try assumption.
      apply vat_upd_same; unfold len in Hlen; lia.
    + rewrite vat_upd_other by (unfold len in Hlen; nia).
      apply Hdone; try assumption.
      unfold before in *.
      destruct Hbef as [H|[-> [H| [-> H]]]]; auto.
      assert (a0 <> a) by (intros ->; apply E; reflexivity).
      right; split; [reflexivity|right; split; [reflexivity|lia]].
Qed.

Lemma reorder_samples_ok out :
  len out = ng * nb * na ->
  exists out',
    reorder_samples value out ng nb na = Ok out' /\
    len out' = ng * nb * na /\
    forall g b a, 0 <= g < ng -> 0 <= b < nb -> 0 <= a < na ->
      vat d out' (g * na * nb + b * na + a + 1)
      = V (a * ng * nb + b * ng + g).
Proof.
  intros Hlen; unfold reorder_samples.
  destruct (@for_range_inv (list A) (fun g o => copied g 0 0 o)
              (fun g out =>
                 for_each (range 0 (nb - 1))
                   (fun b out =>
                      for_each (range 0 (na - 1))
                        (fun a out =>
                           x <- value (a * ng * nb + b * ng + g) ;;
                           vset out (g * na * nb + b * na + a + 1) x)
                        out)
                   out)
              0 (ng - 1) out) as (out' & Hrun & Hinv).
  - lia.
  - split; [exact Hlen|].
    intros g b a Hg Hb Ha Hbef; unfold before in Hbef; lia.
  - intros g o Hg Ho.
    destruct (@for_range_inv (list A) (fun b o => copied g b 0 o)
                (fun b out =>
                   for_each (range 0 (na - 1))
                     (fun a out =>
                        x <- value (a * ng * nb + b * ng + g) ;;
                        vset out (g * na * nb + b * na + a + 1) x)
                     out)
                0 (nb - 1) o) as (o' & Hrun & Hinv).
    + lia.
    + exact Ho.
    + intros b o1 Hb Ho1.
      destruct (@for_range_inv (list A) (fun a o => copied g b a o)
                  (fun a out =>
                     x <- value (a * ng * nb + b * ng + g) ;;
                     vset out (g * na * nb + b * na + a + 1) x)
                  0 (na - 1) o1) as (o2 & Hrun & Hinv).
      * lia.
      * exact Ho1.
      * intros a o2 Ha Ho2; apply reorder_step; (lia || assumption).
      * exists o2; split; [exact Hrun|].
        destruct Hinv as (Hl & Hd); split; [exact Hl|].
        intros g0 b0 a0 Hg0 Hb0 Ha0 Hbef; apply Hd; try assumption.
        unfold before in *; lia.
    + exists o'; split; [exact Hrun|].
      destruct Hinv as (Hl & Hd); split; [exact Hl|].
      intros g0 b0 a0 Hg0 Hb0 Ha0 Hbef; apply Hd; try assumption.
      unfold before in *; lia.
  - exists out'; split; [exact Hrun|].
    destruct Hinv as (Hl & Hd); split; [exact Hl|].
    intros g b a Hg Hb Ha; apply Hd; try assumption.
    unfold before; lia.
Qed.

End Reorder.

(** X18.  The samples reach the core in C order.  With the MATLAB array
    [f] of size [f_ng x f_nb x f_na] (entry [(g, b, a)] at
    [a*f_ng*f_nb + b*f_ng + g] of its column-major data) the copy loops
    run to their end without leaving an array, and entry [(g, b, a)] is
    stored at [g*f_na*f_nb + b*f_na + a]: as a real number under the
    reality flag, otherwise as a complex number whose imaginary part is
    that of [f], or zero when [f] is a real array.  Every position of the
    new buffer is the place of one entry, so nothing of what [malloc]
    returned is left in it. *)
Theorem samples_are_reordered
        (malloc_double : Z -> list R) (malloc : Z -> list C)
        (reality : bool) (f_real : list R) (f_imag : option (list R))
        (f_ng f_nb f_na : Z) :
  0 <= f_ng -> 0 <= f_nb -> 0 <= f_na ->
  len f_real = f_ng * f_nb * f_na ->
  (forall v, f_imag = Some v -> len v = f_ng * f_nb * f_na) ->
  (forall n, 0 <= n -> len (malloc_double n) = n) ->
  malloc_sized malloc ->
  (exists s,
     load_samples malloc_double malloc reality f_real f_imag
       f_ng f_nb f_na = Ok s /\
     match s with
     | RealSamples fr =>
         reality = true /\ len fr = f_ng * f_nb * f_na /\
         forall g b a, 0 <= g < f_ng -> 0 <= b < f_nb -> 0 <= a < f_na ->
           vat 0%R fr (g * f_na * f_nb + b * f_na + a + 1)
           = vat 0%R f_real (a * f_ng * f_nb + b * f_ng + g + 1)
     | ComplexSamples f =>
         reality = false /\ len f = f_ng * f_nb * f_na /\
         forall g b a, 0 <= g < f_ng -> 0 <= b < f_nb -> 0 <= a < f_na ->
           at0 f (g * f_na * f_nb + b * f_na + a)
           = mkC (vat 0%R f_real (a * f_ng * f_nb + b * f_ng + g + 1))
                 match f_imag with
                 | Some v => vat 0%R v (a * f_ng * f_nb + b * f_ng + g + 1)
                 | None => 0%R
                 end
     end) /\
  (forall p, 0 <= p < f_ng * f_nb * f_na ->
     exists g b a, 0 <= g < f_ng /\ 0 <= b < f_nb /\ 0 <= a < f_na /\
                   p = g * f_na * f_nb + b * f_na + a).
Proof.
  intros Hg Hb Ha Hreal Himag Hmd Hm; split.
  2:{ intros p Hp; apply target_index_onto; assumption. }
  assert (Hn : 0 <= f_ng * f_nb * f_na) by nia.
  unfold load_samples; destruct reality.
  - destruct (@reorder_samples_ok R 0%R (rget f_real)
                (fun i => vat 0%R f_real (i + 1)) f_ng f_nb f_na Hg Hb Ha)
      with (out := malloc_double (f_ng * f_nb * f_na))
      as (fr & Hrun & Hlen & Hval).
    + intros i Hi; unfold rget; apply vget_ok; unfold len in Hreal; lia.
    + apply Hmd; exact Hn.
    + rewrite Hrun; cbn [bind]; eexists; split; [reflexivity|].
      repeat split; assumption.
  - set (im := fun i => match f_imag with
                        | Some v => vat 0%R v (i + 1)
                        | None => 0%R
                        end).
    destruct (@reorder_samples_ok C C0
                (fun i =>
                   re <- rget f_real i ;;
                   im <- match f_imag with
                         | Some v => rget v i
                         | None => Ok 0%R
                         end ;;
                   Ok (RtoC re + Ci * RtoC im)%C)
                (fun i => mkC (vat 0%R f_real (i + 1)) (im i))
                f_ng f_nb f_na Hg Hb Ha)
      with (out := malloc (f_ng * f_nb * f_na))
      as (f & Hrun & Hlen & Hval).
    + intros i Hi; unfold rget at 1.
      rewrite (vget_ok 0%R) by (unfold len in Hreal; lia); cbn [bind].
      unfold im; destruct f_imag as [v|].
      * unfold rget; rewrite (vget_ok 0%R)
          by (specialize (Himag v eq_refl); unfold len in Himag; lia).
        cbn [bind]; f_equal; apply C_eq; simpl; ring.
      * cbn [bind]; f_equal; apply C_eq; simpl; ring.
    + apply Hm; exact Hn.
    + rewrite Hrun; cbn [bind]; eexists; split; [reflexivity|].
      split; [reflexivity|]; split; [exact Hlen|].
      intros g b a Hg' Hb' Ha'; unfold at0.
      rewrite (Hval g b a Hg' Hb' Ha'); unfold im.
      destruct f_imag; reflexivity.
Qed.

(** An allocator of [double]s to run the copy on. *)
Definition zeroed_malloc_double (n : Z) : list R := repeat 0%R (Z.to_nat n).

Lemma samples_are_reordered_witness :
  (exists s,
     load_samples zeroed_malloc_double zeroed_malloc false
       [1%R; 2%R; 3%R; 4%R; 5%R; 6%R] None 1 2 3 = Ok s /\
     match s with
     | RealSamples fr =>
         false = true /\ len fr = 1 * 2 * 3 /\
         forall g b a, 0 <= g < 1 -> 0 <= b < 2 -> 0 <= a < 3 ->
           vat 0%R fr (g * 3 * 2 + b * 3 + a + 1)
           = vat 0%R [1%R; 2%R; 3%R; 4%R; 5%R; 6%R]
                 (a * 1 * 2 + b * 1 + g + 1)
     | ComplexSamples f =>
         false = false /\ len f = 1 * 2 * 3 /\
         forall g b a, 0 <= g < 1 -> 0 <= b < 2 -> 0 <= a < 3 ->
           at0 f (g * 3 * 2 + b * 3 + a)
           = mkC (vat 0%R [1%R; 2%R; 3%R; 4%R; 5%R; 6%R]
                      (a * 1 * 2 + b * 1 + g + 1))
                 match @None (list R) with
                 | Some v => vat 0%R v (a * 1 * 2 + b * 1 + g + 1)
                 | None => 0%R
                 end
     end) /\
  (forall p, 0 <= p < 1 * 2 * 3 ->
     exists g b a, 0 <= g < 1 /\ 0 <= b < 2 /\ 0 <= a < 3 /\
                   p = g * 3 * 2 + b * 3 + a).
Proof.
  apply (@samples_are_reordered zeroed_malloc_double zeroed_malloc false
           [1%R; 2%R; 3%R; 4%R; 5%R; 6%R] None 1 2 3).
  - lia.
  - lia.
  - lia.
  - reflexivity.
  - intros v H; discriminate H.
  - intros n Hn; unfold zeroed_malloc_double, len.
    rewrite repeat_length; lia.
  - exact zeroed_malloc_sized.
Defined.

(** *** The two band-limits *)

(** What [mexFunction] asks of a numeric argument: [mxIsDouble],
    [mxIsComplex], [mxGetNumberOfElements] and [mxGetScalar]. *)
Record mx_scalar : Type :=
  mkScalar { mxIsDouble : bool; mxIsComplex : bool;
             mxGetNumberOfElements : Z; mxGetScalar : R }.

(** The value of [x] without its fractional part. *)
Definition truncate (x : R) : Z :=
  if Rle_dec 0 x then Int_part x else - Int_part (- x).

(** [(int)x]: the fractional part is discarded; C defines the conversion
    only when the result fits an [int], and there is no value
    otherwise. *)
Definition int_of_double (x : R) : option Z :=
  if (- 2 ^ 31 <=? truncate x) && (truncate x <=? INT_MAX)
  then Some (truncate x) else None.

(** [x > (double)L]. *)
Definition exceeds (x : R) (L : Z) : bool :=
  if Rlt_dec (IZR L) x then true else false.

(** The parsing of [L] and of [N]: the same code with two pairs of
    messages, ["Harmonic band-limit must be integer."] and
    ["Harmonic band-limit must be positive integer."] for [L],
    ["Orientational band-limit must be integer."] and
    ["Orientational band-limit must be positive integer."] for [N].
    The outcome is [None] where C leaves the conversion undefined. *)
Definition parse_band_limit (type_msg value_msg : string) (arg : mx_scalar)
  : option (result Z) :=
  if negb (mxIsDouble arg) || mxIsComplex arg
     || negb (mxGetNumberOfElements arg =? 1)
  then Some (Err (Fatal type_msg))
  else
    match int_of_double (mxGetScalar arg) with
    | None => None
    | Some L =>
        if exceeds (mxGetScalar arg) L || (L <=? 0)
        then Some (Err (Fatal value_msg))
        else Some (Ok L)
    end.

Lemma Int_part_bounds x : (IZR (Int_part x) <= x < IZR (Int_part x) + 1)%R.
Proof.
  destruct (base_Int_part x) as [H1 H2]; lra.
Qed.

Lemma Int_part_IZR n : Int_part (IZR n) = n.
Proof.
  pose proof (Int_part_bounds (IZR n)) as [H1 H2].
  apply le_IZR in H1.
  rewrite <- plus_IZR in H2; apply lt_IZR in H2; lia.
Qed.

Lemma Int_part_nonneg x : (0 <= x)%R -> 0 <= Int_part x.
Proof.
  intros Hx; pose proof (Int_part_bounds x) as [_ H].
  assert (H' : (IZR 0 < IZR (Int_part x + 1))%R)
    by (rewrite plus_IZR; simpl; lra).
  apply lt_IZR in H'; lia.
Qed.

Lemma truncate_fits x :
  (Rabs x < IZR (2 ^ 31))%R -> int_of_double x = Some (truncate x).
Proof.
  intros Hx; unfold int_of_double, truncate, INT_MAX.
  destruct (Rle_dec 0 x) as [H|H].
  - rewrite Rabs_right in Hx by lra.
    pose proof (Int_part_bounds x) as [B1 B2].
    pose proof (Int_part_nonneg H).
    assert (B : (IZR (Int_part x) < IZR (2 ^ 31))%R) by lra.
    apply lt_IZR in B.
    destruct (Z.leb_spec (- 2 ^ 31) (Int_part x)); [|lia].
    destruct (Z.leb_spec (Int_part x) (2 ^ 31 - 1)); [reflexivity|lia].
  - rewrite Rabs_left in Hx by lra.
    pose proof (Int_part_bounds (- x)) as [B1 B2].
    pose proof (@Int_part_nonneg (- x) ltac:(lra)).
    assert (B : (IZR (Int_part (- x)) < IZR (2 ^ 31))%R) by lra.
    apply lt_IZR in B.
    destruct (Z.leb_spec (- 2 ^ 31) (- Int_part (- x))); [|lia].
    destruct (Z.leb_spec (- Int_part (- x)) (2 ^ 31 - 1));
      [reflexivity|lia].
Qed.

Lemma parse_band_limit_spec type_msg value_msg arg :
  (Rabs (mxGetScalar arg) < IZR (2 ^ 31))%R ->
  exists r,
    parse_band_limit type_msg value_msg arg = Some r /\
    match r with
    | Ok L =>
        mxIsDouble arg = true /\ mxIsComplex arg = false /\
        mxGetNumberOfElements arg = 1 /\ 0 < L /\ mxGetScalar arg = IZR L
    | Err e =>
        (e = Fatal type_msg /\
         (mxIsDouble arg = false \/ mxIsComplex arg = true \/
          mxGetNumberOfElements arg <> 1)) \/
        (e = Fatal value_msg /\
         mxIsDouble arg = true /\ mxIsComplex arg = false /\
         mxGetNumberOfElements arg = 1 /\
         forall L, 0 < L -> mxGetScalar arg <> IZR L)
    end.
Proof.
  intros Hfit; unfold parse_band_limit.
  destruct (mxIsDouble arg); cbn [negb orb];
    [|eexists; split; [reflexivity|left; auto]].
  destruct (mxIsComplex arg); cbn [orb];
    [eexists; split; [reflexivity|left; auto]|].
  destruct (Z.eqb_spec (mxGetNumberOfElements arg) 1) as [E|E];
    cbn [negb]; [|eexists; split; [reflexivity|left; auto]].
  rewrite (@truncate_fits _ Hfit).
  set (x := mxGetScalar arg) in *.
  unfold exceeds, truncate.
  destruct (Rle_dec 0 x) as [Hx|Hx].
  - pose proof (Int_part_bounds x) as [B1 B2].
    destruct (Rlt_dec (IZR (Int_part x)) x) as [Hlt|Hge]; cbn [orb].
    + eexists; split; [reflexivity|].
      right; repeat split; auto.
      intros L _ EL; rewrite EL, Int_part_IZR in Hlt; lra.
    + assert (Ex : x = IZR (Int_part x)) by lra.
      destruct (Z.leb_spec (Int_part x) 0) as [Hle|Hpos].
      * eexists; split; [reflexivity|].
        right; repeat split; auto.
        intros L HL EL; rewrite EL, Int_part_IZR in Hle; lia.
      * eexists; split; [reflexivity|].
        repeat split; auto.
  - pose proof (@Int_part_nonneg (- x) ltac:(lra)).
    destruct (Z.leb_spec (- Int_part (- x)) 0) as [Hle|Hpos]; [|lia].
    rewrite orb_true_r.
    eexists; split; [reflexivity|].
    right; repeat split; auto.
    intros L HL EL.
    assert (0 < IZR L)%R by (apply IZR_lt; lia); lra.
Qed.

(** X19.  [mexFunction] accepts a band-limit, [L] or [N], exactly when
    the argument is one real [double] whose value is a positive integer,
    and the band-limit is then that integer.  Otherwise it stops: with
    the first message (the band-limit "must be integer") when the
    argument is not a single real double, and with the second (it "must
    be positive integer") when the value has a fractional part or is
    not positive.  The value is taken below [2^31] in magnitude, where
    the conversion [(int)] of C is defined. *)
Theorem band_limits_are_positive_integers
        (type_msg value_msg : string) (arg : mx_scalar) :
  (Rabs (mxGetScalar arg) < IZR (2 ^ 31))%R ->
  (forall L, parse_band_limit type_msg value_msg arg = Some (Ok L) <->
     mxIsDouble arg = true /\ mxIsComplex arg = false /\
     mxGetNumberOfElements arg = 1 /\ 0 < L /\ mxGetScalar arg = IZR L) /\
  (mxIsDouble arg = false \/ mxIsComplex arg = true \/
   mxGetNumberOfElements arg <> 1 ->
   parse_band_limit type_msg value_msg arg = Some (Err (Fatal type_msg))) /\
  (mxIsDouble arg = true -> mxIsComplex arg = false ->
   mxGetNumberOfElements arg = 1 ->
   (forall L, 0 < L -> mxGetScalar arg <> IZR L) ->
   parse_band_limit type_msg value_msg arg
   = Some (Err (Fatal value_msg))).
Proof.
  intros Hfit.
  destruct (@parse_band_limit_spec type_msg value_msg arg Hfit)
    as (r & Hrun & H).
  rewrite Hrun; split; [|split].
  - intros L; split.
    + intros E; inversion E; subst r; exact H.
    + intros (Hd & Hc & Hn & HL & Hx).
      destruct r as [L'|e].
      * destruct H as (_ & _ & _ & _ & Hx').
        do 2 f_equal; apply eq_IZR; congruence.
      * exfalso; destruct H as [(_ & [H|[H|H]])|(_ & _ & _ & _ & H)];
          try congruence.
        exact (H L HL Hx).
  - intros Hbad.
    destruct r as [L'|e].
    + exfalso; destruct H as (Hd & Hc & Hn & _).
      destruct Hbad as [Hb|[Hb|Hb]]; congruence.
    + destruct H as [(-> & _)|(_ & Hd & Hc & Hn & _)]; [reflexivity|].
      exfalso; destruct Hbad as [Hb|[Hb|Hb]]; congruence.
  - intros Hd Hc Hn Hx.
    destruct r as [L'|e].
    + exfalso; destruct H as (_ & _ & _ & HL & E); exact (Hx L' HL E).
    + destruct H as [(_ & [H|[H|H]])|(-> & _)]; try congruence.
Qed.

Lemma band_limits_are_positive_integers_witness :
  (forall L,
     parse_band_limit "Harmonic band-limit must be integer."
       "Harmonic band-limit must be positive integer."
       (mkScalar true false 1 8) = Some (Ok L) <->
     true = true /\ false = false /\ 1 = 1 /\ 0 < L /\ 8%R = IZR L) /\
  (true = false \/ false = true \/ 1 <> 1 ->
   parse_band_limit "Harmonic band-limit must be integer."
     "Harmonic band-limit must be positive integer."
     (mkScalar true false 1 8)
   = Some (Err (Fatal "Harmonic band-limit must be integer."))) /\
  (true = true -> false = false -> 1 = 1 ->
   (forall L, 0 < L -> 8%R <> IZR L) ->
   parse_band_limit "Harmonic band-limit must be integer."
     "Harmonic band-limit must be positive integer."
     (mkScalar true false 1 8)
   = Some (Err (Fatal "Harmonic band-limit must be positive integer."))).
Proof.
  apply (@band_limits_are_positive_integers
           "Harmonic band-limit must be integer."
           "Harmonic band-limit must be positive integer."
           (mkScalar true false 1 8)).
  cbn [mxGetScalar]; rewrite Rabs_right by lra.
  apply IZR_lt; reflexivity.
Defined.
